(** * arvisan-backend: graph abstraction, merge validation and cycle projection

    A shallow embedding of the graph pipeline of the arvisan backend:
    - [GraphProcessingService] (abstraction map, rewriting, edge
      deduplication, node pruning, containment projection, self-edge filter),
    - [PostProcessingService] (merge and validation of sub-graphs),
    - [ViolationCyclicalDependenciesService] (projection of dependency cycles
      onto the rendered graph),
    - [GraphPreProcessingService] (nodes and longest paths), the filter on the
      number of relationships, [PropertiesService] (layers) and the legacy
      services (grouping of relationships, domains, cycles),
    followed by the properties that the design document states about them
    and by further properties of the services. *)

From Stdlib Require Import ZArith Lia.
From stdpp Require Import base list strings gmap.

Local Open Scope Z_scope.

(** ** JavaScript array and string primitives used by the services *)

Module JS.

(** The outcome of a call that may throw. *)
Inductive result (A : Type) : Type :=
| Ok (a : A)
| Throw (message : string).
Global Arguments Ok {A} a.
Global Arguments Throw {A} message.

#[global] Instance result_ret : MRet result := λ A a, Ok a.
#[global] Instance result_bind : MBind result := λ A B f r,
  match r with
  | Ok a => f a
  | Throw m => Throw m
  end.

(** [Array.prototype.filter] with a callback that reads the index. *)
Fixpoint filterFrom {A} (f : A → nat → bool) (index : nat) (l : list A) : list A :=
  match l with
  | [] => []
  | x :: rest =>
      if f x index then x :: filterFrom f (S index) rest
      else filterFrom f (S index) rest
  end.
Definition filteri {A} (f : A → nat → bool) (l : list A) : list A :=
  filterFrom f 0 l.

(** [Array.prototype.includes] on an array of strings. *)
Definition includes (l : list string) (x : string) : bool :=
  bool_decide (x ∈ l).

(** [Array.prototype.join]. *)
Fixpoint join (sep : string) (l : list string) : string :=
  match l with
  | [] => EmptyString
  | [x] => x
  | x :: rest => x +:+ sep +:+ join sep rest
  end.

(** [Array.prototype.splice(start, deleteCount)] for integral arguments:
    a negative [start] counts from the end of the array, both arguments are
    clamped to the array.  Returns the deleted elements and the array that
    remains. *)
Definition splice {A} (l : list A) (start deleteCount : Z) : list A * list A :=
  let len := Z.of_nat (length l) in
  let actualStart :=
    if start <? 0 then Z.max (len + start) 0 else Z.min start len in
  let actualDeleteCount := Z.min (Z.max deleteCount 0) (len - actualStart) in
  (take (Z.to_nat actualDeleteCount) (drop (Z.to_nat actualStart) l),
   take (Z.to_nat actualStart) l
     ++ drop (Z.to_nat actualStart + Z.to_nat actualDeleteCount) l).

(** [String.prototype.toLowerCase], on the ASCII letters: the strings that
    the services lower are the relationship types of the database, which are
    ASCII words; letters outside ASCII are left as they are. *)
Definition lowerAscii (c : Ascii.ascii) : Ascii.ascii :=
  let n := Ascii.nat_of_ascii c in
  if ((65 <=? n)%nat && (n <=? 90)%nat)%bool
  then Ascii.ascii_of_nat (n + 32) else c.

Fixpoint toLowerCase (s : string) : string :=
  match s with
  | EmptyString => EmptyString
  | String c rest => String (lowerAscii c) (toLowerCase rest)
  end.

End JS.

Import JS.

(** ** Data model *)

(** A relationship as returned by the database
    ([Neo4jComponentDependency] / [INeo4jComponentRelationship]). *)
Module Rel.
Record t := mk {
  elementId : string;
  startNodeElementId : string;
  endNodeElementId : string;
  type : string;
}.
#[global] Instance eq_dec : EqDecision t.
Proof. solve_decision. Defined.
End Rel.

(** The data of a rendered edge ([EdgeData]); an [Edge] is an object with the
    single field [data], [properties] has the single field [weight], a
    number that starts at 1 and is only ever added to. *)
Module Edge.
Record t := mk {
  id : string;
  source : string;
  target : string;
  interaction : string;
  weight : nat;
}.
#[global] Instance eq_dec : EqDecision t.
Proof. solve_decision. Defined.

Definition pair (e : t) : string * string := (source e, target e).
End Edge.

(** The data of a rendered node ([NodeData]); a [Node] is an object with the
    single field [data]. *)
Module Node.
Record t := mk {
  id : string;
  label : string;
  kind : string;
  layer : string;
  color : string;
  depth : Z;
  selected : string;
  parent : option string;
}.
#[global] Instance eq_dec : EqDecision t.
Proof. solve_decision. Defined.

Definition setParent (n : t) (p : string) : t :=
  mk (id n) (label n) (kind n) (layer n) (color n) (depth n) (selected n) (Some p).
End Node.

(** A node as stored in the graph ([Neo4jComponentNode]); a node produced by
    lifting keeps a reference to the node it was lifted from. *)
Module Neo4jComponentNode.
Inductive t := mk {
  elementId : string;
  labels : list string;
  simpleName : string;
  kind : string;
  color : string;
  depth : Z;
  originalNodeBeforeLifting : option t;
}.
End Neo4jComponentNode.

(** Modelled from the spec: [MapSet] (entities/MapSet) is a JavaScript [Map]
    from ids to elements, used for the "union, by id" of node and edge sets.
    A [Map] iterates in insertion order and holds each key once; setting a
    key that is present replaces the value and keeps the position.  The
    design document takes elements with the same id to be identical, so which
    of them the union keeps is a choice of this model and not of the
    document. *)
Module MapSet.
(** Modelled from the spec: the map from ids to elements, in insertion
    order. *)
Abbreviation t V := (list (string * V)).

Section defs.
Context {V : Type}.

(** Modelled from the spec: [Map.prototype.keys] and [values]. *)
Definition keys (m : t V) : list string := m.*1.
Definition values (m : t V) : list V := m.*2.

(** Modelled from the spec: [Map.prototype.get], [has] and [set]. *)
Fixpoint get (m : t V) (k : string) : option V :=
  match m with
  | [] => None
  | (k', v) :: rest => if decide (k' = k) then Some v else get rest k
  end.

Definition has (m : t V) (k : string) : bool := bool_decide (k ∈ keys m).

Fixpoint set (m : t V) (k : string) (v : V) : t V :=
  match m with
  | [] => [(k, v)]
  | (k', v') :: rest =>
      if decide (k' = k) then (k, v) :: rest else (k', v') :: set rest k v
  end.

(** Modelled from the spec: the constructor [new MapSet(...elements)], the
    union by id of the elements. *)
Definition ofList (key : V → string) (l : list V) : t V :=
  foldl (λ m v, set m (key v) v) [] l.

(** Modelled from the spec: [MapSet.map], the array of the images of the
    values. *)
Definition map {B} (f : V → B) (m : t V) : list B := f <$> values m.
End defs.
End MapSet.

(** ** PostProcessingService: merge and validation *)

Module PostProcessingService.

Record IntermediateGraph := mkGraph {
  name : string;
  nodes : MapSet.t Neo4jComponentNode.t;
  edges : MapSet.t Edge.t;
}.

Definition mergeGraphs (graphs : list IntermediateGraph) : IntermediateGraph :=
  let ns := mjoin (MapSet.values ∘ nodes <$> graphs) in
  let es := mjoin (MapSet.values ∘ edges <$> graphs) in
  {| name := "Merged graph of '" +:+ join ", " (name <$> graphs) +:+ "'";
     nodes := MapSet.ofList Neo4jComponentNode.elementId ns;
     edges := MapSet.ofList Edge.id es |}.

(** The first [map] of [validateGraph]: an endpoint that is a known node is
    blanked out. *)
Definition blankKnown (nodeIds : list string) (e : Edge.t) : Edge.t :=
  Edge.mk (Edge.id e)
    (if includes nodeIds (Edge.source e) then EmptyString else Edge.source e)
    (if includes nodeIds (Edge.target e) then EmptyString else Edge.target e)
    (Edge.interaction e) (Edge.weight e).

(** The message of one invalid (blanked) edge. *)
Definition edgeMessage (e : Edge.t) : string :=
  if decide (Edge.source e = EmptyString) then
    "Edge '" +:+ Edge.id e +:+ "': unknown target '" +:+ Edge.target e +:+ "'"
  else if decide (Edge.target e = EmptyString) then
    "Edge '" +:+ Edge.id e +:+ "': unknown source '" +:+ Edge.source e +:+ "'"
  else
    "Edge '" +:+ Edge.id e +:+ "': unknown source '" +:+ Edge.source e
      +:+ "' and target '" +:+ Edge.target e +:+ "'".

Definition validateGraph (graph : IntermediateGraph) : result unit :=
  let nodeIds := MapSet.keys (nodes graph) in
  let invalidEdges :=
    filter (λ e, Edge.source e ≠ EmptyString ∨ Edge.target e ≠ EmptyString)
      (MapSet.map (blankKnown nodeIds) (edges graph)) in
  if decide (length invalidEdges = 0%nat) then Ok tt
  else
    let message := edgeMessage <$> invalidEdges in
    Throw ("Graph '" +:+ name graph
             +:+ "' is invalid due to the following edges: "
             +:+ join "; " message).

(** The constructor: a single graph is taken as it is, several graphs are
    merged; the result is validated and is the [graph] of the service. *)
Definition new (graphs : list IntermediateGraph) : result IntermediateGraph :=
  let g := match graphs with
           | [g] => g
           | _ => mergeGraphs graphs
           end in
  match validateGraph g with
  | Ok _ => Ok g
  | Throw m => Throw m
  end.

End PostProcessingService.

(** ** GraphProcessingService: the abstraction engine *)

(** Modelled from the spec: the class [Neo4jComponentPathWithChunks] of a
    pre-processed record is not part of the sources.  A record decomposes into
    the leading containment chunk, the dependency chunk and the trailing
    containment chunk, [allEdges] lists the three in path order (the legacy
    service reads [record.chunks.flat()]), and [sourceDepth], [targetDepth]
    are the recorded chunk lengths: they are kept as fields here, so that
    nothing is assumed about how they were computed. *)
Module Path.
(** Modelled from the spec: the fields that [GraphProcessingService] reads of
    a pre-processed record. *)
Record t := mk {
  containSourceEdges : list Rel.t;
  dependencyEdges : list Rel.t;
  containTargetEdges : list Rel.t;
  sourceDepth : Z;
  targetDepth : Z;
}.
#[global] Instance eq_dec : EqDecision t.
Proof. solve_decision. Defined.

(** Modelled from the spec: the getter [allEdges], the three chunks in path
    order. *)
Definition allEdges (r : t) : list Rel.t :=
  containSourceEdges r ++ dependencyEdges r ++ containTargetEdges r.

(** The recorded depths agree with the chunks. *)
Definition wellFormed (r : t) : Prop :=
  sourceDepth r = Z.of_nat (length (containSourceEdges r))
  ∧ targetDepth r = Z.of_nat (length (containTargetEdges r)).
#[global] Instance wellFormed_dec r : Decision (wellFormed r).
Proof. unfold wellFormed. apply _. Defined.
End Path.

Module GraphProcessingService.

(** [Graph]: a labelled property graph in cytoscape.js format. *)
Record Graph := mkGraph {
  name : string;
  nodes : list Node.t;
  edges : list Edge.t;
}.

(** What the service reads of [GraphPreProcessingService]. *)
Record GraphPreProcessingService := mkPre {
  original_nodes : list Node.t;
  original_records : list Path.t;
}.

Record BasicGraphFilterOptions := mkOptions {
  maxDepth : option Z;
  selfEdges : option bool;
}.

(** [GraphElementParserService.toEdgeData]; the legacy service has it as
    [formatNeo4jRelationshipToEdgeData]. *)
Definition toEdgeData (edge : Rel.t) : Edge.t :=
  {| Edge.id := Rel.elementId edge;
     Edge.source := Rel.startNodeElementId edge;
     Edge.target := Rel.endNodeElementId edge;
     Edge.interaction := toLowerCase (Rel.type edge);
     Edge.weight := 1 |}.

(** The local function [addToReplaceMap] of [getAbstractionMap]. *)
Definition addToReplaceMap (replaceMap : gmap string string)
    (deletedEdges : list Rel.t) : gmap string string :=
  match deletedEdges with
  | [] => replaceMap
  | first :: _ =>
      let firstStartNode := Rel.startNodeElementId first in
      foldl (λ m edge, <[Rel.endNodeElementId edge := firstStartNode]> m)
        replaceMap deletedEdges
  end.

(** The body of the [forEach] of [getAbstractionMap]: the two deleted runs
    and the record with both containment chunks spliced in place. *)
Definition spliceRecord (maxDepth : Z) (record : Path.t)
    : list Rel.t * list Rel.t * Path.t :=
  let containsSourceDepth := Path.sourceDepth record in
  let containsTargetDepth := Path.targetDepth record in
  let containsTooDeep := Z.max 0 (containsSourceDepth - maxDepth) in
  let '(deletedSource, sourceEdges) :=
    splice (Path.containSourceEdges record) maxDepth containsTooDeep in
  let '(deletedTarget, targetEdges) :=
    splice (Path.containTargetEdges record)
      (containsTargetDepth - containsTooDeep) containsTooDeep in
  (deletedSource, deletedTarget,
   {| Path.containSourceEdges := sourceEdges;
      Path.dependencyEdges := Path.dependencyEdges record;
      Path.containTargetEdges := targetEdges;
      Path.sourceDepth := Path.sourceDepth record;
      Path.targetDepth := Path.targetDepth record |}).

(** [getAbstractionMap] returns the map; the records of the pre-processor
    are spliced in place, so the records as they are afterwards are returned
    with it. *)
Definition getAbstractionMap (maxDepth : Z) (records : list Path.t)
    : gmap string string * list Path.t :=
  foldl (λ '(replaceMap, done) record,
           let '(deletedSource, deletedTarget, record') :=
             spliceRecord maxDepth record in
           (addToReplaceMap (addToReplaceMap replaceMap deletedSource)
              deletedTarget,
            done ++ [record']))
    (∅, []) records.

(** [getAllEdges]: [seenEdges] is threaded through the nested [map]s in
    path order; an edge whose id was seen before becomes [undefined] and is
    filtered out. *)
Fixpoint getAllEdges_map (seenEdges : list string) (rs : list Rel.t)
    : list (option Edge.t) :=
  match rs with
  | [] => []
  | r :: rest =>
      let edgeId := Rel.elementId r in
      if includes seenEdges edgeId then None :: getAllEdges_map seenEdges rest
      else Some (toEdgeData r) :: getAllEdges_map (seenEdges ++ [edgeId]) rest
  end.

Definition getAllEdges (records : list Path.t) : list Edge.t :=
  omap id (getAllEdges_map [] (mjoin (Path.allEdges <$> records))).

Definition addWeight (e : Edge.t) (w : nat) : Edge.t :=
  Edge.mk (Edge.id e) (Edge.source e) (Edge.target e) (Edge.interaction e)
    (Edge.weight e + w).

(** [mergeDuplicateEdges]; every edge of the input is an object of its own
    (as [getAllEdges] creates them), so the update in place of
    [newEdges[index]] is the update of that position. *)
Definition mergeDuplicateEdges (edges : list Edge.t) : list Edge.t :=
  foldl (λ newEdges edge,
           match list_find (λ e, Edge.source e = Edge.source edge
                                 ∧ Edge.target e = Edge.target edge) newEdges with
           | None => newEdges ++ [edge]
           | Some (index, e) => <[index := addWeight e (Edge.weight edge)]> newEdges
           end)
    [] edges.

(** The rewriting of one dependency edge in [applyAbstraction]
    ([setNodeReferences] changes no id). *)
Definition abstractEdge (abstractionMap : gmap string string) (e : Rel.t) : Rel.t :=
  {| Rel.elementId := Rel.elementId e;
     Rel.startNodeElementId :=
       default (Rel.startNodeElementId e) (abstractionMap !! Rel.startNodeElementId e);
     Rel.endNodeElementId :=
       default (Rel.endNodeElementId e) (abstractionMap !! Rel.endNodeElementId e);
     Rel.type := Rel.type e |}.

Definition applyAbstraction (records : list Path.t)
    (abstractionMap : gmap string string) : list Path.t :=
  (λ record,
     {| Path.containSourceEdges := Path.containSourceEdges record;
        Path.dependencyEdges := abstractEdge abstractionMap <$> Path.dependencyEdges record;
        Path.containTargetEdges := Path.containTargetEdges record;
        Path.sourceDepth := Path.sourceDepth record;
        Path.targetDepth := Path.targetDepth record |}) <$> records.

(** [all.filter((n1, i, all) => i === all.findIndex((n2) => n1 === n2))] *)
Definition firstOccurrences (all : list string) : list string :=
  omap (λ '(i, n1),
          if decide (fst <$> list_find (λ n2, n1 = n2) all = Some i)
          then Some n1 else None)
    (imap (λ i n1, (i, n1)) all).

Definition filterNodesByEdges (nodes : list Node.t) (edges : list Edge.t)
    : list Node.t :=
  let nodesOnPaths :=
    firstOccurrences (mjoin ((λ e, [Edge.source e; Edge.target e]) <$> edges)) in
  filter (λ n, includes nodesOnPaths (Node.id n) = true) nodes.

Definition filterSelfEdges (edges : list Edge.t) : list Edge.t :=
  filter (λ e, Edge.source e ≠ Edge.target e) edges.

Definition addParentRelationship (nodes : list Node.t) (parentEdges : list Edge.t)
    : list Node.t :=
  foldl (λ nodesCopy e,
           match list_find (λ n, Node.id n = Edge.target e) nodesCopy with
           | None => nodesCopy
           | Some (i, target) => <[i := Node.setParent target (Edge.source e)]> nodesCopy
           end)
    nodes parentEdges.

Definition replaceEdgeWithParentRelationship (nodes : list Node.t)
    (edges : list Edge.t) (relationship : string) : list Node.t * list Edge.t :=
  let containEdges := filter (λ e, Edge.interaction e = relationship) edges in
  let dependencyEdges := filter (λ e, Edge.interaction e ≠ relationship) edges in
  let newNodes := addParentRelationship nodes containEdges in
  (newNodes, dependencyEdges).

(** The records of [formatToLPG] after the block guarded by
    [maxDepth !== undefined]. *)
Definition abstractedRecords (original : GraphPreProcessingService)
    (maxDepth : option Z) : list Path.t :=
  match maxDepth with
  | Some maxDepth =>
      let '(replaceMap, records) :=
        getAbstractionMap maxDepth (original_records original) in
      applyAbstraction records replaceMap
  | None => original_records original
  end.

(** The deduplicated edge list of [formatToLPG], before the containment
    edges are taken out. *)
Definition mergedEdges (original : GraphPreProcessingService)
    (maxDepth : option Z) : list Edge.t :=
  mergeDuplicateEdges (getAllEdges (abstractedRecords original maxDepth)).

Definition formatToLPG (original : GraphPreProcessingService) (name : string)
    (options : BasicGraphFilterOptions) : Graph :=
  let edges := mergedEdges original (maxDepth options) in
  let nodes := filterNodesByEdges (original_nodes original) edges in
  let '(newNodes, dependencyEdges) :=
    replaceEdgeWithParentRelationship nodes edges "contains" in
  let dependencyEdges :=
    match selfEdges options with
    | Some false => filterSelfEdges dependencyEdges
    | _ => dependencyEdges
    end in
  {| name := name; nodes := newNodes; edges := dependencyEdges |}.

End GraphProcessingService.

(** ** The legacy GraphProcessingService: abstraction map with direction flag *)

Module LegacyGraphProcessingService.

(** What [getAbstractionMap] reads of a record: its chunks. *)
Record Neo4jComponentPathWithChunks := mkPath {
  chunks : list (list Rel.t);
}.

(** [chunk[0]?.type.toLowerCase() === 'contains' ? chunk.length : 0] *)
Definition containsDepth (chunk : list Rel.t) : Z :=
  match chunk with
  | e :: _ =>
      if decide (toLowerCase (Rel.type e) = "contains")
      then Z.of_nat (length chunk) else 0
  | [] => 0
  end.

(** [!reverseDirection] for an optional boolean. *)
Definition falsy (b : option bool) : bool :=
  match b with Some true => false | _ => true end.

(** The body of the [forEach]: [chunks[0]] is spliced first, then
    [chunks[chunks.length - 1]], which is the same array when there is a
    single chunk.  Reading [chunks[0][0]] of an empty [chunks] is a
    [TypeError]: [None]. *)
Definition spliceRecord (maxDepth : Z) (reverseDirection : option bool)
    (record : Neo4jComponentPathWithChunks)
    : option (list Rel.t * list Rel.t * Neo4jComponentPathWithChunks) :=
  let chunks0 := chunks record in
  let last := (length chunks0 - 1)%nat in
  first ← chunks0 !! 0%nat;
  lastChunk ← chunks0 !! last;
  let containsSourceDepth := containsDepth first in
  let containsTargetDepth := containsDepth lastChunk in
  if falsy reverseDirection then
    let containsTooDeep := Z.max 0 (containsSourceDepth - maxDepth) in
    let '(deletedSource, first') := splice first maxDepth containsTooDeep in
    let chunks1 := <[0%nat := first']> chunks0 in
    lastChunk1 ← chunks1 !! last;
    let '(deletedTarget, last') :=
      splice lastChunk1 (containsTargetDepth - containsTooDeep) containsTooDeep in
    Some (deletedSource, deletedTarget, mkPath (<[last := last']> chunks1))
  else
    let containsTooDeep := Z.max 0 (containsTargetDepth - maxDepth) in
    let '(deletedSource, first') :=
      splice first (containsSourceDepth - containsTooDeep) containsTooDeep in
    let chunks1 := <[0%nat := first']> chunks0 in
    lastChunk1 ← chunks1 !! last;
    let '(deletedTarget, last') := splice lastChunk1 maxDepth containsTooDeep in
    Some (deletedSource, deletedTarget, mkPath (<[last := last']> chunks1)).

Definition getAbstractionMap (records : list Neo4jComponentPathWithChunks)
    (maxDepth : Z) (reverseDirection : option bool)
    : option (gmap string string * list Neo4jComponentPathWithChunks) :=
  foldl (λ acc record,
           '(replaceMap, done) ← acc;
           '(deletedSource, deletedTarget, record') ←
             spliceRecord maxDepth reverseDirection record;
           Some (GraphProcessingService.addToReplaceMap
                   (GraphProcessingService.addToReplaceMap replaceMap deletedSource)
                   deletedTarget,
                 done ++ [record']))
    (Some (∅, [])) records.

End LegacyGraphProcessingService.

(** ** ViolationCyclicalDependenciesService: projection of dependency cycles *)

Module ViolationCyclicalDependenciesService.

(** [ElementParserService.toNodeData]; the legacy service has it as
    [formatNeo4jNodeToNodeData], here without a selected id. *)
Definition toNodeData (node : Neo4jComponentNode.t) : Node.t :=
  {| Node.id := Neo4jComponentNode.elementId node;
     Node.label := Neo4jComponentNode.simpleName node;
     Node.kind := Neo4jComponentNode.kind node;
     Node.layer := hd EmptyString (Neo4jComponentNode.labels node);
     Node.color := Neo4jComponentNode.color node;
     Node.depth := Neo4jComponentNode.depth node;
     Node.selected := "false";
     Node.parent := None |}.

(** A dependency of the rendered graph ([Neo4jDependencyRelationship]). *)
Record Neo4jDependencyRelationship := mkDependency {
  elementId : string;
  startNode : Neo4jComponentNode.t;
  endNode : Neo4jComponentNode.t;
  dependencyCycle : bool;
}.

(** One step of a cycle ([ExtendedSimpleEdgeData]). *)
Record ExtendedSimpleEdgeData := mkStep {
  id : string;
  source : string;
  target : string;
  sourceNode : Node.t;
  targetNode : Node.t;
}.

Record DependencyCycle := mkCycle {
  node : Node.t;
  path : list ExtendedSimpleEdgeData;
  length : nat;
}.

Record DependencyCycleRender := mkRender {
  r_node : Node.t;
  r_path : list ExtendedSimpleEdgeData;
  r_length : nat;
  r_actualCycles : list DependencyCycle;
  r_id : string;
}.

Definition cycleIndex (node : Node.t) (path : list ExtendedSimpleEdgeData) : string :=
  Node.id node +:+ "--" +:+ join "-" (id <$> path).

(** Modelled from the spec: [MapSet.getOriginal] is not part of the sources;
    the projector "looks up an edge with the same id in the final rendered
    graph". *)
Definition getOriginal (dependencies : MapSet.t Neo4jDependencyRelationship)
    (edgeId : string) : option Neo4jDependencyRelationship :=
  MapSet.get dependencies edgeId.

(** [existingEdge.violations.dependencyCycle = true], on the edge that the
    map holds under [edgeId]. *)
Definition markDependencyCycle (dependencies : MapSet.t Neo4jDependencyRelationship)
    (edgeId : string) (existingEdge : Neo4jDependencyRelationship)
    : MapSet.t Neo4jDependencyRelationship :=
  MapSet.set dependencies edgeId
    (mkDependency (elementId existingEdge) (startNode existingEdge)
       (endNode existingEdge) true).

(** [original?.originalNodeBeforeLifting ?? original] *)
Definition beforeLifting (original : option Neo4jComponentNode.t)
    : option Neo4jComponentNode.t :=
  match original with
  | Some n => Some (default n (Neo4jComponentNode.originalNodeBeforeLifting n))
  | None => None
  end.

(** The callback of [dep.path.map]. *)
Definition rewriteEdge (dependencies : MapSet.t Neo4jDependencyRelationship)
    (nodes : MapSet.t Neo4jComponentNode.t) (d : ExtendedSimpleEdgeData)
    : ExtendedSimpleEdgeData * MapSet.t Neo4jDependencyRelationship :=
  match getOriginal dependencies (id d) with
  | Some existingEdge =>
      let dependencies' := markDependencyCycle dependencies (id d) existingEdge in
      let sourceNode := toNodeData (startNode existingEdge) in
      let targetNode := toNodeData (startNode existingEdge) in
      ({| id := elementId existingEdge;
          source := Neo4jComponentNode.elementId (startNode existingEdge);
          sourceNode := sourceNode;
          target := Neo4jComponentNode.elementId (endNode existingEdge);
          targetNode := targetNode |}, dependencies')
  | None =>
      let newD := d in
      let newD :=
        match beforeLifting (MapSet.get nodes (source d)) with
        | Some sourceNode =>
            mkStep (id newD) (Neo4jComponentNode.elementId sourceNode) (target newD)
              (toNodeData sourceNode) (targetNode newD)
        | None => newD
        end in
      let newD :=
        match beforeLifting (MapSet.get nodes (target d)) with
        | Some targetNode =>
            mkStep (id newD) (source newD) (Neo4jComponentNode.elementId targetNode)
              (sourceNode newD) (toNodeData targetNode)
        | None => newD
        end in
      (newD, dependencies)
  end.

Fixpoint rewritePath (dependencies : MapSet.t Neo4jDependencyRelationship)
    (nodes : MapSet.t Neo4jComponentNode.t) (path : list ExtendedSimpleEdgeData)
    : list ExtendedSimpleEdgeData * MapSet.t Neo4jDependencyRelationship :=
  match path with
  | [] => ([], dependencies)
  | d :: rest =>
      let '(d', dependencies') := rewriteEdge dependencies nodes d in
      let '(rest', dependencies'') := rewritePath dependencies' nodes rest in
      (d' :: rest', dependencies'')
  end.

Definition isSelfEdge (e : ExtendedSimpleEdgeData) : bool :=
  bool_decide (source e = target e).

(** The [filter] applied to [newPath]. *)
Definition collapseSelfEdges (newPath : list ExtendedSimpleEdgeData)
    : list ExtendedSimpleEdgeData :=
  filteri (λ e index,
             if (bool_decide (index = 0%nat) && forallb isSelfEdge newPath)%bool
             then true else negb (isSelfEdge e))
    newPath.

(** The callback of [dependencyCycles.map]; [newPath[0].sourceNode] of an
    empty path is a [TypeError]. *)
Definition abstractCycle (dependencies : MapSet.t Neo4jDependencyRelationship)
    (nodes : MapSet.t Neo4jComponentNode.t) (dep : DependencyCycle)
    : result (DependencyCycleRender * MapSet.t Neo4jDependencyRelationship) :=
  let '(newPath, dependencies') := rewritePath dependencies nodes (path dep) in
  match newPath with
  | [] => Throw "TypeError: Cannot read properties of undefined (reading 'sourceNode')"
  | first :: _ =>
      Ok ({| r_node := sourceNode first;
             r_path := collapseSelfEdges newPath;
             r_length := length dep;
             r_actualCycles := [dep];
             r_id := cycleIndex (node dep) (path dep) |}, dependencies')
  end.

Fixpoint abstractCycles (dependencies : MapSet.t Neo4jDependencyRelationship)
    (nodes : MapSet.t Neo4jComponentNode.t) (dependencyCycles : list DependencyCycle)
    : result (list DependencyCycleRender * MapSet.t Neo4jDependencyRelationship) :=
  match dependencyCycles with
  | [] => Ok ([], dependencies)
  | dep :: rest =>
      '(newDep, dependencies') ← abstractCycle dependencies nodes dep;
      '(newDeps, dependencies'') ← abstractCycles dependencies' nodes rest;
      Ok (newDep :: newDeps, dependencies'')
  end.

(** [d.path.some((p) => dependencies.has(p.id))] *)
Definition isRealized (dependencies : MapSet.t Neo4jDependencyRelationship)
    (d : DependencyCycleRender) : bool :=
  existsb (λ p, MapSet.has dependencies (id p)) (r_path d).

Definition renewId (d : DependencyCycleRender) : DependencyCycleRender :=
  mkRender (r_node d) (r_path d) (r_length d) (r_actualCycles d)
    (cycleIndex (r_node d) (r_path d)).

(** The final [reduce]: cycles with the same id are merged. *)
Definition mergeCycles (ds : list DependencyCycleRender) : list DependencyCycleRender :=
  foldl (λ violations d,
           match list_find (λ d1, r_id d1 = r_id d) violations with
           | Some (index, d1) =>
               <[index := mkRender (r_node d1) (r_path d1) (r_length d1)
                            (r_actualCycles d1 ++ r_actualCycles d) (r_id d1)]>
                 violations
           | None => violations ++ [d]
           end)
    [] ds.

(** Returns the rendered cycles and the dependencies with their marks. *)
Definition extractAndAbstractDependencyCycles
    (dependencyCycles : list DependencyCycle)
    (dependencies : MapSet.t Neo4jDependencyRelationship)
    (nodes : MapSet.t Neo4jComponentNode.t)
    : result (list DependencyCycleRender * MapSet.t Neo4jDependencyRelationship) :=
  '(newDeps, dependencies') ← abstractCycles dependencies nodes dependencyCycles;
  Ok (mergeCycles
        (renewId <$> filter (λ d, isRealized dependencies' d = true) newDeps),
      dependencies').

End ViolationCyclicalDependenciesService.

(** ** GraphPreProcessingService: the nodes and the longest paths *)

Module GraphPreProcessingService.

(** A record of the query result ([Neo4jComponentPath]): [r.get('source')],
    [r.get('path')] and [r.get('target')]. *)
Record Neo4jComponentPath := mkRecord {
  source : Neo4jComponentNode.t;
  path : list Rel.t;
  target : Neo4jComponentNode.t;
}.

(** [formatNeo4jNodeToNodeData], as the legacy service has it; the later
    services call it through [GraphElementParserService]. *)
Definition formatNeo4jNodeToNodeData (node : Neo4jComponentNode.t)
    (selectedId : option string) : Node.t :=
  {| Node.id := Neo4jComponentNode.elementId node;
     Node.label := Neo4jComponentNode.simpleName node;
     Node.kind := Neo4jComponentNode.kind node;
     Node.layer := hd EmptyString (Neo4jComponentNode.labels node);
     Node.color := Neo4jComponentNode.color node;
     Node.depth := Neo4jComponentNode.depth node;
     Node.selected :=
       if decide (Some (Neo4jComponentNode.elementId node) = selectedId)
       then "true" else "false";
     Node.parent := None |}.

(** [getAllNodes]: [seenNodes] is threaded through the nested [map]s, over
    the source and then the target of each record; a node whose id was seen
    before becomes [undefined] and is filtered out. *)
Fixpoint getAllNodes_map (selectedId : option string) (seenNodes : list string)
    (fields : list Neo4jComponentNode.t) : list (option Node.t) :=
  match fields with
  | [] => []
  | field :: rest =>
      let nodeId := Neo4jComponentNode.elementId field in
      if includes seenNodes nodeId
      then None :: getAllNodes_map selectedId seenNodes rest
      else Some (formatNeo4jNodeToNodeData field selectedId)
             :: getAllNodes_map selectedId (seenNodes ++ [nodeId]) rest
  end.

Definition getAllNodes (records : list Neo4jComponentPath)
    (selectedId : option string) : list Node.t :=
  omap id (getAllNodes_map selectedId []
             (mjoin ((λ r, [source r; target r]) <$> records))).

(** [record.dependencyEdges.flat().map((e) => e.elementId).join(',')]; the
    dependency edges of a record are relationships, which [flat] leaves as
    they are. *)
Definition pathId (record : Path.t) : string :=
  join "," (Rel.elementId <$> Path.dependencyEdges record).

(** [seenPaths] after the [map] of [onlyKeepLongestPaths]. *)
Definition seenPaths (records : list Path.t) : gmap string Z :=
  foldl (λ seenPaths record,
           let currDepth := default 0 (seenPaths !! pathId record) in
           <[pathId record := Z.max currDepth (Path.targetDepth record)]> seenPaths)
    ∅ records.

Definition onlyKeepLongestPaths (records : list Path.t) : list Path.t :=
  let seenPaths := seenPaths records in
  filter (λ record,
            let depth := default 0 (seenPaths !! pathId record) in
            Path.targetDepth record = depth)
    records.

End GraphPreProcessingService.

(** ** The legacy GraphProcessingService: grouping of the relationships *)

Module LegacyPathChunks.

(** The error of reading a property of [undefined]. *)
Definition undefinedError (property : string) : string :=
  "TypeError: Cannot read properties of undefined (reading '" +:+ property +:+ "')".

(** The body of the [for] loop of [groupRelationships]:
    [chunks[chunks.length - 1][0].type] is read of the last chunk. *)
Definition pushRelationship (chunks : list (list Rel.t)) (relationship : Rel.t)
    : result (list (list Rel.t)) :=
  match last chunks with
  | None => Throw (undefinedError "0")
  | Some [] => Throw (undefinedError "type")
  | Some ((first :: _) as lastChunk) =>
      if decide (Rel.type relationship = Rel.type first)
      then Ok (<[(length chunks - 1)%nat := lastChunk ++ [relationship]]> chunks)
      else Ok (chunks ++ [[relationship]])
  end.

(** The branch [chunks.length === 1]: the single chunk is split after the
    first occurrence of its last edge, and an empty chunk is added when that
    is the last edge itself. *)
Definition splitContainChunk (chunk : list Rel.t) (reverseDirection : option bool)
    : list (list Rel.t) :=
  let lastIndex := Z.of_nat (length chunk) - 1 in
  let index :=
    match last chunk with
    | Some lastContainEdge =>
        match list_find (λ e, Rel.elementId e = Rel.elementId lastContainEdge) chunk with
        | Some (i, _) => Z.of_nat i
        | None => -1
        end
    | None => -1
    end in
  if decide (index = lastIndex) then
    if LegacyGraphProcessingService.falsy reverseDirection
    then [chunk; []] else [[]; chunk]
  else if LegacyGraphProcessingService.falsy reverseDirection then
    let '(dependencyParents, chunk') := splice chunk (index + 1) (lastIndex - index) in
    [chunk'; dependencyParents]
  else
    let '(dependencyParents, chunk') := splice chunk 0 index in
    [dependencyParents; chunk'].

(** The branch of several chunks: an empty chunk is put in front when the
    first chunk does not start with a containment, and at the end when the
    last chunk does not. *)
Definition padChunks (chunks : list (list Rel.t)) : result (list (list Rel.t)) :=
  match chunks with
  | [] => Throw (undefinedError "0")
  | [] :: _ => Throw (undefinedError "type")
  | (first :: _) :: _ =>
      let chunks :=
        if decide (toLowerCase (Rel.type first) ≠ "contains")
        then [] :: chunks else chunks in
      match last chunks with
      | None => Throw (undefinedError "0")
      | Some lastChunk =>
          let lastType := (λ e, toLowerCase (Rel.type e)) <$> head lastChunk in
          if (bool_decide (lastType ≠ Some "contains")
              || bool_decide (length chunks = 1%nat))%bool
          then Ok (chunks ++ [[]]) else Ok chunks
      end
  end.

(** The [for] loop over the relationships after the first. *)
Definition groupLoop (chunks : list (list Rel.t)) (relationships : list Rel.t)
    : result (list (list Rel.t)) :=
  foldl (λ acc relationship, chunks ← acc; pushRelationship chunks relationship)
    (Ok chunks) relationships.

Definition groupRelationships (relationships : list Rel.t)
    (reverseDirection : option bool) : result (list (list Rel.t)) :=
  match relationships with
  | [] => Ok [[]]
  | first :: rest =>
      chunks ← groupLoop [[first]] rest;
      match chunks with
      | [chunk] => Ok (splitContainChunk chunk reverseDirection)
      | _ => padChunks chunks
      end
  end.

(** The [reduce] of the legacy [formatToLPG] that merges the edges with the
    same source and target: the weight of the edge that is there grows by
    one. *)
Definition reduceEdges (edges : list Edge.t) : list Edge.t :=
  foldl (λ newEdges edge,
           match list_find (λ e, Edge.source e = Edge.source edge
                                 ∧ Edge.target e = Edge.target edge) newEdges with
           | None => newEdges ++ [edge]
           | Some (index, e) =>
               <[index := GraphProcessingService.addWeight e 1]> newEdges
           end)
    [] edges.

End LegacyPathChunks.

(** ** GraphProcessingService: the filter on the number of relationships *)

Module RelationshipsFilter.

(** What [applyMinMaxRelationshipsFilter] reads of a record besides its
    chunks: whether [record.type] is [Neo4jDependencyType.DEPENDENCY] (the
    enumeration is not part of the sources) and the id of the selected
    module. *)
Record Neo4jComponentPath := mkPath {
  chunks : Path.t;
  isDependency : bool;
  selectedModuleElementId : string;
}.

(** The truth value of an optional number: [undefined] and 0 are false. *)
Definition truthy (n : option Z) : bool :=
  match n with
  | Some n => negb (n =? 0)
  | None => false
  end.

(** The body of the [forEach] behind the guard on the bounds.  Without a
    dependency edge [node] and [relatedNode] are [undefined]; a related
    node that is the empty string is skipped as well. *)
Definition countRelationship (outgoing : bool)
    (relationsMap : gmap string (list string)) (record : Neo4jComponentPath)
    : gmap string (list string) :=
  match head (Path.dependencyEdges (chunks record)) with
  | None => relationsMap
  | Some edge =>
      let '(node, relatedNode) :=
        if (outgoing && isDependency record
            || negb outgoing && negb (isDependency record))%bool
        then (Rel.startNodeElementId edge, Rel.endNodeElementId edge)
        else (Rel.endNodeElementId edge, Rel.startNodeElementId edge) in
      if decide (relatedNode = EmptyString) then relationsMap
      else
        match relationsMap !! node with
        | Some currentRelations =>
            if includes currentRelations relatedNode then relationsMap
            else <[node := currentRelations ++ [relatedNode]]> relationsMap
        | None => <[node := [relatedNode]]> relationsMap
        end
  end.

(** The three [return]s of the callback of the final [filter]. *)
Definition withinRange (minRelationships maxRelationships : option Z)
    (uniqueRelationships : list string) : bool :=
  if (truthy minRelationships
      && (Z.of_nat (length uniqueRelationships) <? default 0 minRelationships))%bool
  then false
  else if (truthy maxRelationships
           && (default 0 maxRelationships <? Z.of_nat (length uniqueRelationships)))%bool
  then false
  else true.

Definition applyMinMaxRelationshipsFilter (records : list Neo4jComponentPath)
    (outgoing : bool) (minRelationships maxRelationships : option Z)
    : list Neo4jComponentPath :=
  let noBounds := (negb (truthy minRelationships) && negb (truthy maxRelationships))%bool in
  let relationsMap :=
    foldl (λ relationsMap record,
             if noBounds then relationsMap
             else countRelationship outgoing relationsMap record)
      ∅ records in
  filter (λ record,
            (if noBounds then true
             else
               let node := selectedModuleElementId record in
               let uniqueRelationships := default [] (relationsMap !! node) in
               withinRange minRelationships maxRelationships uniqueRelationships)
            = true)
    records.

End RelationshipsFilter.

(** ** PropertiesService: the layers of the graph *)

Module PropertiesService.

Record GraphLayer := mkLayer {
  label : string;
  classes : list string;
  parentLabel : option string;
}.

(** A record of the query of [getLayers] as [formatLayers] reads it: the
    label and the classes that [ElementParserService.extractLayer], which is
    not part of the sources, returns for the labels of the containing and of
    the contained node. *)
Record Neo4jLayerRecord := mkRecord {
  from : string * list string;
  to : string * list string;
}.

(** The local function [findOrCreateLayer]: the position of the layer in
    [layers] stands for the reference to it. *)
Definition findOrCreateLayer (layers : list GraphLayer) (l : string)
    : nat * list GraphLayer :=
  match list_find (λ layer, label layer = l) layers with
  | Some (i, _) => (i, layers)
  | None => (length layers, layers ++ [mkLayer l [] None])
  end.

(** [if (toLayer.parentLabel !== fromLabel) toLayer.parentLabel = fromLabel] *)
Definition setParentLabel (fromLabel : string) (toLayer : GraphLayer) : GraphLayer :=
  if decide (parentLabel toLayer ≠ Some fromLabel)
  then mkLayer (label toLayer) (classes toLayer) (Some fromLabel)
  else toLayer.

(** [if (!layer.classes.includes(c)) layer.classes.push(c)] *)
Definition addClass (c : string) (layer : GraphLayer) : GraphLayer :=
  if includes (classes layer) c then layer
  else mkLayer (label layer) (classes layer ++ [c]) (parentLabel layer).

(** The body of [records.forEach]; [fromLayer] and [toLayer] are the same
    object when the labels are the same. *)
Definition addRecord (layers : list GraphLayer) (r : Neo4jLayerRecord)
    : list GraphLayer :=
  let '(fromLabel, fromClasses) := from r in
  let '(toLabel, toClasses) := to r in
  let '(fromLayer, layers) := findOrCreateLayer layers fromLabel in
  let '(toLayer, layers) := findOrCreateLayer layers toLabel in
  let layers := alter (setParentLabel fromLabel) toLayer layers in
  let layers := foldl (λ layers c, alter (addClass c) fromLayer layers) layers fromClasses in
  foldl (λ layers c, alter (addClass c) toLayer layers) layers toClasses.

(** [layers] after [records.forEach]. *)
Definition collectLayers (records : list Neo4jLayerRecord) : list GraphLayer :=
  foldl addRecord [] records.

(** The [while] loop: the layers pushed to [sortedLayers], or [None] when
    the loop has not ended after [fuel] iterations. *)
Fixpoint sortLayers (fuel : nat) (layers : list GraphLayer) (parentLayer : GraphLayer)
    : option (list GraphLayer) :=
  match fuel with
  | O => None
  | S fuel =>
      match list_find (λ l, parentLabel l = Some (label parentLayer)) layers with
      | None => Some []
      | Some (_, childLayer) =>
          (λ rest, childLayer :: rest) <$> sortLayers fuel layers childLayer
      end
  end.

Definition formatLayers (fuel : nat) (records : list Neo4jLayerRecord)
    : option (result (list GraphLayer)) :=
  let layers := collectLayers records in
  match list_find (λ l, parentLabel l = None) layers with
  | None => Some (Throw "No top layer (without any parent labels) found.")
  | Some (_, parentLayer) =>
      (λ rest, Ok (parentLayer :: rest)) <$> sortLayers fuel layers parentLayer
  end.

End PropertiesService.

(** ** GraphPropertiesService: the dependencies of the domains *)

Module GraphPropertiesService.

(** [Domain]: the data of a node with its three counts. *)
Record Domain := mkDomain {
  node : Node.t;
  nrDependencies : nat;
  nrDependents : nat;
  nrInternalDependencies : nat;
}.

(** [edges.filter(...).reduce((total, e) => total + e.data.properties.weight, 0)] *)
Definition totalWeight (P : Edge.t → Prop) `{!∀ e, Decision (P e)}
    (edges : list Edge.t) : nat :=
  foldl (λ total e, (total + Edge.weight e)%nat) 0%nat (filter P edges).

(** The [map] of [formatDomains] over the nodes of the graph that
    [formatToLPG] returns. *)
Definition formatDomains (graph : GraphProcessingService.Graph) : list Domain :=
  let edges := GraphProcessingService.edges graph in
  (λ node,
     {| node := node;
        nrDependencies :=
          totalWeight (λ e, Edge.source e = Node.id node ∧ Edge.target e ≠ Node.id node)
            edges;
        nrDependents :=
          totalWeight (λ e, Edge.source e ≠ Node.id node ∧ Edge.target e = Node.id node)
            edges;
        nrInternalDependencies :=
          totalWeight (λ e, Edge.source e = Node.id node ∧ Edge.target e = Node.id node)
            edges |})
    <$> GraphProcessingService.nodes graph.

End GraphPropertiesService.

(** ** The legacy GraphVisualizationService: the cycles of the rendered graph *)

Module LegacyViolations.
Import ViolationCyclicalDependenciesService.

(** The legacy [DependencyCycleRender]: a cycle with its actual cycles. *)
Record DependencyCycleRender := mkRender {
  node : Node.t;
  path : list ExtendedSimpleEdgeData;
  length : nat;
  actualCycles : list DependencyCycle;
}.

(** [graph.nodes.find((n) => n.data.id === replaceId)] for an id that may
    be [undefined]. *)
Definition findNode (graph : GraphProcessingService.Graph) (replaceId : option string)
    : option Node.t :=
  match replaceId with
  | Some replaceId =>
      snd <$> list_find (λ n, Node.id n = replaceId) (GraphProcessingService.nodes graph)
  | None => None
  end.

(** The first [map] over the path: an endpoint is replaced when the map
    has an id for it that is not the empty string and the graph has the
    node of that id. *)
Definition replaceEndpoints (replaceMaps : gmap string string)
    (graph : GraphProcessingService.Graph) (e : ExtendedSimpleEdgeData)
    : ExtendedSimpleEdgeData :=
  let newEdge := e in
  let replaceSource := replaceMaps !! source e in
  let replaceSourceNode := findNode graph replaceSource in
  let replaceTarget := replaceMaps !! target e in
  let replaceTargetNode := findNode graph replaceTarget in
  let newEdge :=
    match replaceSource, replaceSourceNode with
    | Some replaceSource, Some replaceSourceNode =>
        if decide (replaceSource ≠ EmptyString)
        then mkStep (id newEdge) replaceSource (target newEdge)
               replaceSourceNode (targetNode newEdge)
        else newEdge
    | _, _ => newEdge
    end in
  match replaceTarget, replaceTargetNode with
  | Some replaceTarget, Some replaceTargetNode =>
      if decide (replaceTarget ≠ EmptyString)
      then mkStep (id newEdge) (source newEdge) replaceTarget
             (sourceNode newEdge) replaceTargetNode
      else newEdge
  | _, _ => newEdge
  end.

(** The second [map]: the id of the edge of the graph with the same
    endpoints, when there is one. *)
Definition useGraphEdge (graph : GraphProcessingService.Graph)
    (d : ExtendedSimpleEdgeData) : ExtendedSimpleEdgeData :=
  match list_find (λ e, Edge.source e = source d ∧ Edge.target e = target d)
          (GraphProcessingService.edges graph) with
  | Some (_, graphEdge) =>
      mkStep (Edge.id graphEdge) (source d) (target d) (sourceNode d) (targetNode d)
  | None => d
  end.

(** The callback of [cyclicalDependencies.map]. *)
Definition formatCycle (replaceMaps : gmap string string)
    (graph : GraphProcessingService.Graph) (dep : DependencyCycle)
    : DependencyCycleRender :=
  let replaceId := replaceMaps !! Node.id (ViolationCyclicalDependenciesService.node dep) in
  let replaceNode := findNode graph replaceId in
  {| node := default (ViolationCyclicalDependenciesService.node dep) replaceNode;
     path :=
       filteri (λ e index,
                  if decide (index = 0%nat) then true
                  else bool_decide (source e ≠ target e))
         (useGraphEdge graph
            <$> (replaceEndpoints replaceMaps graph
                   <$> ViolationCyclicalDependenciesService.path dep));
     length := ViolationCyclicalDependenciesService.length dep;
     actualCycles := [dep] |}.

(** The final [reduce]: cycles with the same index are merged. *)
Definition mergeViolations (ds : list DependencyCycleRender)
    : list DependencyCycleRender :=
  foldl (λ violations d,
           match list_find (λ d1, cycleIndex (node d1) (path d1)
                                  = cycleIndex (node d) (path d)) violations with
           | Some (index, d1) =>
               <[index := mkRender (node d1) (path d1) (length d1)
                            (actualCycles d1 ++ actualCycles d)]> violations
           | None => violations ++ [d]
           end)
    [] ds.

(** [formattedCyclDeps] of [getGraphFromSelectedNode]. *)
Definition formatCyclicalDependencies (replaceMaps : gmap string string)
    (graph : GraphProcessingService.Graph) (cyclicalDependencies : list DependencyCycle)
    : list DependencyCycleRender :=
  mergeViolations
    (filter (λ d, is_Some (list_find (λ n, Node.id n = Node.id (node d))
                             (GraphProcessingService.nodes graph)))
       (formatCycle replaceMaps graph <$> cyclicalDependencies)).

End LegacyViolations.

(** ** Vocabulary of the properties *)

Module ValidationSpec.
Import PostProcessingService.

(** Every endpoint of every edge is the id of a node of the graph. *)
Definition endpointsKnown (g : IntermediateGraph) : Prop :=
  ∀ e, e ∈ MapSet.values (edges g) →
    Edge.source e ∈ MapSet.keys (nodes g) ∧ Edge.target e ∈ MapSet.keys (nodes g).

(** An edge with an endpoint that is no node of the graph. *)
Definition offending (nodeIds : list string) (e : Edge.t) : Prop :=
  Edge.source e ∉ nodeIds ∨ Edge.target e ∉ nodeIds.

(** What the failure is to say about an offending edge: the edge and the
    endpoints that are missing. *)
Definition missingEndpoints (nodeIds : list string) (e : Edge.t) : string :=
  if decide (Edge.source e ∈ nodeIds) then
    "Edge '" +:+ Edge.id e +:+ "': unknown target '" +:+ Edge.target e +:+ "'"
  else if decide (Edge.target e ∈ nodeIds) then
    "Edge '" +:+ Edge.id e +:+ "': unknown source '" +:+ Edge.source e +:+ "'"
  else
    "Edge '" +:+ Edge.id e +:+ "': unknown source '" +:+ Edge.source e
      +:+ "' and target '" +:+ Edge.target e +:+ "'".

(** No endpoint of the graph is the empty string. *)
Definition endpointsNonEmpty (g : IntermediateGraph) : Prop :=
  ∀ e, e ∈ MapSet.values (edges g) →
    Edge.source e ≠ EmptyString ∧ Edge.target e ≠ EmptyString.

(** The graph that the constructor validates: a single graph as it is,
    several graphs (or none) merged. *)
Definition validated (graphs : list IntermediateGraph) : IntermediateGraph :=
  match graphs with
  | [g] => g
  | _ => mergeGraphs graphs
  end.

(** The one error of an invalid graph: it names the graph and, in the order
    of the edges, every offending edge with its missing endpoints. *)
Definition invalidGraphError (g : IntermediateGraph) : string :=
  "Graph '" +:+ name g +:+ "' is invalid due to the following edges: "
    +:+ join "; " (missingEndpoints (MapSet.keys (nodes g)) <$>
                     filter (offending (MapSet.keys (nodes g)))
                       (MapSet.values (edges g))).

Definition nodeB : Neo4jComponentNode.t :=
  Neo4jComponentNode.mk "B" ["Module"] "B" "module" "#fff" 4 None.

(** A graph with the single node B and an edge from the empty id to B. *)
Definition emptySourceGraph : IntermediateGraph :=
  {| name := "G";
     nodes := [("B", nodeB)];
     edges := [("e1", Edge.mk "e1" EmptyString "B" "calls" 1)] |}.

(** The same with an edge from the empty id to the unknown Z. *)
Definition emptySourceUnknownTargetGraph : IntermediateGraph :=
  {| name := "G";
     nodes := [("B", nodeB)];
     edges := [("e2", Edge.mk "e2" EmptyString "Z" "calls" 1)] |}.
End ValidationSpec.

Module EngineSpec.
Import GraphProcessingService.

(** All relationships of a list of records, in path order. *)
Definition rawEdges (records : list Path.t) : list Rel.t :=
  mjoin (Path.allEdges <$> records).

(** The number of edges of [l] between the endpoints [p], each counted with
    its weight. *)
Definition weightOf (p : string * string) (l : list Edge.t) : nat :=
  sum_list_with Edge.weight (filter (λ e, Edge.pair e = p) l).

(** The number of edges of [l] between the endpoints [p]. *)
Definition countOf (p : string * string) (l : list Edge.t) : nat :=
  length (filter (λ e, Edge.pair e = p) l).

(** [e'] is [e] up to its weight. *)
Definition sameAttributes (e e' : Edge.t) : Prop :=
  Edge.id e = Edge.id e' ∧ Edge.source e = Edge.source e'
  ∧ Edge.target e = Edge.target e' ∧ Edge.interaction e = Edge.interaction e'.

(** The endpoints of a list of edges. *)
Definition endpoints (edges : list Edge.t) : list string :=
  mjoin ((λ e, [Edge.source e; Edge.target e]) <$> edges).

(** The two runs of edges that [getAbstractionMap] deletes from a record,
    and the record that it leaves. *)
Definition deletedRuns (maxDepth : Z) (record : Path.t) : list (list Rel.t) :=
  let '(deletedSource, deletedTarget, _) := spliceRecord maxDepth record in
  [deletedSource; deletedTarget].

Definition splicedRecord (maxDepth : Z) (record : Path.t) : Path.t :=
  (spliceRecord maxDepth record).2.

Definition allDeletedRuns (maxDepth : Z) (records : list Path.t)
    : list (list Rel.t) :=
  mjoin (deletedRuns maxDepth <$> records).

(** The ids that a run maps, and the id that it maps them to. *)
Definition runEnds (run : list Rel.t) : list string :=
  Rel.endNodeElementId <$> run.

Definition runTarget (run : list Rel.t) : option string :=
  Rel.startNodeElementId <$> head run.
End EngineSpec.

Module Scenarios.
Import GraphProcessingService.

(** Scenario B: two records, each with one dependency from A to B; the two
    dependencies have distinct ids. *)
Definition scenarioB : GraphPreProcessingService :=
  {| original_nodes :=
       [Node.mk "A" "A" "module" "Module" "#fff" 4 "true" None;
        Node.mk "B" "B" "module" "Module" "#fff" 4 "false" None];
     original_records :=
       [Path.mk [] [Rel.mk "e1" "A" "B" "CALLS"] [] 0 0;
        Path.mk [] [Rel.mk "e2" "A" "B" "CALLS"] [] 0 0] |}.

(** Scenario A: the domain D contains the modules M1 and M2, and M1 depends
    on M2. *)
Definition scenarioA : GraphPreProcessingService :=
  {| original_nodes :=
       [Node.mk "D" "D" "domain" "Domain" "#fff" 0 "true" None;
        Node.mk "M2" "M2" "module" "Module" "#fff" 1 "false" None];
     original_records :=
       [Path.mk [Rel.mk "c1" "D" "M1" "CONTAINS"] [Rel.mk "e1" "M1" "M2" "CALLS"]
          [Rel.mk "c2" "D" "M2" "CONTAINS"] 1 1] |}.

(** Scenario D: the graphs G1 and G2, and G2 with an edge to the unknown W. *)
Definition moduleNode (x : string) : Neo4jComponentNode.t :=
  Neo4jComponentNode.mk x ["Module"] x "module" "#fff" 4 None.

Definition scenarioD_G1 : PostProcessingService.IntermediateGraph :=
  PostProcessingService.mkGraph "G1"
    [("X", moduleNode "X"); ("Y", moduleNode "Y")]
    [("e1", Edge.mk "e1" "X" "Y" "calls" 1)].

Definition scenarioD_G2 : PostProcessingService.IntermediateGraph :=
  PostProcessingService.mkGraph "G2"
    [("Y", moduleNode "Y"); ("Z", moduleNode "Z")]
    [("e2", Edge.mk "e2" "Y" "Z" "calls" 1)].

Definition scenarioD_G2_broken : PostProcessingService.IntermediateGraph :=
  PostProcessingService.mkGraph "G2"
    [("Y", moduleNode "Y"); ("Z", moduleNode "Z")]
    [("e2", Edge.mk "e2" "Y" "W" "calls" 1)].
End Scenarios.

Module OrphanSpec.
Import GraphProcessingService.

(** Every endpoint of every edge of the graph is the id of one of its nodes. *)
Definition noOrphanEdges (g : Graph) : Prop :=
  ∀ e, e ∈ edges g →
    Edge.source e ∈ Node.id <$> nodes g ∧ Edge.target e ∈ Node.id <$> nodes g.

(** The selected node S contains the module M1, which calls the module M2;
    the record has the source S and the target M2. *)
Definition containedCaller : GraphPreProcessingService :=
  {| original_nodes :=
       [Node.mk "S" "S" "layer" "Layer" "#fff" 3 "true" None;
        Node.mk "M2" "M2" "module" "Module" "#fff" 4 "false" None];
     original_records :=
       [Path.mk [Rel.mk "c1" "S" "M1" "CONTAINS"]
          [Rel.mk "e1" "M1" "M2" "CALLS"] [] 1 0] |}.
End OrphanSpec.

Module AbstractionSpec.
Import GraphProcessingService EngineSpec.

(** [k] is mapped to [v] by the last of the [runs] that maps [k]. *)
Definition mappedByLast (runs : list (list Rel.t)) (k v : string) : Prop :=
  ∃ pre run post,
    runs = pre ++ run :: post
    ∧ k ∈ runEnds run
    ∧ (∀ run', run' ∈ post → k ∉ runEnds run')
    ∧ runTarget run = Some v.

(** The number of edges by which the leading chunk exceeds the cutoff. *)
Definition excess (maxDepth : nat) (chunk : list Rel.t) : nat :=
  (length chunk - maxDepth)%nat.

(** The edges of a chunk from the cutoff onward. *)
Definition beyondCutoff (maxDepth : nat) (chunk : list Rel.t) : list Rel.t :=
  drop maxDepth chunk.

(** The last [n] edges of a chunk. *)
Definition lastEdges (n : nat) (chunk : list Rel.t) : list Rel.t :=
  drop (length chunk - n) chunk.

(** The runs that are deleted from a record: the leading chunk from the
    cutoff onward, and as many edges from the end of the trailing chunk. *)
Definition sourceRun (maxDepth : nat) (record : Path.t) : list Rel.t :=
  beyondCutoff maxDepth (Path.containSourceEdges record).

Definition targetRun (maxDepth : nat) (record : Path.t) : list Rel.t :=
  lastEdges (excess maxDepth (Path.containSourceEdges record))
    (Path.containTargetEdges record).

Definition designRuns (maxDepth : nat) (records : list Path.t) : list (list Rel.t) :=
  mjoin ((λ record, [sourceRun maxDepth record; targetRun maxDepth record]) <$> records).

(** The trailing chunk has at least as many edges as the leading chunk has
    beyond the cutoff. *)
Definition targetCoversExcess (maxDepth : nat) (record : Path.t) : Prop :=
  (excess maxDepth (Path.containSourceEdges record)
   ≤ length (Path.containTargetEdges record))%nat.

(** The record that remains after the two runs are deleted. *)
Definition truncated (maxDepth : nat) (record : Path.t) : Path.t :=
  {| Path.containSourceEdges := take maxDepth (Path.containSourceEdges record);
     Path.dependencyEdges := Path.dependencyEdges record;
     Path.containTargetEdges :=
       take (length (Path.containTargetEdges record)
             - excess maxDepth (Path.containSourceEdges record))
         (Path.containTargetEdges record);
     Path.sourceDepth := Path.sourceDepth record;
     Path.targetDepth := Path.targetDepth record |}.
End AbstractionSpec.

Module LegacyAbstractionSpec.
Import LegacyGraphProcessingService EngineSpec AbstractionSpec.

Definition leading (record : Neo4jComponentPathWithChunks) : list Rel.t :=
  default [] (head (chunks record)).

Definition trailing (record : Neo4jComponentPathWithChunks) : list Rel.t :=
  default [] (last (chunks record)).

(** The record has a leading and a trailing chunk, each of which is empty or
    a chunk of containment edges. *)
Definition wellFormed (record : Neo4jComponentPathWithChunks) : Prop :=
  (2 ≤ length (chunks record))%nat
  ∧ containsDepth (leading record) = Z.of_nat (length (leading record))
  ∧ containsDepth (trailing record) = Z.of_nat (length (trailing record)).
#[global] Instance wellFormed_dec record : Decision (wellFormed record).
Proof. unfold wellFormed. apply _. Defined.

(** Without the direction flag the leading chunk is cut at the cutoff and the
    trailing chunk loses as many edges from its end; with the flag the roles
    of the two chunks are exchanged. *)
Definition sourceRun (maxDepth : nat) (reverseDirection : option bool)
    (record : Neo4jComponentPathWithChunks) : list Rel.t :=
  if falsy reverseDirection then beyondCutoff maxDepth (leading record)
  else lastEdges (excess maxDepth (trailing record)) (leading record).

Definition targetRun (maxDepth : nat) (reverseDirection : option bool)
    (record : Neo4jComponentPathWithChunks) : list Rel.t :=
  if falsy reverseDirection
  then lastEdges (excess maxDepth (leading record)) (trailing record)
  else beyondCutoff maxDepth (trailing record).

Definition designRuns (maxDepth : nat) (reverseDirection : option bool)
    (records : list Neo4jComponentPathWithChunks) : list (list Rel.t) :=
  mjoin ((λ record, [sourceRun maxDepth reverseDirection record;
                     targetRun maxDepth reverseDirection record]) <$> records).

(** The chunk that follows has at least as many edges as the chunk that
    leads has beyond the cutoff. *)
Definition coversExcess (maxDepth : nat) (reverseDirection : option bool)
    (record : Neo4jComponentPathWithChunks) : Prop :=
  if falsy reverseDirection
  then (excess maxDepth (leading record) ≤ length (trailing record))%nat
  else (excess maxDepth (trailing record) ≤ length (leading record))%nat.
#[global] Instance coversExcess_dec maxDepth reverseDirection record :
  Decision (coversExcess maxDepth reverseDirection record).
Proof. unfold coversExcess. destruct (falsy reverseDirection); apply _. Defined.

Definition truncated (maxDepth : nat) (reverseDirection : option bool)
    (record : Neo4jComponentPathWithChunks) : Neo4jComponentPathWithChunks :=
  let lead := leading record in
  let trail := trailing record in
  let '(lead', trail') :=
    if falsy reverseDirection
    then (take maxDepth lead, take (length trail - excess maxDepth lead) trail)
    else (take (length lead - excess maxDepth trail) lead, take maxDepth trail) in
  mkPath (<[(length (chunks record) - 1)%nat := trail']>
            (<[0%nat := lead']> (chunks record))).
End LegacyAbstractionSpec.

Module DocumentedRule.
Import GraphProcessingService EngineSpec AbstractionSpec.

(** The entries of one run: the end of every deleted edge is mapped to the
    start of the first deleted edge. *)
Definition runEntries (run : list Rel.t) : list (string * string) :=
  match run with
  | [] => []
  | first :: _ =>
      (λ e, (Rel.endNodeElementId e, Rel.startNodeElementId first)) <$> run
  end.

(** The excess of the trailing chunk beyond the cutoff, taken from the cutoff
    onward or, mirrored, from the end of the chunk. *)
Definition trailingExcess (mirrored : bool) (maxDepth : nat) (chunk : list Rel.t)
    : list Rel.t :=
  if mirrored then lastEdges (excess maxDepth chunk) chunk
  else beyondCutoff maxDepth chunk.

(** The rule in the words of the design document: the leading chunk loses
    its edges from the cutoff onward, the trailing chunk loses its own excess
    beyond the cutoff. *)
Definition documentedEntries (mirrored : bool) (maxDepth : nat) (record : Path.t)
    : list (string * string) :=
  runEntries (beyondCutoff maxDepth (Path.containSourceEdges record))
  ++ runEntries (trailingExcess mirrored maxDepth (Path.containTargetEdges record)).

(** The map has exactly the documented entries. *)
Definition documented (mirrored : bool) (maxDepth : nat) (records : list Path.t)
    (replaceMap : gmap string string) : Prop :=
  ∀ k v, replaceMap !! k = Some v
         ↔ ∃ record, record ∈ records
                     ∧ (k, v) ∈ documentedEntries mirrored maxDepth record.

(** A contains B contains C, C calls Y, and X contains Y. *)
Definition deepSource : Path.t :=
  Path.mk [Rel.mk "c1" "A" "B" "CONTAINS"; Rel.mk "c2" "B" "C" "CONTAINS"]
    [Rel.mk "e1" "C" "Y" "CALLS"]
    [Rel.mk "c3" "X" "Y" "CONTAINS"] 2 1.

Definition deepSourceChunks : LegacyGraphProcessingService.Neo4jComponentPathWithChunks :=
  LegacyGraphProcessingService.mkPath
    [[Rel.mk "c1" "A" "B" "CONTAINS"; Rel.mk "c2" "B" "C" "CONTAINS"];
     [Rel.mk "e1" "C" "Y" "CALLS"];
     [Rel.mk "c3" "X" "Y" "CONTAINS"]].
End DocumentedRule.

Module IdempotenceSpec.
Import GraphProcessingService EngineSpec.

(** The rewriting of an id through the map: the identity where the map has
    no entry. *)
Definition applyMap (replaceMap : gmap string string) (x : string) : string :=
  default x (replaceMap !! x).

Definition idempotent (replaceMap : gmap string string) : Prop :=
  ∀ k, applyMap replaceMap (applyMap replaceMap k) = applyMap replaceMap k.

(** Two dependencies below the domain D: M1 (in A1) calls M2 (in A2), and
    M3 (in the layer L of A1) calls M4 (in A2). *)
Definition unevenRecords : list Path.t :=
  [Path.mk [Rel.mk "c1" "D" "A1" "CONTAINS"; Rel.mk "c2" "A1" "M1" "CONTAINS"]
     [Rel.mk "e1" "M1" "M2" "CALLS"]
     [Rel.mk "c3" "D" "A2" "CONTAINS"; Rel.mk "c4" "A2" "M2" "CONTAINS"] 2 2;
   Path.mk [Rel.mk "c1" "D" "A1" "CONTAINS"; Rel.mk "c5" "A1" "L" "CONTAINS";
            Rel.mk "c6" "L" "M3" "CONTAINS"]
     [Rel.mk "e2" "M3" "M4" "CALLS"]
     [Rel.mk "c3" "D" "A2" "CONTAINS"; Rel.mk "c7" "A2" "M4" "CONTAINS"] 3 2].

(** The same with all modules at the same depth: M3 is in A1 as well. *)
Definition evenRecords : list Path.t :=
  [Path.mk [Rel.mk "c1" "D" "A1" "CONTAINS"; Rel.mk "c2" "A1" "M1" "CONTAINS"]
     [Rel.mk "e1" "M1" "M2" "CALLS"]
     [Rel.mk "c3" "D" "A2" "CONTAINS"; Rel.mk "c4" "A2" "M2" "CONTAINS"] 2 2;
   Path.mk [Rel.mk "c1" "D" "A1" "CONTAINS"; Rel.mk "c6" "A1" "M3" "CONTAINS"]
     [Rel.mk "e2" "M3" "M4" "CALLS"]
     [Rel.mk "c3" "D" "A2" "CONTAINS"; Rel.mk "c7" "A2" "M4" "CONTAINS"] 2 2].

(** The level of the nodes of [evenRecords]: the domain, the applications and
    the modules. *)
Definition evenLevel (x : string) : nat :=
  if decide (x = "D") then 0%nat else if decide (x ∈ ["A1"; "A2"]) then 1%nat else 2%nat.
End IdempotenceSpec.

Module HierarchySpec.
Import GraphProcessingService EngineSpec AbstractionSpec DocumentedRule.

(** The chunk is a path of containment that descends level by level from the
    level [from]: every edge leads from a node of one level to a node of the
    next, and starts at the node at which the edge before it ends. *)
Fixpoint descends (level : string → nat) (from : nat) (chunk : list Rel.t) : Prop :=
  match chunk with
  | [] => True
  | e :: rest =>
      level (Rel.startNodeElementId e) = from
      ∧ level (Rel.endNodeElementId e) = S from
      ∧ match rest with
        | [] => True
        | e' :: _ => Rel.endNodeElementId e = Rel.startNodeElementId e'
        end
      ∧ descends level (S from) rest
  end.

(** The record follows the hierarchy: its recorded depths are the lengths of
    its containment chunks, the leading chunk descends from the level [base]
    of the selected node, and the trailing chunk descends to the level at
    which the leading chunk ends, so that the two ends of the dependency are
    at the same level.  Both chunks list their edges from the top down, as
    the path [r1 + r2 + reverse(r3)] of the query does. *)
Definition levelled (level : string → nat) (base : nat) (record : Path.t) : Prop :=
  Path.wellFormed record
  ∧ descends level base (Path.containSourceEdges record)
  ∧ (length (Path.containTargetEdges record)
     ≤ base + length (Path.containSourceEdges record))%nat
  ∧ descends level
      (base + length (Path.containSourceEdges record)
       - length (Path.containTargetEdges record))
      (Path.containTargetEdges record).

(** The containment edges of the records. *)
Definition containment (records : list Path.t) : list Rel.t :=
  mjoin ((λ record, Path.containSourceEdges record ++ Path.containTargetEdges record)
           <$> records).

(** Every node has one container. *)
Definition singleContainer (records : list Path.t) : Prop :=
  ∀ e e', e ∈ containment records → e' ∈ containment records →
    Rel.endNodeElementId e = Rel.endNodeElementId e' →
    Rel.startNodeElementId e = Rel.startNodeElementId e'.

(** The entries that a record makes in the map: those of the run of its
    leading chunk and those of the run of its trailing chunk. *)
Definition entries (maxDepth : nat) (record : Path.t) : list (string * string) :=
  runEntries (sourceRun maxDepth record) ++ runEntries (targetRun maxDepth record).
End HierarchySpec.

Module DeterminismSpec.
Import GraphProcessingService EngineSpec AbstractionSpec HierarchySpec.

(** An id is mapped to the same id by every run that maps it. *)
Definition consistentRuns (runs : list (list Rel.t)) : Prop :=
  ∀ run1 run2 k, run1 ∈ runs → run2 ∈ runs →
    k ∈ runEnds run1 → k ∈ runEnds run2 → runTarget run1 = runTarget run2.

(** An element id denotes one relationship. *)
Definition consistentIds (rs : list Rel.t) : Prop :=
  ∀ r r', r ∈ rs → r' ∈ rs → Rel.elementId r = Rel.elementId r' → r = r'.

(** A relationship of containment. *)
Definition isContains (r : Rel.t) : Prop := toLowerCase (Rel.type r) = "contains".

(** The chunks of the record hold what they are named after: the containment
    chunks hold relationships of containment, the dependency chunk holds
    other relationships, each between two nodes of the same level. *)
Definition typed (level : string → nat) (record : Path.t) : Prop :=
  Forall isContains (Path.containSourceEdges record)
  ∧ Forall isContains (Path.containTargetEdges record)
  ∧ Forall (λ r, ¬ isContains r
                 ∧ level (Rel.startNodeElementId r) = level (Rel.endNodeElementId r))
      (Path.dependencyEdges record).

(** The cutoff is no negative number, and the trailing chunk of every record
    has at least as many edges as its leading chunk has beyond the cutoff. *)
Definition coversCutoff (maxDepth : option Z) (records : list Path.t) : Prop :=
  match maxDepth with
  | Some d => 0 ≤ d ∧ Forall (targetCoversExcess (Z.to_nat d)) records
  | None => True
  end.

(** The records of the pre-processor are those of a hierarchy: there are
    levels of the nodes such that every record follows the hierarchy and its
    chunks hold what they are named after, every node has one container, and
    an element id denotes one relationship. *)
Definition wellFormedInput (level : string → nat) (base : nat)
    (original : GraphPreProcessingService) (maxDepth : option Z) : Prop :=
  Forall (levelled level base) (original_records original)
  ∧ Forall (typed level) (original_records original)
  ∧ singleContainer (original_records original)
  ∧ consistentIds (rawEdges (original_records original))
  ∧ coversCutoff maxDepth (original_records original).

(** The records after the deletion of the runs, and the map of the runs. *)
Definition keptRecords (maxDepth : option Z) (records : list Path.t) : list Path.t :=
  match maxDepth with
  | Some d => truncated (Z.to_nat d) <$> records
  | None => records
  end.

Definition mapOf (maxDepth : option Z) (records : list Path.t) : gmap string string :=
  match maxDepth with
  | Some d => foldl addToReplaceMap ∅ (designRuns (Z.to_nat d) records)
  | None => ∅
  end.

(** The level of the cutoff, and a pair of a container and a node that it
    contains, none below the cutoff. *)
Definition cutoffLevel (base : nat) (maxDepth : option Z) : option nat :=
  (λ d, (base + Z.to_nat d)%nat) <$> maxDepth.

Definition contained (level : string → nat) (cutoff : option nat) (s t : string) : Prop :=
  level t = S (level s)
  ∧ match cutoff with Some c => (level t ≤ c)%nat | None => True end.

(** What the self-edge option keeps. *)
Definition selfOk (selfEdges : option bool) (s t : string) : Prop :=
  match selfEdges with Some false => s ≠ t | _ => True end.

(** An edge without its interaction, and an edge without its id and its
    interaction. *)
Definition edgeIdentity (e : Edge.t) : string * string * string * nat :=
  (Edge.id e, Edge.source e, Edge.target e, Edge.weight e).

Definition edgeEnds (e : Edge.t) : string * string * nat :=
  (Edge.source e, Edge.target e, Edge.weight e).

Definition sameNodeIds (ns1 ns2 : list Node.t) : Prop :=
  ∀ x, x ∈ Node.id <$> ns1 ↔ x ∈ Node.id <$> ns2.

(** The same edges up to their interactions, and the same edges up to their
    ids and interactions. *)
Definition sameEdgeIdentity (es1 es2 : list Edge.t) : Prop :=
  ∀ c, c ∈ edgeIdentity <$> es1 ↔ c ∈ edgeIdentity <$> es2.

Definition sameEdgeEnds (es1 es2 : list Edge.t) : Prop :=
  ∀ c, c ∈ edgeEnds <$> es1 ↔ c ∈ edgeEnds <$> es2.

(** The records of [IdempotenceSpec.evenRecords] with the nodes of their
    endpoints, and the same with the records in the other order. *)
Definition evenOriginal : GraphPreProcessingService :=
  {| original_nodes :=
       [Node.mk "D" "D" "domain" "Domain" "#fff" 0 "true" None;
        Node.mk "A1" "A1" "application" "Application" "#fff" 1 "false" None;
        Node.mk "A2" "A2" "application" "Application" "#fff" 1 "false" None];
     original_records := IdempotenceSpec.evenRecords |}.

Definition evenOriginal_reversed : GraphPreProcessingService :=
  {| original_nodes := original_nodes evenOriginal;
     original_records := reverse (original_records evenOriginal) |}.

(** Scenario B with its two records in the other order. *)
Definition scenarioB_reversed : GraphPreProcessingService :=
  {| original_nodes := original_nodes Scenarios.scenarioB;
     original_records := reverse (original_records Scenarios.scenarioB) |}.

(** Two dependencies on the module M2 of the application A2: one from M1 in
    A1, one from M3 in the layer L of A1, so that the leading chunks have 2
    and 3 edges; and the same with the records in the other order. *)
Definition sharedTarget : GraphPreProcessingService :=
  {| original_nodes := original_nodes evenOriginal;
     original_records :=
       [Path.mk [Rel.mk "c1" "D" "A1" "CONTAINS"; Rel.mk "c2" "A1" "M1" "CONTAINS"]
          [Rel.mk "e1" "M1" "M2" "CALLS"]
          [Rel.mk "c3" "D" "A2" "CONTAINS"; Rel.mk "c4" "A2" "M2" "CONTAINS"] 2 2;
        Path.mk [Rel.mk "c1" "D" "A1" "CONTAINS"; Rel.mk "c5" "A1" "L" "CONTAINS";
                 Rel.mk "c6" "L" "M3" "CONTAINS"]
          [Rel.mk "e2" "M3" "M2" "CALLS"]
          [Rel.mk "c3" "D" "A2" "CONTAINS"; Rel.mk "c4" "A2" "M2" "CONTAINS"] 3 2] |}.

Definition sharedTarget_reversed : GraphPreProcessingService :=
  {| original_nodes := original_nodes sharedTarget;
     original_records := reverse (original_records sharedTarget) |}.

(** Two dependencies of different types from A to B, and the same with the
    records in the other order. *)
Definition twoTypes : GraphPreProcessingService :=
  {| original_nodes := original_nodes Scenarios.scenarioB;
     original_records :=
       [Path.mk [] [Rel.mk "e1" "A" "B" "CALLS"] [] 0 0;
        Path.mk [] [Rel.mk "e2" "A" "B" "EXTENDS"] [] 0 0] |}.

Definition twoTypes_reversed : GraphPreProcessingService :=
  {| original_nodes := original_nodes twoTypes;
     original_records := reverse (original_records twoTypes) |}.
End DeterminismSpec.

Module ViolationSpec.
Import ViolationCyclicalDependenciesService.

(** A dependency without its cycle mark, and a rendered graph without the
    marks. *)
Definition unmarked (e : Neo4jDependencyRelationship) : Neo4jDependencyRelationship :=
  mkDependency (elementId e) (startNode e) (endNode e) false.

Definition erase (dependencies : MapSet.t Neo4jDependencyRelationship)
    : MapSet.t Neo4jDependencyRelationship :=
  (λ p, (p.1, unmarked p.2)) <$> dependencies.

(** The rewritten path of a cycle: [newPath]. *)
Definition rewrittenPath (dependencies : MapSet.t Neo4jDependencyRelationship)
    (nodes : MapSet.t Neo4jComponentNode.t) (dep : DependencyCycle)
    : list ExtendedSimpleEdgeData :=
  (rewritePath dependencies nodes (path dep)).1.

(** The cycle is in the output: it is one of the actual cycles of a rendered
    cycle. *)
Definition appearsIn (out : list DependencyCycleRender) (dep : DependencyCycle) : Prop :=
  ∃ d, d ∈ out ∧ dep ∈ r_actualCycles d.

(** An edge of the list has the id of an edge of the rendered graph. *)
Definition matchesRendered (dependencies : MapSet.t Neo4jDependencyRelationship)
    (steps : list ExtendedSimpleEdgeData) : Prop :=
  ∃ p, p ∈ steps ∧ MapSet.has dependencies (id p) = true.

Definition nodeOf (x : string) : Neo4jComponentNode.t :=
  Neo4jComponentNode.mk x ["Module"] x "module" "#fff" 4 None.

(** The rendered graph with the single dependency e1 from X to Y. *)
Definition renderedXY : MapSet.t Neo4jDependencyRelationship :=
  [("e1", mkDependency "e1" (nodeOf "X") (nodeOf "Y") false)].

(** The step e1 of a raw cycle, between the modules x1 and y1. *)
Definition stepXY : ExtendedSimpleEdgeData :=
  mkStep "e1" "x1" "y1" (toNodeData (nodeOf "x1")) (toNodeData (nodeOf "y1")).

(** The rendered graph with the self-edge e1 of A, and the cycle from a1 to
    a2 (both lifted to A) to b1 and back, of which only e1 is rendered under
    its own id. *)
Definition renderedAA : MapSet.t Neo4jDependencyRelationship :=
  [("e1", mkDependency "e1" (nodeOf "A") (nodeOf "A") false)].

Definition cycleThroughA : DependencyCycle :=
  mkCycle (toNodeData (nodeOf "a1"))
    [mkStep "e1" "a1" "a2" (toNodeData (nodeOf "a1")) (toNodeData (nodeOf "a2"));
     mkStep "e2" "a2" "b1" (toNodeData (nodeOf "a2")) (toNodeData (nodeOf "b1"));
     mkStep "e3" "b1" "a1" (toNodeData (nodeOf "b1")) (toNodeData (nodeOf "a1"))]
    3.

(** Scenario C: the cycle from A to B to C and back, where B and C are
    lifted to A; the rendered graph has the self-edge e1 of A. *)
Definition liftedTo (x a : string) : Neo4jComponentNode.t :=
  Neo4jComponentNode.mk x ["Module"] x "module" "#fff" 4 (Some (nodeOf a)).

Definition nodesABC : MapSet.t Neo4jComponentNode.t :=
  [("A", nodeOf "A"); ("B", liftedTo "B" "A"); ("C", liftedTo "C" "A")].

Definition cycleABC : DependencyCycle :=
  mkCycle (toNodeData (nodeOf "A"))
    [mkStep "e1" "A" "B" (toNodeData (nodeOf "A")) (toNodeData (nodeOf "B"));
     mkStep "e2" "B" "C" (toNodeData (nodeOf "B")) (toNodeData (nodeOf "C"));
     mkStep "e3" "C" "A" (toNodeData (nodeOf "C")) (toNodeData (nodeOf "A"))]
    3.

(** Scenario C with the self-edge of A rendered under the id of the second
    step of the cycle. *)
Definition renderedAA_second : MapSet.t Neo4jDependencyRelationship :=
  [("e2", mkDependency "e2" (nodeOf "A") (nodeOf "A") false)].

(** A step from a node to itself. *)
Definition selfEdge (e : ExtendedSimpleEdgeData) : Prop := source e = target e.
End ViolationSpec.

Module ValidationFacts.
Import PostProcessingService.

(** Every endpoint of every edge is the id of a node of the graph or the
    empty string. *)
Definition endpointsKnownOrBlank (g : IntermediateGraph) : Prop :=
  ∀ e, e ∈ MapSet.values (edges g) →
    (Edge.source e ∈ MapSet.keys (nodes g) ∨ Edge.source e = EmptyString)
    ∧ (Edge.target e ∈ MapSet.keys (nodes g) ∨ Edge.target e = EmptyString).

(** The message of every failure: the name of the graph, then the details. *)
Definition failureMessage (g : IntermediateGraph) (details : string) : string :=
  "Graph '" +:+ name g +:+ "' is invalid due to the following edges: "
    +:+ details.

(** Two nodes and two edges, the second edge to a node that the graph does
    not have. *)
Definition danglingGraph : IntermediateGraph :=
  {| name := "G";
     nodes := [("X", Scenarios.moduleNode "X"); ("Y", Scenarios.moduleNode "Y")];
     edges := [("e1", Edge.mk "e1" "X" "Y" "calls" 1);
               ("e2", Edge.mk "e2" "Y" "W" "calls" 1)] |}.
End ValidationFacts.

Module DedupFacts.
Import GraphProcessingService.

(** All of an edge but its weight. *)
Definition attributes (e : Edge.t) : string * string * string * string :=
  (Edge.id e, Edge.source e, Edge.target e, Edge.interaction e).

Definition totalWeight (l : list Edge.t) : nat := sum_list_with Edge.weight l.

(** Three edges between three different pairs of endpoints. *)
Definition distinctPairs : list Edge.t :=
  [Edge.mk "e1" "A" "B" "calls" 1; Edge.mk "e2" "B" "A" "calls" 3;
   Edge.mk "e3" "A" "A" "contains" 1].
End DedupFacts.

Module EngineFacts.
Import GraphProcessingService EngineSpec.

(** No record has a leading chunk deeper than the cutoff. *)
Definition withinCutoff (maxDepth : Z) (records : list Path.t) : Prop :=
  Forall (λ record, Path.sourceDepth record ≤ maxDepth) records.

(** The relationship of an edge of the graph: the edge has its id and
    endpoints, and its type in lower case. *)
Definition rendersRelationship (e : Edge.t) (r : Rel.t) : Prop :=
  Edge.id e = Rel.elementId r
  ∧ Edge.source e = Rel.startNodeElementId r
  ∧ Edge.target e = Rel.endNodeElementId r
  ∧ Edge.interaction e = toLowerCase (Rel.type r).

(** [n'] is [n], or [n] with the source of the containment edge [e], which
    ends in [n], as its parent. *)
Definition parentFrom (es : list Edge.t) (n n' : Node.t) : Prop :=
  n' = n
  ∨ ∃ e, e ∈ es ∧ Edge.target e = Node.id n ∧ n' = Node.setParent n (Edge.source e).

Definition containmentEdges (es : list Edge.t) : list Edge.t :=
  filter (λ e, Edge.interaction e = "contains") es.
End EngineFacts.

Module PreProcessingFacts.
Import GraphPreProcessingService.

(** The sources and targets of the records, in the order in which
    [getAllNodes] visits them. *)
Definition endpointNodes (records : list Neo4jComponentPath)
    : list Neo4jComponentNode.t :=
  mjoin ((λ r, [source r; target r]) <$> records).

(** No record with the same dependency edges has a longer trailing chunk,
    and the recorded length of the trailing chunk is not negative. *)
Definition longest (records : list Path.t) (record : Path.t) : Prop :=
  0 ≤ Path.targetDepth record
  ∧ Forall (λ other, pathId other = pathId record →
                     Path.targetDepth other ≤ Path.targetDepth record) records.
#[global] Instance longest_dec records record : Decision (longest records record).
Proof. unfold longest. apply _. Defined.

(** Three records: two with the dependency edge d1 and trailing chunks of
    the lengths 1 and 2, one with the dependency edge d2. *)
Definition threePaths : list Path.t :=
  [Path.mk [] [Rel.mk "d1" "a" "b" "CALLS"] [Rel.mk "c1" "B" "b" "CONTAINS"] 0 1;
   Path.mk [] [Rel.mk "d1" "a" "b" "CALLS"]
     [Rel.mk "c1" "B" "b" "CONTAINS"; Rel.mk "c2" "D" "B" "CONTAINS"] 0 2;
   Path.mk [] [Rel.mk "d2" "a" "c" "CALLS"] [] 0 0].
End PreProcessingFacts.

Module ChunkFacts.
Import LegacyPathChunks.

(** All relationships of the list have the same type. *)
Definition sameType (l : list Rel.t) : Prop :=
  ∀ r r', r ∈ l → r' ∈ l → Rel.type r = Rel.type r'.

(** The chunks of the loop: there is one, none is empty, and each holds
    relationships of one type. *)
Definition grouped (chunks : list (list Rel.t)) : Prop :=
  chunks ≠ [] ∧ Forall (λ c, c ≠ [] ∧ sameType c) chunks.

(** A containment, in any spelling of its type. *)
Definition isContains (r : Rel.t) : Prop := toLowerCase (Rel.type r) = "contains".

(** The position of the first relationship that has the id of the last
    one. *)
Definition firstOfLast (l : list Rel.t) : option nat :=
  e ← last l; fst <$> list_find (λ e', Rel.elementId e' = Rel.elementId e) l.

(** A path of two containments down, a call, and a containment up. *)
Definition mixedPath : list Rel.t :=
  [Rel.mk "c1" "A" "a" "CONTAINS"; Rel.mk "c2" "a" "x" "CONTAINS";
   Rel.mk "d1" "x" "y" "CALLS"; Rel.mk "c3" "B" "y" "CONTAINS"].

(** A path of containments, down through c1 and c2 and up through c2. *)
Definition downAndUp : list Rel.t :=
  [Rel.mk "c1" "A" "a" "CONTAINS"; Rel.mk "c2" "a" "x" "CONTAINS";
   Rel.mk "c2" "a" "x" "CONTAINS"].
End ChunkFacts.

Module FilterFacts.
Import RelationshipsFilter.

(** The node whose relationships a record counts towards, and the node at
    the other end of the first dependency edge of the record. *)
Definition relation (outgoing : bool) (record : Neo4jComponentPath)
    : option (string * string) :=
  edge ← head (Path.dependencyEdges (chunks record));
  let p :=
    if (outgoing && isDependency record
        || negb outgoing && negb (isDependency record))%bool
    then (Rel.startNodeElementId edge, Rel.endNodeElementId edge)
    else (Rel.endNodeElementId edge, Rel.startNodeElementId edge) in
  if decide (p.2 = EmptyString) then None else Some p.

(** The nodes that the records relate to [node], with repetitions. *)
Definition relatedNodes (outgoing : bool) (records : list Neo4jComponentPath)
    (node : string) : list string :=
  omap (λ record, p ← relation outgoing record;
                  if decide (p.1 = node) then Some p.2 else None) records.

(** The number of different nodes that the records relate to [node]. *)
Definition relationCount (outgoing : bool) (records : list Neo4jComponentPath)
    (node : string) : Z :=
  Z.of_nat (length (remove_dups (relatedNodes outgoing records node))).

(** The count is within the bounds that are given and not 0. *)
Definition bounded (minRelationships maxRelationships : option Z) (count : Z) : Prop :=
  (truthy minRelationships = true → default 0 minRelationships ≤ count)
  ∧ (truthy maxRelationships = true → count ≤ default 0 maxRelationships).
#[global] Instance bounded_dec minRelationships maxRelationships count :
  Decision (bounded minRelationships maxRelationships count).
Proof. unfold bounded. apply _. Defined.

(** Three paths from the selected module m: two to the module x, one to
    the module y. *)
Definition threeDependencies : list Neo4jComponentPath :=
  [mkPath (Path.mk [] [Rel.mk "d1" "m" "x" "CALLS"] [] 0 0) true "m";
   mkPath (Path.mk [] [Rel.mk "d2" "m" "x" "CALLS"] [] 0 0) true "m";
   mkPath (Path.mk [] [Rel.mk "d3" "m" "y" "CALLS"] [] 0 0) true "m"].
End FilterFacts.

Module LayerFacts.
Import PropertiesService.

Definition fromLabels (records : list Neo4jLayerRecord) : list string :=
  (λ r, (from r).1) <$> records.
Definition toLabels (records : list Neo4jLayerRecord) : list string :=
  (λ r, (to r).1) <$> records.

(** The label and the parent of each layer. *)
Definition summary (layers : list GraphLayer) : list (string * option string) :=
  (λ l, (label l, parentLabel l)) <$> layers.

(** Each layer of the list is the child of the layer before it, the first
    one of [parent]. *)
Fixpoint childrenOf (parent : GraphLayer) (l : list GraphLayer) : Prop :=
  match l with
  | [] => True
  | child :: rest => parentLabel child = Some (label parent) ∧ childrenOf child rest
  end.

(** A chain of layers from a layer without a parent. *)
Definition chain (l : list GraphLayer) : Prop :=
  match l with
  | [] => True
  | top :: rest => parentLabel top = None ∧ childrenOf top rest
  end.

Definition noTopLayer : string := "No top layer (without any parent labels) found.".

(** The classes that the records give for a label, with repetitions. *)
Definition classesOf (records : list Neo4jLayerRecord) (l : string) : list string :=
  mjoin ((λ r, (if decide ((from r).1 = l) then (from r).2 else [])
               ++ (if decide ((to r).1 = l) then (to r).2 else [])) <$> records).

(** The layer after the [forEach] over the classes. *)
Definition addClasses (cs : list string) (layer : GraphLayer) : GraphLayer :=
  foldl (λ layer c, addClass c layer) layer cs.

(** The domain contains the application, which contains the layer. *)
Definition threeLayers : list Neo4jLayerRecord :=
  [mkRecord ("Application", []) ("Layer", ["Sublayer"]);
   mkRecord ("Domain", []) ("Application", [])].
End LayerFacts.

Module MergeFacts.
Import PostProcessingService.

(** The nodes and the edges of the graphs, in the order in which
    [mergeGraphs] passes them to [MapSet]. *)
Definition allNodes (graphs : list IntermediateGraph) : list Neo4jComponentNode.t :=
  mjoin (MapSet.values ∘ nodes <$> graphs).
Definition allEdges (graphs : list IntermediateGraph) : list Edge.t :=
  mjoin (MapSet.values ∘ edges <$> graphs).

(** The nodes of the graph are held under their ids. *)
Definition keyedById (g : IntermediateGraph) : Prop :=
  MapSet.keys (nodes g) = Neo4jComponentNode.elementId <$> MapSet.values (nodes g).
End MergeFacts.

Module DomainFacts.
Import GraphProcessingService GraphPropertiesService.

(** The sum of the weights of the edges. *)
Definition weights (edges : list Edge.t) : nat := sum_list_with Edge.weight edges.

(** The edges between different nodes, and the edges from a node to
    itself. *)
Definition crossEdges (edges : list Edge.t) : list Edge.t :=
  filter (λ e, Edge.source e ≠ Edge.target e) edges.
Definition selfEdges (edges : list Edge.t) : list Edge.t :=
  filter (λ e, Edge.source e = Edge.target e) edges.

(** Every endpoint of every edge is the id of a node. *)
Definition closed (graph : Graph) : Prop :=
  ∀ e, e ∈ edges graph →
    Edge.source e ∈ Node.id <$> nodes graph ∧ Edge.target e ∈ Node.id <$> nodes graph.

Definition domainNode (x : string) : Node.t :=
  Node.mk x x "domain" "Domain" "#fff" 0 "false" None.

(** Two domains: A depends on B with weight 3 and on itself with weight 2. *)
Definition twoDomains : Graph :=
  mkGraph "All domains" [domainNode "A"; domainNode "B"]
    [Edge.mk "e1" "A" "B" "calls" 3; Edge.mk "e2" "A" "A" "calls" 2].
End DomainFacts.

Module LegacyViolationFacts.
Import ViolationCyclicalDependenciesService.

(** The node of the formatted cycle is a node of the graph. *)
Definition rendered (replaceMaps : gmap string string)
    (graph : GraphProcessingService.Graph) (dep : DependencyCycle) : Prop :=
  Node.id (LegacyViolations.node (LegacyViolations.formatCycle replaceMaps graph dep))
    ∈ Node.id <$> GraphProcessingService.nodes graph.
#[global] Instance rendered_dec replaceMaps graph dep :
  Decision (rendered replaceMaps graph dep).
Proof. unfold rendered. apply _. Defined.

(** The index under which the cycles are merged. *)
Definition index (d : LegacyViolations.DependencyCycleRender) : string :=
  cycleIndex (LegacyViolations.node d) (LegacyViolations.path d).
End LegacyViolationFacts.

Module ProjectionFacts.
Import ViolationCyclicalDependenciesService ViolationSpec.

(** The error of reading [sourceNode] of the first step of an empty path. *)
Definition emptyPathError : string :=
  "TypeError: Cannot read properties of undefined (reading 'sourceNode')".

(** The ids of the steps of the cycles. *)
Definition stepIds (dependencyCycles : list DependencyCycle) : list string :=
  id <$> mjoin (path <$> dependencyCycles).

Definition marked (e : Neo4jDependencyRelationship) : Neo4jDependencyRelationship :=
  mkDependency (elementId e) (startNode e) (endNode e) true.

(** The dependency [e] after the projection of cycles with the step ids
    [ids], when the graph holds it under the key [k]. *)
Definition markedIf (ids : list string) (k : string)
    (e : Neo4jDependencyRelationship) : Neo4jDependencyRelationship :=
  if decide (k ∈ ids) then marked e else e.

(** A step that remains of the rewritten path of the cycle has the id of a
    rendered dependency. *)
Definition isRealizedCycle (dependencies : MapSet.t Neo4jDependencyRelationship)
    (nodes : MapSet.t Neo4jComponentNode.t) (dep : DependencyCycle) : bool :=
  existsb (λ p, MapSet.has dependencies (id p))
    (collapseSelfEdges (rewrittenPath dependencies nodes dep)).

(** The rendered cycle [d] shows the cycle [dep]: it has the path that
    remains of the rewritten path of [dep] and the source node of its first
    rewritten step as its node. *)
Definition shows (dependencies : MapSet.t Neo4jDependencyRelationship)
    (nodes : MapSet.t Neo4jComponentNode.t) (d : DependencyCycleRender)
    (dep : DependencyCycle) : Prop :=
  r_path d = collapseSelfEdges (rewrittenPath dependencies nodes dep)
  ∧ Some (r_node d) = sourceNode <$> head (rewrittenPath dependencies nodes dep)
  ∧ r_length d = length dep.

(** The id under which a cycle is rendered: the index of the source node of
    its first rewritten step and of the path that remains of its rewritten
    path. *)
Definition renderedIndex (dependencies : MapSet.t Neo4jDependencyRelationship)
    (nodes : MapSet.t Neo4jComponentNode.t) (dep : DependencyCycle) : option string :=
  (λ first, cycleIndex (sourceNode first)
              (collapseSelfEdges (rewrittenPath dependencies nodes dep)))
    <$> head (rewrittenPath dependencies nodes dep).

(** A cycle without steps. *)
Definition emptyCycle : DependencyCycle := mkCycle (toNodeData (nodeOf "A")) [] 0.
End ProjectionFacts.

(* ================================================================== *)
(** * Properties *)
(* ================================================================== *)

(** Case analysis on the membership [H] in a list of known elements. *)
Ltac elem_cases H :=
  repeat (let E := fresh "E" in apply elem_of_cons in H as [E|H]);
  try (by apply elem_of_nil in H).

(** ** The union by id *)

Section union_by_id.

Lemma set_keys {V} (m : MapSet.t V) k v :
  MapSet.keys (MapSet.set m k v)
  = if decide (k ∈ MapSet.keys m) then MapSet.keys m else MapSet.keys m ++ [k].
Proof.
  unfold MapSet.keys. induction m as [|[k' v'] m IH]; [done|]. cbn.
  destruct (decide (k' = k)) as [->|Hne]; cbn.
  - rewrite decide_True; [done|left].
  - rewrite IH. destruct (decide (k ∈ m.*1)) as [Hin|Hin].
    + rewrite decide_True; [done|by right].
    + rewrite decide_False; [done|]. by intros [?|?]%elem_of_cons.
Qed.

Lemma set_elem {V} (m : MapSet.t V) k v p :
  p ∈ MapSet.set m k v → p = (k, v) ∨ p ∈ m.
Proof.
  induction m as [|[k' v'] m IH]; cbn.
  - intros ->%list_elem_of_singleton. by left.
  - destruct (decide (k' = k)) as [->|Hne].
    + intros [->|Hin]%elem_of_cons; [by left|right; by right].
    + intros [->|Hin]%elem_of_cons; [right; left|].
      destruct (IH Hin); [by left|right; by right].
Qed.

Lemma ofList_snoc {V} (key : V → string) (l : list V) v :
  MapSet.ofList key (l ++ [v]) = MapSet.set (MapSet.ofList key l) (key v) v.
Proof. unfold MapSet.ofList. by rewrite foldl_snoc. Qed.

Lemma ofList_keys {V} (key : V → string) (l : list V) :
  NoDup (MapSet.keys (MapSet.ofList key l))
  ∧ ∀ k, k ∈ MapSet.keys (MapSet.ofList key l) ↔ k ∈ key <$> l.
Proof.
  induction l as [|v l [Hnd Hiff]] using rev_ind.
  { split; [constructor|done]. }
  rewrite ofList_snoc, set_keys, fmap_app. cbn.
  case_decide as Hin; split; try done.
  - intros k. rewrite elem_of_app, list_elem_of_singleton, <- Hiff.
    split; [by left|]. by intros [?| ->].
  - apply NoDup_app. split_and!; [done| |apply NoDup_singleton].
    by intros k Hk ->%list_elem_of_singleton.
  - intros k. by rewrite !elem_of_app, Hiff.
Qed.

Lemma ofList_elem {V} (key : V → string) (l : list V) k v :
  (k, v) ∈ MapSet.ofList key l → key v = k ∧ v ∈ l.
Proof.
  induction l as [|x l IH] using rev_ind.
  { by intros ?%elem_of_nil. }
  rewrite ofList_snoc. intros [[= -> ->]|Hin]%set_elem.
  - split; [done|]. apply elem_of_app. right. left.
  - destruct (IH Hin). split; [done|]. apply elem_of_app. by left.
Qed.

End union_by_id.

(** ** Validation of the merged graph *)

Section validation.
Import PostProcessingService ValidationSpec.

Lemma blankKnown_invalid nodeIds e :
  Edge.source e ≠ EmptyString → Edge.target e ≠ EmptyString →
  (Edge.source (blankKnown nodeIds e) ≠ EmptyString
   ∨ Edge.target (blankKnown nodeIds e) ≠ EmptyString)
  ↔ offending nodeIds e.
Proof.
  intros Hs Ht. unfold offending, blankKnown, includes. simpl.
  destruct (decide (Edge.source e ∈ nodeIds)) as [Hi|Hi];
    destruct (decide (Edge.target e ∈ nodeIds)) as [Hj|Hj];
    rewrite ?(bool_decide_eq_true_2 _ Hi), ?(bool_decide_eq_false_2 _ Hi),
      ?(bool_decide_eq_true_2 _ Hj), ?(bool_decide_eq_false_2 _ Hj);
    naive_solver.
Qed.

Lemma edgeMessage_blankKnown nodeIds e :
  Edge.source e ≠ EmptyString → Edge.target e ≠ EmptyString →
  offending nodeIds e →
  edgeMessage (blankKnown nodeIds e) = missingEndpoints nodeIds e.
Proof.
  intros Hs Ht Hoff.
  unfold edgeMessage, missingEndpoints, blankKnown, includes, offending in *.
  simpl.
  destruct (decide (Edge.source e ∈ nodeIds)) as [Hi|Hi];
    destruct (decide (Edge.target e ∈ nodeIds)) as [Hj|Hj];
    rewrite ?(bool_decide_eq_true_2 _ Hi), ?(bool_decide_eq_false_2 _ Hi),
      ?(bool_decide_eq_true_2 _ Hj), ?(bool_decide_eq_false_2 _ Hj);
    repeat (destruct (decide _); try done); naive_solver.
Qed.

Lemma invalidEdges_offending nodeIds (es : list Edge.t) :
  (∀ e, e ∈ es → Edge.source e ≠ EmptyString ∧ Edge.target e ≠ EmptyString) →
  filter (λ e, Edge.source e ≠ EmptyString ∨ Edge.target e ≠ EmptyString)
    (blankKnown nodeIds <$> es)
  = blankKnown nodeIds <$> filter (offending nodeIds) es.
Proof.
  induction es as [|e es IH]; intros Hne; [done|].
  assert (He : Edge.source e ≠ EmptyString ∧ Edge.target e ≠ EmptyString)
    by (apply Hne; left).
  destruct He as [Hs Ht].
  rewrite fmap_cons, !filter_cons, IH by (intros; apply Hne; by right).
  pose proof (blankKnown_invalid nodeIds e Hs Ht) as Hiff.
  repeat case_decide; naive_solver.
Qed.

(** X1.  On graphs without empty ids, [validateGraph] returns exactly when every
    endpoint is known, and otherwise throws one error listing, in order,
    every offending edge with its missing endpoints. *)
Lemma validateGraph_nonEmpty g :
  endpointsNonEmpty g →
  (endpointsKnown g ∧ validateGraph g = Ok tt)
  ∨ (¬ endpointsKnown g
     ∧ validateGraph g =
         Throw ("Graph '" +:+ name g
                  +:+ "' is invalid due to the following edges: "
                  +:+ join "; " (missingEndpoints (MapSet.keys (nodes g)) <$>
                                   filter (offending (MapSet.keys (nodes g)))
                                     (MapSet.values (edges g))))).
Proof.
  intros Hne. unfold validateGraph, MapSet.map.
  rewrite (invalidEdges_offending _ _ Hne).
  set (bad := filter _ (MapSet.values (edges g))).
  destruct bad as [|b bad'] eqn:Hbad.
  - left. split; [|done].
    intros e He. subst bad.
    destruct (decide (offending (MapSet.keys (nodes g)) e)) as [Hoff|Hoff].
    + exfalso. eapply filter_nil_not_elem_of; eauto.
    + unfold offending in Hoff.
      split; apply dec_stable; naive_solver.
  - right. split.
    + intros Hall.
      assert (Hb : b ∈ bad) by (rewrite Hbad; left).
      subst bad. apply list_elem_of_filter in Hb as [Hoff Hin].
      destruct (Hall b Hin). unfold offending in Hoff. naive_solver.
    + rewrite decide_False by (rewrite length_fmap; simpl; lia).
      rewrite <- Hbad. subst bad.
      do 4 f_equal. rewrite <- list_fmap_compose. f_equal.
      apply list_fmap_ext. intros i e He. simpl.
      apply list_elem_of_lookup_2, list_elem_of_filter in He as [Hoff He].
      destruct (Hne e He). by apply edgeMessage_blankKnown.
Qed.

(** Scenario D: the union of G1 and G2 is valid; with an edge to a node of
    neither graph the merge fails and names the edge. *)
Lemma new_scenarioD :
  new [Scenarios.scenarioD_G1; Scenarios.scenarioD_G2]
  = Ok {| name := "Merged graph of 'G1, G2'";
          nodes := [("X", Scenarios.moduleNode "X"); ("Y", Scenarios.moduleNode "Y");
                    ("Z", Scenarios.moduleNode "Z")];
          edges := [("e1", Edge.mk "e1" "X" "Y" "calls" 1);
                    ("e2", Edge.mk "e2" "Y" "Z" "calls" 1)] |}
  ∧ new [Scenarios.scenarioD_G1; Scenarios.scenarioD_G2_broken]
    = Throw "Graph 'Merged graph of 'G1, G2'' is invalid due to the following edges: Edge 'e2': unknown target 'W'".
Proof. by vm_compute. Qed.

(** The empty string is the mark of a known endpoint in [validateGraph], so
    the validation can say nothing of an edge whose endpoint is the empty
    string, which is the element id of no node: ids are required to be
    non-empty below. *)
Lemma validateGraph_empty_id_unreported :
  ¬ endpointsKnown emptySourceGraph
  ∧ validateGraph emptySourceGraph = Ok tt
  ∧ new [emptySourceGraph] = Ok emptySourceGraph
  ∧ validateGraph emptySourceUnknownTargetGraph
    = Throw "Graph 'G' is invalid due to the following edges: Edge 'e2': unknown target 'Z'".
Proof.
  split; [|by vm_compute].
  intros Hall.
  destruct (Hall (Edge.mk "e1" EmptyString "B" "calls" 1)) as [Hsrc _].
  - vm_compute. left.
  - vm_compute in Hsrc. apply list_elem_of_singleton in Hsrc. discriminate.
Qed.

Lemma offending_none g :
  filter (offending (MapSet.keys (nodes g))) (MapSet.values (edges g)) = []
  ↔ endpointsKnown g.
Proof.
  unfold endpointsKnown. split.
  - intros Hnil e He.
    destruct (decide (offending (MapSet.keys (nodes g)) e)) as [Hoff|Hoff].
    + exfalso. eapply filter_nil_not_elem_of; eauto.
    + unfold offending in Hoff. split; apply dec_stable; naive_solver.
  - intros Hall.
    destruct (filter _ _) as [|b bad] eqn:Hbad; [done|].
    assert (Hb : b ∈ filter (offending (MapSet.keys (nodes g))) (MapSet.values (edges g)))
      by (rewrite Hbad; left).
    apply list_elem_of_filter in Hb as [Hoff Hin].
    destruct (Hall b Hin). unfold offending in Hoff. naive_solver.
Qed.

Lemma validateGraph_offending g :
  endpointsNonEmpty g →
  validateGraph g
  = match filter (offending (MapSet.keys (nodes g))) (MapSet.values (edges g)) with
    | [] => Ok tt
    | _ => Throw (invalidGraphError g)
    end.
Proof.
  intros Hne. unfold validateGraph, invalidGraphError, MapSet.map.
  rewrite (invalidEdges_offending _ _ Hne).
  set (bad := filter _ (MapSet.values (edges g))).
  assert (Hbad : ∀ e, e ∈ bad →
            edgeMessage (blankKnown (MapSet.keys (nodes g)) e)
            = missingEndpoints (MapSet.keys (nodes g)) e).
  { intros e [Hoff He]%list_elem_of_filter.
    destruct (Hne e He). by apply edgeMessage_blankKnown. }
  destruct bad as [|b bad']; [done|].
  rewrite decide_False by (rewrite length_fmap; simpl; lia).
  do 4 f_equal. rewrite <- list_fmap_compose. f_equal.
  apply list_fmap_ext. intros i e He. apply Hbad. by eapply list_elem_of_lookup_2.
Qed.

Lemma validated_nonEmpty graphs :
  Forall endpointsNonEmpty graphs → endpointsNonEmpty (validated graphs).
Proof.
  intros Hall.
  assert (Hmerged : endpointsNonEmpty (mergeGraphs graphs)).
  { intros e He. unfold MapSet.values in He.
    apply list_elem_of_fmap in He as ([k e'] & -> & He).
    apply ofList_elem in He as [_ He]. cbn [snd].
    apply list_elem_of_join in He as (es & He & Hes).
    apply list_elem_of_fmap in Hes as (g & -> & Hg).
    rewrite Forall_forall in Hall. by apply (Hall g Hg). }
  destruct graphs as [|g [|g' graphs]]; [done| |done].
  by apply Forall_cons in Hall as [? _].
Qed.

(** C1.  The constructor validates the graph that it was given or the merge
    of the graphs that it was given.  When the endpoints of the edges are
    element ids, which are never empty, the validation throws exactly when an
    endpoint of some edge is no node of this graph: then the constructor
    throws a single error, which names every offending edge with the
    endpoints of it that are missing, and returns no graph; when every
    endpoint is a node, no error is raised and the graph is returned as it
    is. *)
Theorem new_validates graphs :
  Forall endpointsNonEmpty graphs →
  (endpointsKnown (validated graphs)
   ∧ validateGraph (validated graphs) = Ok tt
   ∧ new graphs = Ok (validated graphs))
  ∨ (¬ endpointsKnown (validated graphs)
     ∧ validateGraph (validated graphs) = Throw (invalidGraphError (validated graphs))
     ∧ new graphs = Throw (invalidGraphError (validated graphs))).
Proof.
  intros Hne%validated_nonEmpty.
  assert (Hnew : new graphs = match validateGraph (validated graphs) with
                              | Ok _ => Ok (validated graphs)
                              | Throw m => Throw m
                              end).
  { by destruct graphs as [|g [|g' graphs]]. }
  rewrite Hnew, (validateGraph_offending _ Hne).
  pose proof (offending_none (validated graphs)) as Hiff.
  destruct (filter _ _) as [|b bad].
  - left. split_and!; [by apply Hiff|done..].
  - right. split_and!; [|done..]. by intros [=]%Hiff.
Qed.

(** The merge of G1 and the broken G2 of scenario D is refused, and the error
    names the edge e2 and its target W. *)
Lemma new_validates_witness :
  new [Scenarios.scenarioD_G1; Scenarios.scenarioD_G2_broken]
  = Throw "Graph 'Merged graph of 'G1, G2'' is invalid due to the following edges: Edge 'e2': unknown target 'W'".
Proof.
  assert (Hne : Forall endpointsNonEmpty
                   [Scenarios.scenarioD_G1; Scenarios.scenarioD_G2_broken]).
  { repeat apply Forall_cons_2; [..|apply Forall_nil_2];
      intros e He; vm_compute in He; elem_cases He; by simplify_eq. }
  destruct (new_validates _ Hne) as [(Hknown & _)|(_ & _ & ->)]; [|done].
  destruct (Hknown (Edge.mk "e2" "Y" "W" "calls" 1)) as [_ Ht].
  - vm_compute. right. left.
  - vm_compute in Ht. elem_cases Ht; by simplify_eq.
Defined.
End validation.

(** ** The abstraction engine: edges *)

Section engine_edges.
Import GraphProcessingService EngineSpec.

Implicit Types (e : Edge.t) (l acc : list Edge.t) (r : Rel.t)
  (rs : list Rel.t) (seen : list string).

(** *** [getAllEdges] *)

Lemma getAllEdges_map_sound seen rs e :
  e ∈ omap id (getAllEdges_map seen rs) →
  Edge.id e ∉ seen ∧ ∃ r, r ∈ rs ∧ e = toEdgeData r.
Proof.
  revert seen. induction rs as [|r rs IH]; intros seen; simpl.
  - by intros ?%elem_of_nil.
  - unfold includes. case_bool_decide as Hseen; simpl.
    + intros [? (r' & ? & ?)]%IH. split; [done|]. exists r'. split; [by right|done].
    + intros [->|He]%elem_of_cons.
      * split; [done|]. exists r. split; [left|done].
      * apply IH in He as [Hn (r' & ? & ?)].
        split; [set_solver|]. exists r'. split; [by right|done].
Qed.

Lemma getAllEdges_map_complete seen rs r :
  r ∈ rs → Rel.elementId r ∉ seen →
  Rel.elementId r ∈ Edge.id <$> omap id (getAllEdges_map seen rs).
Proof.
  revert seen. induction rs as [|r' rs IH]; intros seen Hin Hseen.
  - by apply elem_of_nil in Hin.
  - simpl. unfold includes. case_bool_decide as Hseen'; simpl.
    + apply elem_of_cons in Hin as [->|Hin]; [done|]. by apply IH.
    + destruct (decide (Rel.elementId r = Rel.elementId r')) as [Heq|Hne].
      * rewrite Heq. left.
      * right. apply elem_of_cons in Hin as [->|Hin]; [done|].
        apply IH; [done|]. set_solver.
Qed.

Lemma getAllEdges_map_NoDup seen rs :
  NoDup (Edge.id <$> omap id (getAllEdges_map seen rs)).
Proof.
  revert seen. induction rs as [|r rs IH]; intros seen; simpl.
  - constructor.
  - unfold includes. case_bool_decide; simpl; [apply IH|].
    constructor; [|apply IH].
    intros (e & Hid & He)%list_elem_of_fmap.
    apply getAllEdges_map_sound in He as [Hn _].
    apply Hn. rewrite <- Hid. simpl. set_solver.
Qed.

Lemma getAllEdges_sound records e :
  e ∈ getAllEdges records → ∃ r, r ∈ rawEdges records ∧ e = toEdgeData r.
Proof. intros He. by apply getAllEdges_map_sound in He as [_ ?]. Qed.

Lemma getAllEdges_complete records r :
  r ∈ rawEdges records → Rel.elementId r ∈ Edge.id <$> getAllEdges records.
Proof. intros. apply getAllEdges_map_complete; [done|]. apply not_elem_of_nil. Qed.

Lemma getAllEdges_NoDup records : NoDup (Edge.id <$> getAllEdges records).
Proof. apply getAllEdges_map_NoDup. Qed.

Lemma getAllEdges_weight records e : e ∈ getAllEdges records → Edge.weight e = 1%nat.
Proof. by intros (r & _ & ->)%getAllEdges_sound. Qed.

Lemma getAllEdges_ids records x :
  x ∈ Edge.id <$> getAllEdges records ↔ x ∈ Rel.elementId <$> rawEdges records.
Proof.
  split.
  - intros (e & -> & (r & Hr & ->)%getAllEdges_sound)%list_elem_of_fmap.
    apply list_elem_of_fmap. by exists r.
  - intros (r & -> & Hr)%list_elem_of_fmap. by apply getAllEdges_complete.
Qed.

(** *** [mergeDuplicateEdges] *)

Lemma mergeDuplicateEdges_snoc l x :
  mergeDuplicateEdges (l ++ [x]) =
  match list_find (λ e, Edge.source e = Edge.source x ∧ Edge.target e = Edge.target x)
          (mergeDuplicateEdges l) with
  | None => mergeDuplicateEdges l ++ [x]
  | Some (index, e) =>
      <[index := addWeight e (Edge.weight x)]> (mergeDuplicateEdges l)
  end.
Proof. unfold mergeDuplicateEdges. by rewrite foldl_snoc. Qed.

Lemma pair_eq e e' :
  Edge.pair e = Edge.pair e' ↔
  Edge.source e = Edge.source e' ∧ Edge.target e = Edge.target e'.
Proof.
  unfold Edge.pair. split; [by intros [= ? ?]|by intros [-> ->]].
Qed.

Lemma weightOf_snoc p l x :
  weightOf p (l ++ [x]) =
  (weightOf p l + if decide (Edge.pair x = p) then Edge.weight x else 0)%nat.
Proof.
  unfold weightOf. rewrite filter_app, sum_list_with_app. f_equal.
  rewrite filter_cons, filter_nil. case_decide; simpl; lia.
Qed.

Lemma weightOf_absent p l :
  (∀ e, e ∈ l → Edge.pair e ≠ p) → weightOf p l = 0%nat.
Proof.
  intros Hno. unfold weightOf.
  replace (filter (λ e, Edge.pair e = p) l) with (@nil Edge.t); [done|].
  symmetry. induction l as [|e l IH]; [done|].
  rewrite filter_cons_False by (apply Hno; left).
  apply IH. intros; apply Hno; by right.
Qed.

Lemma weightOf_Permutation p l1 l2 : l1 ≡ₚ l2 → weightOf p l1 = weightOf p l2.
Proof.
  intros Hp. unfold weightOf.
  assert (Hf : filter (λ e, Edge.pair e = p) l1 ≡ₚ filter (λ e, Edge.pair e = p) l2)
    by (by rewrite Hp).
  induction Hf; simpl; lia.
Qed.

(** The characterisation of the deduplicated list: one edge per pair of
    endpoints, which is the first edge of the input between these endpoints
    with the weights of all of them added up. *)
Lemma mergeDuplicateEdges_spec l :
  NoDup (Edge.pair <$> mergeDuplicateEdges l)
  ∧ (∀ e', e' ∈ mergeDuplicateEdges l →
       Edge.weight e' = weightOf (Edge.pair e') l
       ∧ ∃ i e, list_find (λ e, Edge.pair e = Edge.pair e') l = Some (i, e)
                ∧ sameAttributes e e')
  ∧ (∀ e, e ∈ l → Edge.pair e ∈ Edge.pair <$> mergeDuplicateEdges l).
Proof.
  induction l as [|x l (IHnd & IHw & IHin)] using rev_ind.
  { split_and!; [constructor|by intros ? ?%elem_of_nil..]. }
  rewrite mergeDuplicateEdges_snoc.
  set (acc := mergeDuplicateEdges l) in *.
  destruct (list_find _ acc) as [[i e0]|] eqn:Hfind.
  - apply list_find_Some in Hfind as (Hi & HP%pair_eq & _).
    assert (Hpairs : Edge.pair <$> <[i := addWeight e0 (Edge.weight x)]> acc
                     = Edge.pair <$> acc).
    { rewrite list_fmap_insert. apply list_insert_id.
      by rewrite list_lookup_fmap, Hi. }
    rewrite Hpairs. split_and!; [done| |].
    + intros e' (j & Hj)%list_elem_of_lookup.
      apply list_lookup_insert_Some in Hj as [(<- & <- & _)|(Hne & Hj)].
      * destruct (IHw e0) as (Hw & k & e & Hk & Hsame);
          [by eapply list_elem_of_lookup_2|].
        change (Edge.pair (addWeight e0 (Edge.weight x))) with (Edge.pair e0).
        split.
        -- rewrite weightOf_snoc, decide_True by done. simpl. by rewrite Hw.
        -- exists k, e. split; [by apply list_find_app_l|done].
      * destruct (IHw e') as (Hw & k & e & Hk & Hsame);
          [by eapply list_elem_of_lookup_2|].
        assert (Edge.pair x ≠ Edge.pair e').
        { rewrite <- HP. intros Heq. apply Hne.
          eapply (NoDup_lookup (Edge.pair <$> acc)); [done|..];
            rewrite list_lookup_fmap; [by rewrite Hi|by rewrite Hj, Heq]. }
        split.
        -- rewrite weightOf_snoc, decide_False by done. lia.
        -- exists k, e. split; [by apply list_find_app_l|done].
    + intros e [He| ->%list_elem_of_singleton]%elem_of_app; [by apply IHin|].
      rewrite <- HP. apply list_elem_of_fmap. exists e0.
      split; [done|by eapply list_elem_of_lookup_2].
  - apply list_find_None in Hfind. rewrite Forall_forall in Hfind.
    assert (Hfresh : ∀ e, e ∈ acc → Edge.pair e ≠ Edge.pair x).
    { intros e He Heq%pair_eq. by apply (Hfind e). }
    assert (Hfresh' : ∀ e, e ∈ l → Edge.pair e ≠ Edge.pair x).
    { intros e (e' & Heq & He')%IHin%list_elem_of_fmap.
      rewrite Heq. by apply Hfresh. }
    split_and!.
    + rewrite fmap_app. apply NoDup_app. split_and!; [done| |apply NoDup_singleton].
      intros p (e & -> & He)%list_elem_of_fmap Heq%list_elem_of_singleton.
      by apply (Hfresh e).
    + intros e' [He'| ->%list_elem_of_singleton]%elem_of_app.
      * destruct (IHw e' He') as (Hw & k & e & Hk & Hsame).
        split.
        -- rewrite weightOf_snoc, decide_False; [lia|].
           intros Heq. by apply (Hfresh e').
        -- exists k, e. split; [by apply list_find_app_l|done].
      * split.
        -- rewrite weightOf_snoc, decide_True, weightOf_absent by done. lia.
        -- exists (length l), x. split; [|done].
           rewrite list_find_app_r.
           ++ simpl. rewrite decide_True by done. done.
           ++ apply list_find_None, Forall_forall. intros e He. by apply Hfresh'.
    + intros e [He| ->%list_elem_of_singleton]%elem_of_app; rewrite fmap_app.
      * apply elem_of_app. left. by apply IHin.
      * apply elem_of_app. right. left.
Qed.

Lemma weightOf_unit_weights p l :
  (∀ e, e ∈ l → Edge.weight e = 1%nat) → weightOf p l = countOf p l.
Proof.
  intros Hone. unfold weightOf, countOf.
  assert (Hall : ∀ e, e ∈ filter (λ e, Edge.pair e = p) l → Edge.weight e = 1%nat).
  { intros e [_ He]%list_elem_of_filter. by apply Hone. }
  induction (filter _ l) as [|e k IH]; [done|]. simpl.
  rewrite (Hall e) by left. f_equal. apply IH. intros; apply Hall; by right.
Qed.
End engine_edges.

(** ** The abstraction engine: nodes and the rendered graph *)

Section engine_nodes.
Import GraphProcessingService EngineSpec OrphanSpec.

Lemma firstOccurrences_elem (all : list string) x :
  x ∈ firstOccurrences all ↔ x ∈ all.
Proof.
  unfold firstOccurrences. rewrite list_elem_of_omap. split.
  - intros ([i n1] & Hin & Hsome).
    apply elem_of_lookup_imap in Hin as (j & y & [= -> ->] & Hj).
    case_decide; simplify_eq. by eapply list_elem_of_lookup_2.
  - intros Hin.
    destruct (list_find_elem_of (λ n2, x = n2) all x Hin eq_refl) as [[i y] Hfind].
    pose proof Hfind as (Hi & <- & _)%list_find_Some.
    exists (i, x). split.
    + by apply (elem_of_lookup_imap_2 (λ i n1, (i, n1))).
    + rewrite Hfind. simpl. by rewrite decide_True.
Qed.

Lemma filterNodesByEdges_elem (ns : list Node.t) (es : list Edge.t) n :
  n ∈ filterNodesByEdges ns es ↔ n ∈ ns ∧ Node.id n ∈ endpoints es.
Proof.
  unfold filterNodesByEdges, includes. rewrite list_elem_of_filter.
  rewrite bool_decide_eq_true, firstOccurrences_elem. unfold endpoints. tauto.
Qed.

Lemma endpoints_elem (es : list Edge.t) x :
  x ∈ endpoints es ↔ ∃ e, e ∈ es ∧ (x = Edge.source e ∨ x = Edge.target e).
Proof.
  unfold endpoints. rewrite list_elem_of_join. split.
  - intros (l & Hx & (e & -> & He)%list_elem_of_fmap).
    exists e. split; [done|]. set_solver.
  - intros (e & He & Hx). exists [Edge.source e; Edge.target e]. split.
    + set_solver.
    + apply list_elem_of_fmap. by exists e.
Qed.

Lemma addParentRelationship_ids (ns : list Node.t) (es : list Edge.t) :
  Node.id <$> addParentRelationship ns es = Node.id <$> ns.
Proof.
  unfold addParentRelationship. revert ns.
  induction es as [|e es IH]; intros ns; [done|]. simpl.
  destruct (list_find _ ns) as [[i target]|] eqn:Hfind; [|apply IH].
  apply list_find_Some in Hfind as (Hi & _ & _).
  rewrite IH, list_fmap_insert. apply list_insert_id.
  by rewrite list_lookup_fmap, Hi.
Qed.

Lemma formatToLPG_nodes original name options :
  Node.id <$> nodes (formatToLPG original name options)
  = Node.id <$> filterNodesByEdges (original_nodes original)
                  (mergedEdges original (maxDepth options)).
Proof.
  unfold formatToLPG, replaceEdgeWithParentRelationship. simpl.
  apply addParentRelationship_ids.
Qed.

Lemma formatToLPG_edges original name options :
  edges (formatToLPG original name options)
  = let dependencyEdges :=
      filter (λ e, Edge.interaction e ≠ "contains")
        (mergedEdges original (maxDepth options)) in
    match selfEdges options with
    | Some false => filterSelfEdges dependencyEdges
    | _ => dependencyEdges
    end.
Proof. done. Qed.

Lemma formatToLPG_node_ids original name options x :
  x ∈ Node.id <$> nodes (formatToLPG original name options)
  ↔ x ∈ Node.id <$> original_nodes original
    ∧ x ∈ endpoints (mergedEdges original (maxDepth options)).
Proof.
  rewrite formatToLPG_nodes, !list_elem_of_fmap. split.
  - intros (n & -> & [Hn Hend]%filterNodesByEdges_elem). eauto.
  - intros [(n & -> & Hn) Hend]. exists n. split; [done|].
    by apply filterNodesByEdges_elem.
Qed.

Lemma formatToLPG_edges_merged original name options e :
  e ∈ edges (formatToLPG original name options) →
  e ∈ mergedEdges original (maxDepth options).
Proof.
  rewrite formatToLPG_edges. simpl.
  destruct (selfEdges options) as [[]|]; unfold filterSelfEdges;
    rewrite ?list_elem_of_filter; tauto.
Qed.

(** The graph of [containedCaller] has an edge whose source is none of its
    nodes. *)
Lemma formatToLPG_orphan_edge :
  ¬ noOrphanEdges (formatToLPG containedCaller "dependencies" (mkOptions None None)).
Proof.
  intros Hall.
  destruct (Hall (Edge.mk "e1" "M1" "M2" "calls" 1)) as [Hsrc _].
  - vm_compute. left.
  - vm_compute in Hsrc. set_solver.
Qed.

(** C8 (amended).  Every node that [formatToLPG] returns is a node of the
    pre-processor and an endpoint of an edge of the deduplicated edge list;
    an endpoint of a returned edge is among the returned nodes exactly when
    the pre-processor has a node with this id. *)
Theorem formatToLPG_nodes_on_edges original name options :
  let g := formatToLPG original name options in
  let merged := mergedEdges original (maxDepth options) in
  (∀ n, n ∈ nodes g →
     Node.id n ∈ Node.id <$> original_nodes original
     ∧ ∃ e, e ∈ merged ∧ (Node.id n = Edge.source e ∨ Node.id n = Edge.target e))
  ∧ (∀ e, e ∈ edges g →
       (Edge.source e ∈ Node.id <$> nodes g
        ↔ Edge.source e ∈ Node.id <$> original_nodes original)
       ∧ (Edge.target e ∈ Node.id <$> nodes g
          ↔ Edge.target e ∈ Node.id <$> original_nodes original)).
Proof.
  intros g merged. split.
  - intros n Hn.
    assert (Hid : Node.id n ∈ Node.id <$> nodes g)
      by (apply list_elem_of_fmap; eauto).
    apply formatToLPG_node_ids in Hid as [Horig Hend].
    split; [done|]. by apply endpoints_elem.
  - intros e He%formatToLPG_edges_merged.
    subst g. rewrite !formatToLPG_node_ids.
    assert (Edge.source e ∈ endpoints (mergedEdges original (maxDepth options)))
      by (apply endpoints_elem; eauto).
    assert (Edge.target e ∈ endpoints (mergedEdges original (maxDepth options)))
      by (apply endpoints_elem; eauto).
    tauto.
Qed.

(** Scenario A: with the cutoff 0 both modules collapse onto D; the graph
    has the node D and the self-edge of D with weight 1, and no edge when
    self-edges are disabled. *)
Lemma formatToLPG_scenarioA :
  formatToLPG Scenarios.scenarioA "dependencies" (mkOptions (Some 0) None)
  = {| name := "dependencies";
       nodes := [Node.mk "D" "D" "domain" "Domain" "#fff" 0 "true" None];
       edges := [Edge.mk "e1" "D" "D" "calls" 1] |}
  ∧ edges (formatToLPG Scenarios.scenarioA "dependencies" (mkOptions (Some 0) (Some false)))
    = [].
Proof. by vm_compute. Qed.

(** C10.  The self-edge filter is applied only when [selfEdges] is [false]:
    when it is omitted or [true], the returned edges are the deduplicated
    edges that are no containment edges, self-edges included; when it is
    [false], the self-edges are taken out of them. *)
Theorem formatToLPG_selfEdges_only_when_false original name maxDepth :
  let dependencyEdges :=
    filter (λ e, Edge.interaction e ≠ "contains") (mergedEdges original maxDepth) in
  edges (formatToLPG original name (mkOptions maxDepth None)) = dependencyEdges
  ∧ edges (formatToLPG original name (mkOptions maxDepth (Some true))) = dependencyEdges
  ∧ edges (formatToLPG original name (mkOptions maxDepth (Some false)))
    = filter (λ e, Edge.source e ≠ Edge.target e) dependencyEdges
  ∧ (∀ selfEdges e,
       selfEdges ≠ Some false →
       e ∈ mergedEdges original maxDepth →
       Edge.interaction e ≠ "contains" →
       Edge.source e = Edge.target e →
       e ∈ edges (formatToLPG original name (mkOptions maxDepth selfEdges)))
  ∧ (∀ e, e ∈ edges (formatToLPG original name (mkOptions maxDepth (Some false))) →
          Edge.source e ≠ Edge.target e).
Proof.
  intros dependencyEdges. split_and!; [done..| |].
  - intros selfEdges e Hgate He Hdep Hself.
    rewrite formatToLPG_edges. simpl.
    destruct selfEdges as [[]|]; [|done|]; by apply list_elem_of_filter.
  - intros e. rewrite formatToLPG_edges. simpl. unfold filterSelfEdges.
    by intros [? _]%list_elem_of_filter.
Qed.
End engine_nodes.

(** ** Weight conservation *)

Section weight_conservation.
Import GraphProcessingService EngineSpec Scenarios.

(** C4.  After the deduplication of the edges of any list of records there
    is at most one edge for every pair of source and target, and its weight
    is the number of raw edges, one for every distinct element id, between
    this source and target; so it is for the edges that [formatToLPG]
    returns, and two dependencies from A to B with distinct ids are rendered
    as the single edge from A to B with weight 2. *)
Theorem mergeDuplicateEdges_weight_conservation :
  (∀ records : list Path.t,
     let raw := getAllEdges records in
     let merged := mergeDuplicateEdges raw in
     NoDup (Edge.id <$> raw)
     ∧ (∀ x, x ∈ Edge.id <$> raw ↔ x ∈ Rel.elementId <$> rawEdges records)
     ∧ NoDup (Edge.pair <$> merged)
     ∧ (∀ e, e ∈ raw → Edge.pair e ∈ Edge.pair <$> merged)
     ∧ (∀ e', e' ∈ merged → Edge.weight e' = countOf (Edge.pair e') raw))
  ∧ (∀ original name options e',
       e' ∈ edges (formatToLPG original name options) →
       Edge.weight e'
       = countOf (Edge.pair e')
           (getAllEdges (abstractedRecords original (maxDepth options))))
  ∧ edges (formatToLPG scenarioB "dependencies" (mkOptions None None))
    = [Edge.mk "e1" "A" "B" "calls" 2].
Proof.
  assert (Hweight : ∀ records e',
    e' ∈ mergeDuplicateEdges (getAllEdges records) →
    Edge.weight e' = countOf (Edge.pair e') (getAllEdges records)).
  { intros records e' He'.
    destruct (mergeDuplicateEdges_spec (getAllEdges records)) as (_ & Hw & _).
    destruct (Hw e' He') as [-> _].
    apply weightOf_unit_weights. intros e. apply getAllEdges_weight. }
  split_and!; [| |by vm_compute].
  - intros records raw merged.
    destruct (mergeDuplicateEdges_spec raw) as (Hnd & _ & Hin).
    split_and!; [apply getAllEdges_NoDup|apply getAllEdges_ids|done..|].
    apply Hweight.
  - intros original name options e' He'%formatToLPG_edges_merged.
    by apply Hweight.
Qed.
End weight_conservation.

(** ** The abstraction map *)

Section abstraction_map.
Import GraphProcessingService EngineSpec AbstractionSpec.

Implicit Types (m : gmap string string) (run : list Rel.t)
  (runs : list (list Rel.t)) (k v : string).

Lemma foldl_insert_lookup v (l : list Rel.t) m k :
  foldl (λ m edge, <[Rel.endNodeElementId edge := v]> m) m l !! k
  = if decide (k ∈ Rel.endNodeElementId <$> l) then Some v else m !! k.
Proof.
  revert m. induction l as [|e l IH]; intros m.
  - rewrite decide_False; [done|apply not_elem_of_nil].
  - simpl foldl. rewrite IH, fmap_cons. destruct (decide (k ∈ Rel.endNodeElementId <$> l)) as [Hin|Hin].
    + rewrite decide_True; [done|by right].
    + destruct (decide (k = Rel.endNodeElementId e)) as [->|Hne].
      * rewrite decide_True by left. apply lookup_insert_eq.
      * rewrite decide_False by (intros [?|?]%elem_of_cons; done).
        by apply lookup_insert_ne.
Qed.

Lemma addToReplaceMap_lookup m run k :
  addToReplaceMap m run !! k
  = if decide (k ∈ runEnds run) then runTarget run else m !! k.
Proof.
  destruct run as [|first rest].
  - rewrite decide_False; [done|apply not_elem_of_nil].
  - unfold addToReplaceMap. apply foldl_insert_lookup.
Qed.

Lemma runTarget_is_Some run k : k ∈ runEnds run → is_Some (runTarget run).
Proof. destruct run; [by intros ?%elem_of_nil|by eexists]. Qed.

Lemma replaceMap_lookup runs m k v :
  foldl addToReplaceMap m runs !! k = Some v
  ↔ mappedByLast runs k v
    ∨ ((∀ run, run ∈ runs → k ∉ runEnds run) ∧ m !! k = Some v).
Proof.
  induction runs as [|run runs IH] using rev_ind.
  - simpl. split.
    + intros Hm. right. split; [by intros ? ?%elem_of_nil|done].
    + intros [(pre & run & post & Heq & _)|[_ Hm]]; [|done].
      by destruct pre.
  - rewrite foldl_snoc, addToReplaceMap_lookup.
    destruct (decide (k ∈ runEnds run)) as [Hin|Hin].
    + split.
      * intros Ht. left. exists runs, run, []. split_and!; try done.
        by intros ? ?%elem_of_nil.
      * intros [(pre & run' & post & Heq & Hk & Hpost & Ht)|[Hno _]].
        -- destruct post as [|p post _] using rev_ind.
           ++ apply app_inj_tail in Heq as [_ ->]. done.
           ++ rewrite app_comm_cons, app_assoc in Heq.
              apply app_inj_tail in Heq as [_ <-].
              destruct (Hpost run); [|done]. apply elem_of_app. right. left.
        -- destruct (Hno run); [|done]. apply elem_of_app. right. left.
    + rewrite IH. split.
      * intros [(pre & run' & post & -> & Hk & Hpost & Ht)|[Hno Hm]].
        -- left. exists pre, run', (post ++ [run]).
           split_and!; [by rewrite <- app_assoc|done| |done].
           intros r [?| ->%list_elem_of_singleton]%elem_of_app; [by apply Hpost|done].
        -- right. split; [|done].
           intros r [?| ->%list_elem_of_singleton]%elem_of_app; [by apply Hno|done].
      * intros [(pre & run' & post & Heq & Hk & Hpost & Ht)|[Hno Hm]].
        -- left. destruct post as [|p post _] using rev_ind.
           ++ apply app_inj_tail in Heq as [_ ->]. done.
           ++ rewrite app_comm_cons, app_assoc in Heq.
              apply app_inj_tail in Heq as [-> ->].
              exists pre, run', post. split_and!; try done.
              intros r Hr. apply Hpost, elem_of_app. by left.
        -- right. split; [|done]. intros r Hr. apply Hno, elem_of_app. by left.
Qed.

Lemma replaceMap_lookup_empty runs k v :
  foldl addToReplaceMap ∅ runs !! k = Some v ↔ mappedByLast runs k v.
Proof.
  rewrite replaceMap_lookup. split; [|by left].
  intros [?|[_ Hm]]; [done|]. by rewrite lookup_empty in Hm.
Qed.

Lemma mappedByLast_elem runs k v :
  mappedByLast runs k v → ∃ run, run ∈ runs ∧ k ∈ runEnds run ∧ runTarget run = Some v.
Proof.
  intros (pre & run & post & -> & Hk & _ & Ht). exists run.
  split; [|done]. apply elem_of_app. right. left.
Qed.

Lemma mappedByLast_exists runs k :
  (∃ run, run ∈ runs ∧ k ∈ runEnds run) → ∃ v, mappedByLast runs k v.
Proof.
  induction runs as [|run runs IH] using rev_ind.
  - by intros (? & ?%elem_of_nil & _).
  - intros (run' & Hin & Hk).
    destruct (decide (k ∈ runEnds run)) as [Hlast|Hlast].
    + destruct (runTarget_is_Some run k Hlast) as [v Hv].
      exists v, runs, run, []. split_and!; try done. by intros ? ?%elem_of_nil.
    + apply elem_of_app in Hin as [Hin| ->%list_elem_of_singleton]; [|done].
      destruct IH as (v & pre & r & post & -> & ? & Hpost & ?); [by eauto|].
      exists v, pre, r, (post ++ [run]).
      split_and!; [by rewrite <- app_assoc|done| |done].
      intros r' [?| ->%list_elem_of_singleton]%elem_of_app; [by apply Hpost|done].
Qed.

Local Opaque spliceRecord.

(** [getAbstractionMap] folds the deleted runs of all records, in order, into
    the map and leaves every record spliced. *)
Lemma getAbstractionMap_unfold maxDepth (records : list Path.t) :
  getAbstractionMap maxDepth records
  = (foldl addToReplaceMap ∅ (allDeletedRuns maxDepth records),
     splicedRecord maxDepth <$> records).
Proof.
  unfold getAbstractionMap, allDeletedRuns.
  assert (Hgen : ∀ (done : list Path.t) m,
    foldl (λ '(replaceMap, done) record,
             let '(deletedSource, deletedTarget, record') :=
               spliceRecord maxDepth record in
             (addToReplaceMap (addToReplaceMap replaceMap deletedSource)
                deletedTarget, done ++ [record']))
      (m, done) records
    = (foldl addToReplaceMap m (mjoin (deletedRuns maxDepth <$> records)),
       done ++ (splicedRecord maxDepth <$> records))).
  { induction records as [|r records IH]; intros done m; simpl.
    - by rewrite app_nil_r.
    - unfold deletedRuns at 1, splicedRecord at 1.
      destruct (spliceRecord maxDepth r) as [[dS dT] r'] eqn:Hr. simpl.
      rewrite IH. by rewrite <- app_assoc. }
  by rewrite Hgen.
Qed.

Local Transparent spliceRecord.
End abstraction_map.

(** *** The deleted runs of well-formed records *)

Lemma splice_from_start {A} (l : list A) (start deleteCount : Z) :
  0 ≤ start → Z.of_nat (length l) - start ≤ deleteCount →
  splice l start deleteCount
  = (drop (Z.to_nat start) l, take (Z.to_nat start) l).
Proof.
  intros Hs Hc. unfold splice.
  rewrite (proj2 (Z.ltb_ge start 0)) by done.
  destruct (decide (start ≤ Z.of_nat (length l))) as [Hle|Hgt].
  - rewrite (Z.min_l start) by done.
    replace (Z.min (Z.max deleteCount 0) (Z.of_nat (length l) - start))
      with (Z.of_nat (length l) - start) by lia.
    f_equal.
    + apply take_ge. rewrite length_drop. lia.
    + rewrite (drop_ge l) by lia. by rewrite app_nil_r.
  - rewrite (Z.min_r start) by lia.
    replace (Z.min (Z.max deleteCount 0) (Z.of_nat (length l) - Z.of_nat (length l)))
      with 0 by lia.
    rewrite Nat2Z.id. simpl. rewrite Nat.add_0_r, take_drop.
    rewrite (drop_ge l (Z.to_nat start)), (take_ge l (Z.to_nat start)) by lia.
    done.
Qed.

Section abstraction_runs.
Import GraphProcessingService EngineSpec AbstractionSpec.

Lemma spliceRecord_design (maxDepth : nat) (record : Path.t) :
  Path.wellFormed record → targetCoversExcess maxDepth record →
  spliceRecord (Z.of_nat maxDepth) record
  = (sourceRun maxDepth record, targetRun maxDepth record, truncated maxDepth record).
Proof.
  intros [Hs Ht] Hcover. unfold spliceRecord, targetCoversExcess, excess in *.
  rewrite Hs, Ht.
  rewrite splice_from_start by lia.
  rewrite splice_from_start by lia.
  unfold sourceRun, targetRun, truncated, beyondCutoff, lastEdges, excess.
  rewrite Nat2Z.id.
  replace (Z.to_nat (Z.of_nat (length (Path.containTargetEdges record))
             - Z.max 0 (Z.of_nat (length (Path.containSourceEdges record))
                        - Z.of_nat maxDepth)))
    with (length (Path.containTargetEdges record)
          - (length (Path.containSourceEdges record) - maxDepth))%nat by lia.
  by rewrite Hs, Ht.
Qed.

Lemma getAbstractionMap_design (maxDepth : nat) (records : list Path.t) :
  Forall Path.wellFormed records →
  Forall (targetCoversExcess maxDepth) records →
  getAbstractionMap (Z.of_nat maxDepth) records
  = (foldl addToReplaceMap ∅ (designRuns maxDepth records),
     truncated maxDepth <$> records).
Proof.
  intros Hwf Hcover. rewrite getAbstractionMap_unfold.
  rewrite Forall_lookup in Hwf. rewrite Forall_lookup in Hcover.
  unfold allDeletedRuns, designRuns. f_equal.
  - do 2 f_equal. apply list_fmap_ext. intros i r Hr.
    unfold deletedRuns. by rewrite spliceRecord_design by eauto.
  - apply list_fmap_ext. intros i r Hr.
    unfold splicedRecord. by rewrite spliceRecord_design by eauto.
Qed.
End abstraction_runs.

Section legacy_abstraction_runs.
Import LegacyGraphProcessingService EngineSpec AbstractionSpec LegacyAbstractionSpec.

Lemma legacy_lookup_leading record :
  (2 ≤ length (chunks record))%nat → chunks record !! 0%nat = Some (leading record).
Proof.
  unfold leading. rewrite head_lookup.
  destruct (chunks record); simpl; [lia|done].
Qed.

Lemma legacy_lookup_trailing record :
  (2 ≤ length (chunks record))%nat →
  chunks record !! (length (chunks record) - 1)%nat = Some (trailing record).
Proof.
  unfold trailing. rewrite last_lookup, Nat.sub_1_r. intros Hlen.
  destruct (lookup_lt_is_Some_2 (chunks record) (pred (length (chunks record))))
    as [c Hc]; [lia|].
  by rewrite Hc.
Qed.

Local Opaque splice.

Lemma legacy_spliceRecord_design (maxDepth : nat) reverseDirection record :
  wellFormed record → coversExcess maxDepth reverseDirection record →
  spliceRecord (Z.of_nat maxDepth) reverseDirection record
  = Some (sourceRun maxDepth reverseDirection record,
          targetRun maxDepth reverseDirection record,
          truncated maxDepth reverseDirection record).
Proof.
  intros (Hlen & Hs & Ht) Hcover.
  unfold spliceRecord, coversExcess, sourceRun, targetRun, truncated in *.
  rewrite (legacy_lookup_leading record Hlen).
  rewrite (legacy_lookup_trailing record Hlen). simpl.
  rewrite Hs, Ht. unfold excess, beyondCutoff, lastEdges in *.
  destruct (falsy reverseDirection).
  - rewrite splice_from_start by lia.
    rewrite list_lookup_insert_ne by lia.
    rewrite (legacy_lookup_trailing record Hlen). simpl.
    rewrite splice_from_start by lia.
    rewrite Nat2Z.id.
    replace (Z.to_nat (Z.of_nat (length (trailing record))
               - Z.max 0 (Z.of_nat (length (leading record)) - Z.of_nat maxDepth)))
      with (length (trailing record) - (length (leading record) - maxDepth))%nat
      by lia.
    done.
  - rewrite splice_from_start by lia.
    rewrite list_lookup_insert_ne by lia.
    rewrite (legacy_lookup_trailing record Hlen). simpl.
    rewrite splice_from_start by lia.
    rewrite Nat2Z.id.
    replace (Z.to_nat (Z.of_nat (length (leading record))
               - Z.max 0 (Z.of_nat (length (trailing record)) - Z.of_nat maxDepth)))
      with (length (leading record) - (length (trailing record) - maxDepth))%nat
      by lia.
    done.
Qed.

Local Transparent splice.
Local Opaque spliceRecord.

Lemma legacy_getAbstractionMap_design (maxDepth : nat) reverseDirection
    (records : list Neo4jComponentPathWithChunks) :
  Forall wellFormed records →
  Forall (coversExcess maxDepth reverseDirection) records →
  getAbstractionMap records (Z.of_nat maxDepth) reverseDirection
  = Some (foldl GraphProcessingService.addToReplaceMap ∅
            (designRuns maxDepth reverseDirection records),
          truncated maxDepth reverseDirection <$> records).
Proof.
  intros Hwf Hcover. unfold getAbstractionMap, designRuns.
  assert (Hgen : ∀ (done : list Neo4jComponentPathWithChunks) (m : gmap string string),
    foldl (λ acc record,
             '(replaceMap, done) ← acc;
             '(deletedSource, deletedTarget, record') ←
               spliceRecord (Z.of_nat maxDepth) reverseDirection record;
             Some (GraphProcessingService.addToReplaceMap
                     (GraphProcessingService.addToReplaceMap replaceMap deletedSource)
                     deletedTarget,
                   done ++ [record']))
      (Some (m, done)) records
    = Some (foldl GraphProcessingService.addToReplaceMap m
              (mjoin ((λ record, [sourceRun maxDepth reverseDirection record;
                                  targetRun maxDepth reverseDirection record])
                        <$> records)),
            done ++ (truncated maxDepth reverseDirection <$> records))).
  { induction records as [|r records IH]; intros done m.
    - simpl. by rewrite app_nil_r.
    - apply Forall_cons in Hwf as [Hr Hwf]. apply Forall_cons in Hcover as [Hc Hcover].
      cbn [foldl]. simpl mbind at 2.
      rewrite (legacy_spliceRecord_design _ _ _ Hr Hc). simpl mbind.
      rewrite (IH Hwf Hcover). rewrite <- app_assoc. done. }
  by rewrite Hgen.
Qed.

Local Transparent spliceRecord.
End legacy_abstraction_runs.

(** ** Construction of the abstraction map *)

Section map_construction.
Import GraphProcessingService EngineSpec AbstractionSpec DocumentedRule.

(** The trailing chunk of [deepSource] does not exceed the cutoff 1, and yet
    its edge is deleted and entered in the map, because the leading chunk
    exceeds the cutoff by one edge. *)
Lemma getAbstractionMap_not_documented :
  ¬ documented false 1 [deepSource] (getAbstractionMap 1 [deepSource]).1
  ∧ ¬ documented true 1 [deepSource] (getAbstractionMap 1 [deepSource]).1.
Proof.
  assert (Hcode : (getAbstractionMap 1 [deepSource]).1 !! "Y" = Some "X")
    by (by vm_compute).
  split; intros Hdoc; apply Hdoc in Hcode as (r & ->%list_elem_of_singleton & Hin);
    vm_compute in Hin; apply list_elem_of_singleton in Hin; discriminate.
Qed.

(** C2 (amended).  For records whose recorded depths are the lengths of
    their containment chunks and a cutoff that is no negative number, the
    leading chunk loses its edges from the cutoff onward and the trailing
    chunk loses as many edges from its end, provided that it has as many; the
    legacy service does the same without the direction flag and exchanges the
    roles of the two chunks with it.  The map is made of the deleted runs in
    the order of the records, the run of the leading chunk before the run of
    the trailing chunk: the end of every deleted edge is mapped to the start
    of the first edge of the last run that deletes an edge with this end, and
    the map has no other entries. *)
Theorem getAbstractionMap_entries :
  (∀ (maxDepth : nat) (records : list Path.t),
     Forall Path.wellFormed records →
     Forall (targetCoversExcess maxDepth) records →
     (∀ k v, (getAbstractionMap (Z.of_nat maxDepth) records).1 !! k = Some v
             ↔ mappedByLast (designRuns maxDepth records) k v)
     ∧ (getAbstractionMap (Z.of_nat maxDepth) records).2
       = truncated maxDepth <$> records)
  ∧ (∀ (maxDepth : nat) (reverseDirection : option bool)
       (records : list LegacyGraphProcessingService.Neo4jComponentPathWithChunks),
       Forall LegacyAbstractionSpec.wellFormed records →
       Forall (LegacyAbstractionSpec.coversExcess maxDepth reverseDirection) records →
       ∃ replaceMap,
         LegacyGraphProcessingService.getAbstractionMap records
           (Z.of_nat maxDepth) reverseDirection
         = Some (replaceMap,
                 LegacyAbstractionSpec.truncated maxDepth reverseDirection <$> records)
         ∧ ∀ k v, replaceMap !! k = Some v
                  ↔ mappedByLast
                      (LegacyAbstractionSpec.designRuns maxDepth reverseDirection records)
                      k v).
Proof.
  split.
  - intros maxDepth records Hwf Hcover.
    rewrite getAbstractionMap_design by done. simpl. split; [|done].
    intros k v. apply replaceMap_lookup_empty.
  - intros maxDepth reverseDirection records Hwf Hcover.
    eexists. split; [by apply legacy_getAbstractionMap_design|].
    intros k v. apply replaceMap_lookup_empty.
Qed.

Lemma getAbstractionMap_entries_witness :
  (getAbstractionMap 1 [deepSource]).1 !! "Y" = Some "X"
  ∧ (∃ replaceMap records,
       LegacyGraphProcessingService.getAbstractionMap [deepSourceChunks] 1 (Some true)
       = Some (replaceMap, records)
       ∧ replaceMap !! "C" = None).
Proof.
  destruct getAbstractionMap_entries as [Hnew Hlegacy]. split.
  - destruct (Hnew 1%nat [deepSource]) as [Hmap _].
    + repeat constructor.
    + repeat constructor.
    + apply Hmap.
      exists [[Rel.mk "c2" "B" "C" "CONTAINS"]], [Rel.mk "c3" "X" "Y" "CONTAINS"], [].
      split_and!; [done|by left|by intros ? ?%elem_of_nil|done].
  - destruct (Hlegacy 1%nat (Some true) [deepSourceChunks]) as (m & Heq & Hmap).
    + repeat constructor.
    + repeat constructor.
    + exists m, (LegacyAbstractionSpec.truncated 1 (Some true) <$> [deepSourceChunks]).
      split; [exact Heq|].
      destruct (m !! "C") as [v|] eqn:Hv; [|done].
      apply Hmap in Hv as (pre & run & post & Heq' & Hk & _).
      exfalso.
      assert (Hrun : run ∈ LegacyAbstractionSpec.designRuns 1 (Some true) [deepSourceChunks])
        by (rewrite Heq'; apply elem_of_app; right; left).
      vm_compute in Hrun.
      apply elem_of_cons in Hrun as [->|Hrun];
        [by apply elem_of_nil in Hk|].
      apply list_elem_of_singleton in Hrun as ->. by apply elem_of_nil in Hk.
Defined.
End map_construction.

(** ** Records of a hierarchy *)

Section hierarchy.
Import GraphProcessingService EngineSpec AbstractionSpec DocumentedRule
  DeterminismSpec HierarchySpec.

Implicit Types (level : string → nat) (chunk run : list Rel.t) (record : Path.t)
  (records : list Path.t).

Lemma consistentRuns_lookup runs k v :
  consistentRuns runs →
  foldl addToReplaceMap ∅ runs !! k = Some v
  ↔ ∃ run, run ∈ runs ∧ k ∈ runEnds run ∧ runTarget run = Some v.
Proof.
  intros Hcons. rewrite replaceMap_lookup_empty. split.
  - apply mappedByLast_elem.
  - intros (run & Hrun & Hk & Ht).
    destruct (mappedByLast_exists runs k) as [v' Hv']; [by eauto|].
    pose proof Hv' as (run' & Hrun' & Hk' & Ht')%mappedByLast_elem.
    rewrite (Hcons run run' k) in Ht by done.
    by simplify_eq.
Qed.

Lemma descends_lookup level from chunk i e :
  descends level from chunk → chunk !! i = Some e →
  level (Rel.startNodeElementId e) = (from + i)%nat
  ∧ level (Rel.endNodeElementId e) = S (from + i).
Proof.
  revert from i. induction chunk as [|x chunk IH]; intros from i; [done|].
  intros (Hs & He & _ & Hrest). destruct i as [|i]; simpl.
  - intros [= <-]. rewrite Nat.add_0_r. done.
  - intros Hi. destruct (IH _ _ Hrest Hi) as [? ?]. split; lia.
Qed.

Lemma descends_linked level from chunk i e e' :
  descends level from chunk → chunk !! i = Some e → chunk !! S i = Some e' →
  Rel.endNodeElementId e = Rel.startNodeElementId e'.
Proof.
  revert from i. induction chunk as [|x chunk IH]; intros from i; [done|].
  intros (_ & _ & Hlink & Hrest). destruct i as [|i]; simpl.
  - intros [= <-]. destruct chunk as [|y chunk]; [done|]. by intros [= <-].
  - intros Hi Hi'. by apply (IH _ _ Hrest Hi).
Qed.

Lemma descends_drop level from chunk n :
  descends level from chunk → descends level (from + n) (drop n chunk).
Proof.
  revert from chunk. induction n as [|n IH]; intros from chunk.
  - by rewrite Nat.add_0_r, drop_0.
  - destruct chunk as [|x chunk]; [done|]. intros (_ & _ & _ & Hrest).
    simpl. replace (from + S n)%nat with (S from + n)%nat by lia. by apply IH.
Qed.

Lemma runs_descend level base (maxDepth : nat) record :
  levelled level base record → targetCoversExcess maxDepth record →
  descends level (base + maxDepth) (sourceRun maxDepth record)
  ∧ descends level (base + maxDepth) (targetRun maxDepth record).
Proof.
  intros (_ & Hlead & Hlen & Htrail) Hcover.
  unfold sourceRun, targetRun, beyondCutoff, lastEdges, targetCoversExcess, excess in *.
  split; [by apply descends_drop|].
  set (nS := length (Path.containSourceEdges record)) in *.
  set (nT := length (Path.containTargetEdges record)) in *.
  destruct (decide (nS ≤ maxDepth)%nat) as [Hle|Hgt].
  - replace (nT - (nS - maxDepth))%nat with nT by lia.
    by rewrite drop_ge by (subst nT; lia).
  - replace (base + maxDepth)%nat
      with (base + nS - nT + (nT - (nS - maxDepth)))%nat by lia.
    by apply descends_drop.
Qed.

Lemma run_entry_levels level cutoff run k v :
  descends level cutoff run → k ∈ runEnds run → runTarget run = Some v →
  level v = cutoff ∧ (cutoff < level k)%nat.
Proof.
  intros Hrun (e & -> & (i & Hi)%list_elem_of_lookup)%list_elem_of_fmap Ht.
  destruct (descends_lookup _ _ _ _ _ Hrun Hi) as [_ ->].
  destruct run as [|first rest]; [done|]. injection Ht as <-.
  destruct Hrun as (-> & _). split; lia.
Qed.

(** Two runs that descend from the same level through nodes with one
    container each start at the same node when they delete the same node. *)
Lemma runs_agree level cutoff run1 run2 k :
  descends level cutoff run1 → descends level cutoff run2 →
  (∀ e e', e ∈ run1 → e' ∈ run2 →
     Rel.endNodeElementId e = Rel.endNodeElementId e' →
     Rel.startNodeElementId e = Rel.startNodeElementId e') →
  k ∈ runEnds run1 → k ∈ runEnds run2 → runTarget run1 = runTarget run2.
Proof.
  intros H1 H2 Hsingle
    (e & -> & (i & Hi)%list_elem_of_lookup)%list_elem_of_fmap
    (e' & Hk & (j & Hj)%list_elem_of_lookup)%list_elem_of_fmap.
  destruct (descends_lookup _ _ _ _ _ H1 Hi) as [_ Hl].
  destruct (descends_lookup _ _ _ _ _ H2 Hj) as [_ Hl'].
  assert (j = i) as -> by (rewrite Hk in Hl; lia).
  clear Hl Hl'. revert e e' Hi Hj Hk. induction i as [|i IH]; intros e e' Hi Hj Hk.
  - destruct run1 as [|x1 run1]; [done|]. destruct run2 as [|x2 run2]; [done|].
    simpl in *. simplify_eq. unfold runTarget. simpl. f_equal.
    apply Hsingle; [left|left|done].
  - destruct (lookup_lt_is_Some_2 run1 i) as [p Hp];
      [apply lookup_lt_Some in Hi; lia|].
    destruct (lookup_lt_is_Some_2 run2 i) as [p' Hp'];
      [apply lookup_lt_Some in Hj; lia|].
    apply (IH p p' Hp Hp').
    rewrite (descends_linked _ _ _ _ _ _ H1 Hp Hi),
      (descends_linked _ _ _ _ _ _ H2 Hp' Hj).
    apply Hsingle; [by eapply list_elem_of_lookup_2..|done].
Qed.

Lemma designRuns_elem (maxDepth : nat) records run :
  run ∈ designRuns maxDepth records
  ↔ ∃ record, record ∈ records
              ∧ (run = sourceRun maxDepth record ∨ run = targetRun maxDepth record).
Proof.
  unfold designRuns. rewrite list_elem_of_join. split.
  - intros (runs & Hrun & (record & -> & Hr)%list_elem_of_fmap).
    exists record. split; [done|]. elem_cases Hrun; auto.
  - intros (record & Hr & Hrun). exists [sourceRun maxDepth record; targetRun maxDepth record].
    split; [destruct Hrun as [-> | ->]; [left|right; left]|].
    by apply (list_elem_of_fmap_2 (λ record, [sourceRun maxDepth record; targetRun maxDepth record])).
Qed.

Lemma run_containment (maxDepth : nat) records record e :
  record ∈ records →
  e ∈ sourceRun maxDepth record ∨ e ∈ targetRun maxDepth record →
  e ∈ containment records.
Proof.
  intros Hr He. unfold containment. apply list_elem_of_join.
  exists (Path.containSourceEdges record ++ Path.containTargetEdges record).
  split; [|by apply (list_elem_of_fmap_2
                       (λ record, Path.containSourceEdges record
                                  ++ Path.containTargetEdges record))].
  apply elem_of_app.
  destruct He as [He|He]; [left|right]; by eapply subseteq_drop.
Qed.

Lemma designRuns_descend level base (maxDepth : nat) records run :
  Forall (levelled level base) records →
  Forall (targetCoversExcess maxDepth) records →
  run ∈ designRuns maxDepth records →
  descends level (base + maxDepth) run ∧ ∀ e, e ∈ run → e ∈ containment records.
Proof.
  rewrite !Forall_forall. intros Hlev Hcover (record & Hr & Hrun)%designRuns_elem.
  destruct (runs_descend level base maxDepth record (Hlev _ Hr) (Hcover _ Hr)) as [Hs Ht].
  destruct Hrun as [-> | ->]; (split; [done|]); intros e He;
    apply (run_containment maxDepth records record); auto.
Qed.

(** In a hierarchy every run that deletes a node maps it to the same node. *)
Lemma designRuns_consistent level base (maxDepth : nat) records :
  Forall (levelled level base) records →
  Forall (targetCoversExcess maxDepth) records →
  singleContainer records →
  consistentRuns (designRuns maxDepth records).
Proof.
  intros Hlev Hcover Hsingle run1 run2 k Hrun1 Hrun2 Hk1 Hk2.
  destruct (designRuns_descend _ _ _ _ _ Hlev Hcover Hrun1) as [H1 Hin1].
  destruct (designRuns_descend _ _ _ _ _ Hlev Hcover Hrun2) as [H2 Hin2].
  apply (runs_agree level (base + maxDepth) run1 run2 k); auto.
Qed.

Lemma runEntries_elem run k v :
  (k, v) ∈ runEntries run ↔ k ∈ runEnds run ∧ runTarget run = Some v.
Proof.
  unfold runEntries, runEnds, runTarget.
  destruct run as [|first rest]; [split; [by intros ?%elem_of_nil|by intros [? ?]]|].
  cbn [head fmap option_fmap option_map]. rewrite !list_elem_of_fmap. split.
  - intros (e & [= -> ->] & He). eauto.
  - intros [(e & -> & He) [= <-]]. eauto.
Qed.

Lemma entries_elem (maxDepth : nat) records k v :
  (∃ record, record ∈ records ∧ (k, v) ∈ entries maxDepth record)
  ↔ ∃ run, run ∈ designRuns maxDepth records ∧ k ∈ runEnds run ∧ runTarget run = Some v.
Proof.
  unfold entries. split.
  - intros (record & Hr & [Hin|Hin]%elem_of_app); apply runEntries_elem in Hin as [Hk Ht];
      eexists; (split; [apply designRuns_elem; exists record; split; [done|]|done]); auto.
  - intros (run & (record & Hr & Hrun)%designRuns_elem & Hk & Ht).
    exists record. split; [done|]. apply elem_of_app.
    destruct Hrun as [-> | ->]; [left|right]; by apply runEntries_elem.
Qed.

End hierarchy.

(** ** The abstraction map as a function *)

Section map_function.
Import GraphProcessingService EngineSpec AbstractionSpec DocumentedRule
  IdempotenceSpec DeterminismSpec HierarchySpec.

(** With modules at different depths the map sends M2 to A2 and A2 to D. *)
Lemma getAbstractionMap_not_idempotent :
  ¬ idempotent (getAbstractionMap 1 unevenRecords).1.
Proof.
  intros Hidem. specialize (Hidem "M2"). vm_compute in Hidem. discriminate.
Qed.

(** The map holds one target for an id, that of the last run that deletes
    it: of the two records of [sharedTarget] the first enters M2 with the
    target A2, the second with the target D, and the map sends M2 to D. *)
Lemma getAbstractionMap_entry_replaced :
  ∃ record, record ∈ original_records sharedTarget
    ∧ ("M2", "A2") ∈ entries 1 record
    ∧ (getAbstractionMap 1 (original_records sharedTarget)).1 !! "M2" = Some "D".
Proof.
  eexists. split_and!; [left| |by vm_compute].
  vm_compute. right. left.
Qed.

(** C3 (amended).  For records that follow a hierarchy of levels, with a
    trailing chunk that has at least as many edges as the leading chunk has
    beyond the cutoff, every entry of the abstraction map sends an id below
    the level of the cutoff to an id at this level, so that no mapped-to id
    is mapped and applying the map twice is applying it once.  When every
    node has one container as well, the map has exactly the entries that
    the records make: no record enters an id with a target other than the
    one that the map has for it. *)
Theorem getAbstractionMap_idempotent (level : string → nat) (base maxDepth : nat)
    (records : list Path.t) :
  Forall (levelled level base) records →
  Forall (targetCoversExcess maxDepth) records →
  let replaceMap := (getAbstractionMap (Z.of_nat maxDepth) records).1 in
  (∀ k v, replaceMap !! k = Some v →
          level v = (base + maxDepth)%nat ∧ (base + maxDepth < level k)%nat)
  ∧ idempotent replaceMap
  ∧ (singleContainer records →
     ∀ k v, replaceMap !! k = Some v
            ↔ ∃ record, record ∈ records ∧ (k, v) ∈ entries maxDepth record).
Proof.
  intros Hlev Hcover replaceMap.
  assert (Hwf : Forall Path.wellFormed records).
  { eapply Forall_impl; [exact Hlev|]. by intros r [? _]. }
  assert (Hmap : replaceMap = foldl addToReplaceMap ∅ (designRuns maxDepth records)).
  { unfold replaceMap. by rewrite getAbstractionMap_design. }
  assert (Hlevels : ∀ k v, replaceMap !! k = Some v →
            level v = (base + maxDepth)%nat ∧ (base + maxDepth < level k)%nat).
  { intros k v. rewrite Hmap.
    intros (run & Hrun & Hk & Ht)%replaceMap_lookup_empty%mappedByLast_elem.
    destruct (designRuns_descend _ _ _ _ _ Hlev Hcover Hrun) as [Hdesc _].
    by apply (run_entry_levels level _ run). }
  split_and!; [done| |].
  - intros k. unfold applyMap.
    destruct (replaceMap !! k) as [v|] eqn:Hk; simpl; [|by rewrite Hk].
    destruct (replaceMap !! v) as [w|] eqn:Hv; simpl; [|done].
    apply Hlevels in Hk as [Hk _]. apply Hlevels in Hv as [_ Hv]. lia.
  - intros Hsingle k v. rewrite entries_elem, Hmap.
    apply consistentRuns_lookup. by eapply designRuns_consistent.
Qed.

Lemma evenRecords_levelled : Forall (levelled evenLevel 0) evenRecords.
Proof.
  repeat apply Forall_cons_2; [..|apply Forall_nil_2]; vm_compute; intuition lia.
Qed.

Lemma getAbstractionMap_idempotent_witness :
  idempotent (getAbstractionMap 1 evenRecords).1.
Proof.
  destruct (getAbstractionMap_idempotent evenLevel 0 1 evenRecords) as (_ & Hidem & _).
  - exact evenRecords_levelled.
  - repeat apply Forall_cons_2; [..|apply Forall_nil_2]; vm_compute; lia.
  - exact Hidem.
Defined.
End map_function.

(** ** Independence of the order of the records *)

Section determinism.
Import GraphProcessingService EngineSpec AbstractionSpec DocumentedRule
  IdempotenceSpec DeterminismSpec HierarchySpec.

Implicit Types (level : string → nat) (chunk run : list Rel.t) (record : Path.t)
  (records : list Path.t) (m : gmap string string).

Lemma consistentRuns_Permutation runs1 runs2 :
  runs1 ≡ₚ runs2 → consistentRuns runs1 → consistentRuns runs2.
Proof.
  intros Hp Hcons run1 run2 k H1 H2. rewrite <- Hp in H1, H2. by apply Hcons.
Qed.

Lemma replaceMap_Permutation runs1 runs2 :
  runs1 ≡ₚ runs2 → consistentRuns runs1 →
  foldl addToReplaceMap ∅ runs1 = foldl addToReplaceMap ∅ runs2.
Proof.
  intros Hp Hcons. apply map_eq. intros k. apply option_eq. intros v.
  rewrite !consistentRuns_lookup by eauto using consistentRuns_Permutation.
  by setoid_rewrite Hp.
Qed.

Lemma abstractedRecords_Permutation original1 original2 maxDepth :
  original_records original1 ≡ₚ original_records original2 →
  match maxDepth with
  | Some maxDepth => consistentRuns (allDeletedRuns maxDepth (original_records original1))
  | None => True
  end →
  abstractedRecords original1 maxDepth ≡ₚ abstractedRecords original2 maxDepth.
Proof.
  intros Hp Hcons. unfold abstractedRecords.
  destruct maxDepth as [d|]; [|done].
  rewrite !getAbstractionMap_unfold.
  rewrite (replaceMap_Permutation _ (allDeletedRuns d (original_records original2)));
    [|unfold allDeletedRuns; by rewrite Hp|done].
  unfold applyAbstraction. by rewrite Hp.
Qed.

Lemma getAllEdges_elem records e :
  consistentIds (rawEdges records) →
  e ∈ getAllEdges records ↔ ∃ r, r ∈ rawEdges records ∧ e = toEdgeData r.
Proof.
  intros Hcons. split; [apply getAllEdges_sound|].
  intros (r & Hr & ->).
  pose proof (getAllEdges_complete records r Hr) as (e & Hid & He)%list_elem_of_fmap.
  pose proof He as (r' & Hr' & ->)%getAllEdges_sound.
  simpl in Hid. by rewrite (Hcons r r' Hr Hr' Hid).
Qed.

Lemma getAllEdges_Permutation records1 records2 :
  records1 ≡ₚ records2 → consistentIds (rawEdges records1) →
  getAllEdges records1 ≡ₚ getAllEdges records2.
Proof.
  intros Hp Hcons.
  assert (Hraw : rawEdges records1 ≡ₚ rawEdges records2)
    by (unfold rawEdges; by rewrite Hp).
  assert (Hcons' : consistentIds (rawEdges records2)).
  { intros r r' Hr Hr'. rewrite <- Hraw in Hr, Hr'. by apply Hcons. }
  apply NoDup_Permutation.
  - eapply NoDup_fmap_1, getAllEdges_NoDup.
  - eapply NoDup_fmap_1, getAllEdges_NoDup.
  - intros e. rewrite !getAllEdges_elem by done. by setoid_rewrite Hraw.
Qed.

Lemma allDeletedRuns_design (maxDepth : nat) records :
  Forall Path.wellFormed records →
  Forall (targetCoversExcess maxDepth) records →
  allDeletedRuns (Z.of_nat maxDepth) records = designRuns maxDepth records.
Proof.
  rewrite !Forall_lookup. intros Hwf Hcover.
  unfold allDeletedRuns, designRuns. f_equal. apply list_fmap_ext. intros i r Hr.
  unfold deletedRuns. by rewrite spliceRecord_design by eauto.
Qed.

Lemma abstractEdge_empty (r : Rel.t) : abstractEdge ∅ r = r.
Proof. unfold abstractEdge. rewrite !lookup_empty. by destruct r. Qed.

Lemma applyAbstraction_empty records : applyAbstraction records ∅ = records.
Proof.
  unfold applyAbstraction. rewrite <- (list_fmap_id records) at 2.
  apply list_fmap_ext. intros i r _.
  rewrite (list_fmap_ext (abstractEdge ∅) id (Path.dependencyEdges r))
    by (intros; apply abstractEdge_empty).
  rewrite list_fmap_id. by destruct r.
Qed.

Lemma abstractedRecords_kept original maxDepth :
  Forall Path.wellFormed (original_records original) →
  coversCutoff maxDepth (original_records original) →
  abstractedRecords original maxDepth
  = applyAbstraction (keptRecords maxDepth (original_records original))
      (mapOf maxDepth (original_records original)).
Proof.
  intros Hwf Hcover. unfold abstractedRecords, keptRecords, mapOf.
  destruct maxDepth as [d|]; [|by rewrite applyAbstraction_empty].
  destruct Hcover as [Hd Hcover].
  rewrite <- (Z2Nat.id d) at 1 by done.
  by rewrite getAbstractionMap_design.
Qed.

Lemma rawEdges_applyAbstraction records m r :
  r ∈ rawEdges (applyAbstraction records m)
  ↔ ∃ record, record ∈ records
      ∧ (r ∈ Path.containSourceEdges record ∨ r ∈ Path.containTargetEdges record
         ∨ ∃ r0, r0 ∈ Path.dependencyEdges record ∧ r = abstractEdge m r0).
Proof.
  unfold rawEdges, applyAbstraction. rewrite list_elem_of_join. split.
  - intros (es & Hr & (rec' & -> & (record & -> & Hrec)%list_elem_of_fmap)%list_elem_of_fmap).
    exists record. split; [done|]. unfold Path.allEdges in Hr. cbn in Hr.
    rewrite !elem_of_app, list_elem_of_fmap in Hr.
    destruct Hr as [?|[(r0 & -> & ?)|?]]; eauto.
  - intros (record & Hrec & Hr). eexists. split.
    2:{ apply list_elem_of_fmap_2, list_elem_of_fmap_2, Hrec. }
    unfold Path.allEdges. cbn. rewrite !elem_of_app, list_elem_of_fmap.
    destruct Hr as [?|[?|(r0 & ? & ->)]]; eauto.
Qed.

Lemma kept_containment level base maxDepth records record r :
  Forall (levelled level base) records →
  coversCutoff maxDepth records →
  record ∈ keptRecords maxDepth records →
  r ∈ Path.containSourceEdges record ∨ r ∈ Path.containTargetEdges record →
  r ∈ containment records
  ∧ contained level (cutoffLevel base maxDepth)
      (Rel.startNodeElementId r) (Rel.endNodeElementId r).
Proof.
  rewrite Forall_forall. intros Hlev Hcover Hrec Hr. unfold keptRecords in Hrec.
  assert (Hin : ∀ rec0, rec0 ∈ records →
            r ∈ Path.containSourceEdges rec0 ∨ r ∈ Path.containTargetEdges rec0 →
            r ∈ containment records).
  { intros rec0 Hrec0 Hr0. unfold containment. apply list_elem_of_join.
    eexists. split; [|apply (list_elem_of_fmap_2 _ _ rec0), Hrec0].
    by apply elem_of_app. }
  destruct maxDepth as [d|]; cbn [cutoffLevel fmap option_fmap option_map].
  - destruct Hcover as [Hd Hcover]. rewrite Forall_forall in Hcover.
    apply list_elem_of_fmap in Hrec as (rec0 & -> & Hrec0).
    destruct (Hlev _ Hrec0) as (_ & Hlead & Hlen & Htrail).
    specialize (Hcover _ Hrec0). unfold targetCoversExcess, excess in Hcover.
    cbn in Hr. unfold excess in Hr.
    set (n := Z.to_nat d) in *.
    set (nS := length (Path.containSourceEdges rec0)) in *.
    set (nT := length (Path.containTargetEdges rec0)) in *.
    destruct Hr as [(i & Hi)%list_elem_of_lookup|(i & Hi)%list_elem_of_lookup];
      apply lookup_take_Some in Hi as [Hi Hlt].
    + split; [apply (Hin rec0); [done|left; by eapply list_elem_of_lookup_2]|].
      destruct (descends_lookup _ _ _ _ _ Hlead Hi) as [Hs He].
      unfold contained. rewrite Hs, He. split; [done|lia].
    + split; [apply (Hin rec0); [done|right; by eapply list_elem_of_lookup_2]|].
      destruct (descends_lookup _ _ _ _ _ Htrail Hi) as [Hs He].
      unfold contained. rewrite Hs, He. split; [done|lia].
  - destruct (Hlev _ Hrec) as (_ & Hlead & Hlen & Htrail).
    split; [by apply (Hin record)|].
    destruct Hr as [(i & Hi)%list_elem_of_lookup|(i & Hi)%list_elem_of_lookup].
    + destruct (descends_lookup _ _ _ _ _ Hlead Hi) as [Hs He].
      unfold contained. by rewrite Hs, He.
    + destruct (descends_lookup _ _ _ _ _ Htrail Hi) as [Hs He].
      unfold contained. by rewrite Hs, He.
Qed.

Lemma mapOf_levels level base maxDepth records k v :
  Forall (levelled level base) records →
  coversCutoff maxDepth records →
  mapOf maxDepth records !! k = Some v →
  ∃ c, cutoffLevel base maxDepth = Some c ∧ level v = c ∧ (c < level k)%nat.
Proof.
  intros Hlev Hcover. unfold mapOf, cutoffLevel.
  destruct maxDepth as [d|]; [|by rewrite lookup_empty].
  destruct Hcover as [Hd Hcover]. cbn [fmap option_fmap option_map].
  intros (run & Hrun & Hk & Ht)%replaceMap_lookup_empty%mappedByLast_elem.
  destruct (designRuns_descend _ _ _ _ _ Hlev Hcover Hrun) as [Hdesc _].
  eexists. split; [done|]. by apply (run_entry_levels level _ run).
Qed.

Lemma rewritten_not_contained level base maxDepth records (r0 : Rel.t) :
  Forall (levelled level base) records →
  coversCutoff maxDepth records →
  level (Rel.startNodeElementId r0) = level (Rel.endNodeElementId r0) →
  let r := abstractEdge (mapOf maxDepth records) r0 in
  ¬ contained level (cutoffLevel base maxDepth)
      (Rel.startNodeElementId r) (Rel.endNodeElementId r).
Proof.
  intros Hlev Hcover Hflat r [Hstep Hcut]. subst r. cbn in Hstep, Hcut.
  pose proof (mapOf_levels level base maxDepth records) as Hm.
  destruct (mapOf maxDepth records !! Rel.startNodeElementId r0) as [s|] eqn:Hs;
    destruct (mapOf maxDepth records !! Rel.endNodeElementId r0) as [t|] eqn:Ht;
    cbn in Hstep, Hcut;
    try (destruct (Hm _ _ Hlev Hcover Hs) as (c & Hc & Hvs & Hks));
    try (destruct (Hm _ _ Hlev Hcover Ht) as (c' & Hc' & Hvt & Hkt));
    simplify_eq; try rewrite Hc in Hcut; try rewrite Hc' in Hcut; try lia.
Qed.

(** A relationship of the records after the abstraction is a containment
    edge that was kept, between a container and a node that it contains, or
    a rewritten dependency, which is between no such nodes. *)
Lemma abstracted_raw level base original maxDepth r :
  let records := original_records original in
  Forall (levelled level base) records → Forall (typed level) records →
  coversCutoff maxDepth records →
  r ∈ rawEdges (abstractedRecords original maxDepth) →
  (r ∈ rawEdges records ∧ isContains r
   ∧ contained level (cutoffLevel base maxDepth)
       (Rel.startNodeElementId r) (Rel.endNodeElementId r))
  ∨ (∃ r0, r0 ∈ rawEdges records ∧ ¬ isContains r0
           ∧ r = abstractEdge (mapOf maxDepth records) r0
           ∧ ¬ contained level (cutoffLevel base maxDepth)
                 (Rel.startNodeElementId r) (Rel.endNodeElementId r)).
Proof.
  intros records Hlev Htyped Hcover.
  assert (Hwf : Forall Path.wellFormed records).
  { eapply Forall_impl; [exact Hlev|]. by intros ? [? _]. }
  rewrite abstractedRecords_kept, rawEdges_applyAbstraction by done.
  fold records. intros (record & Hrec & Hr).
  assert (Hraw : ∀ rec0 x, rec0 ∈ records → x ∈ Path.allEdges rec0 → x ∈ rawEdges records).
  { intros rec0 x Hrec0 Hx. unfold rawEdges. apply list_elem_of_join.
    eexists. split; [exact Hx|by apply list_elem_of_fmap_2]. }
  assert (Horig : ∃ rec0, rec0 ∈ records
            ∧ Path.containSourceEdges record ⊆ Path.containSourceEdges rec0
            ∧ Path.containTargetEdges record ⊆ Path.containTargetEdges rec0
            ∧ Path.dependencyEdges record = Path.dependencyEdges rec0).
  { unfold keptRecords in Hrec. destruct maxDepth as [d|].
    - apply list_elem_of_fmap in Hrec as (rec0 & -> & Hrec0).
      exists rec0. split_and!; [done|apply subseteq_take..|done].
    - by exists record. }
  destruct Horig as (rec0 & Hrec0 & Hsrc & Htgt & Hdep).
  rewrite Forall_forall in Htyped.
  destruct (Htyped _ Hrec0) as (Hts & Htt & Htd). rewrite Forall_forall in Hts, Htt, Htd.
  destruct Hr as [Hr|[Hr|(r0 & Hr0 & ->)]].
  - left. destruct (kept_containment level base maxDepth records record r) as [_ ?]; auto.
    split_and!; [|by apply Hts, Hsrc|done].
    apply (Hraw rec0); [done|]. unfold Path.allEdges. apply elem_of_app. left. by apply Hsrc.
  - left. destruct (kept_containment level base maxDepth records record r) as [_ ?]; auto.
    split_and!; [|by apply Htt, Htgt|done].
    apply (Hraw rec0); [done|]. unfold Path.allEdges. rewrite !elem_of_app. right. right.
    by apply Htgt.
  - right. rewrite Hdep in Hr0. destruct (Htd _ Hr0) as [Hnc Hflat].
    exists r0. split_and!; [|done..|by apply (rewritten_not_contained level base)].
    apply (Hraw rec0); [done|]. unfold Path.allEdges. rewrite !elem_of_app. right. by left.
Qed.

Lemma abstracted_consistentIds level base original maxDepth :
  let records := original_records original in
  Forall (levelled level base) records → Forall (typed level) records →
  coversCutoff maxDepth records →
  consistentIds (rawEdges records) →
  consistentIds (rawEdges (abstractedRecords original maxDepth)).
Proof.
  intros records Hlev Htyped Hcover Hids r r' Hr Hr' Hid.
  apply (abstracted_raw level base) in Hr, Hr'; try done.
  destruct Hr as [(Hr & Hc & _)|(r0 & Hr0 & Hnc & -> & _)];
    destruct Hr' as [(Hr' & Hc' & _)|(r0' & Hr0' & Hnc' & -> & _)]; cbn in Hid.
  - by apply Hids.
  - by rewrite (Hids r r0') in Hc.
  - by rewrite <- (Hids r0 r') in Hc'.
  - by rewrite (Hids r0 r0').
Qed.

Lemma abstracted_interaction level base original maxDepth e :
  let records := original_records original in
  Forall (levelled level base) records → Forall (typed level) records →
  coversCutoff maxDepth records →
  e ∈ getAllEdges (abstractedRecords original maxDepth) →
  Edge.interaction e = "contains"
  ↔ contained level (cutoffLevel base maxDepth) (Edge.source e) (Edge.target e).
Proof.
  intros records Hlev Htyped Hcover (r & Hr & ->)%getAllEdges_sound.
  apply (abstracted_raw level base) in Hr; try done. cbn.
  destruct Hr as [(_ & Hc & Hcont)|(r0 & _ & Hnc & -> & Hncont)]; [done|].
  split; [|done]. intros Hc. by destruct Hnc.
Qed.

(** The deduplicated edges of a permutation have the same endpoints and
    weights; the interaction of each is that of an edge between its
    endpoints. *)
Lemma mergeDuplicateEdges_Permutation l1 l2 e1 :
  l1 ≡ₚ l2 → e1 ∈ mergeDuplicateEdges l1 →
  (∃ e, e ∈ l1 ∧ Edge.pair e = Edge.pair e1 ∧ Edge.interaction e = Edge.interaction e1)
  ∧ ∃ e2, e2 ∈ mergeDuplicateEdges l2 ∧ edgeEnds e2 = edgeEnds e1.
Proof.
  intros Hp He1.
  destruct (mergeDuplicateEdges_spec l1) as (_ & Hw1 & _).
  destruct (mergeDuplicateEdges_spec l2) as (_ & Hw2 & Hin2).
  destruct (Hw1 e1 He1) as (Hweight1 & i & e & Hfind & _ & Hs & Ht & Hi).
  apply list_find_Some in Hfind as (He%list_elem_of_lookup_2 & Hpair & _).
  cbv beta in Hpair. split; [by exists e|].
  assert (He' : e ∈ l2) by (by rewrite <- Hp).
  apply Hin2, list_elem_of_fmap in He' as (e2 & Hpair2 & He2).
  destruct (Hw2 e2 He2) as (Hweight2 & _).
  exists e2. split; [done|].
  assert (Hp12 : Edge.pair e2 = Edge.pair e1) by congruence.
  unfold edgeEnds. pose proof Hp12 as [-> ->]%pair_eq.
  rewrite Hweight1, Hweight2, Hp12. by rewrite (weightOf_Permutation _ l1 l2 Hp).
Qed.

Lemma formatToLPG_edges_elem original name options e :
  e ∈ edges (formatToLPG original name options)
  ↔ e ∈ mergedEdges original (maxDepth options)
    ∧ Edge.interaction e ≠ "contains"
    ∧ selfOk (selfEdges options) (Edge.source e) (Edge.target e).
Proof.
  rewrite formatToLPG_edges. cbv zeta. unfold selfOk, filterSelfEdges.
  destruct (selfEdges options) as [[]|]; rewrite ?list_elem_of_filter; naive_solver.
Qed.

Lemma rendered_Permutation (P : string → string → Prop) original1 original2 name options c :
  getAllEdges (abstractedRecords original1 (maxDepth options))
    ≡ₚ getAllEdges (abstractedRecords original2 (maxDepth options)) →
  (∀ e, e ∈ getAllEdges (abstractedRecords original1 (maxDepth options)) →
        Edge.interaction e = "contains" ↔ P (Edge.source e) (Edge.target e)) →
  c ∈ edgeEnds <$> edges (formatToLPG original1 name options) →
  c ∈ edgeEnds <$> edges (formatToLPG original2 name options).
Proof.
  intros Hp HP (e1 & -> & (He1 & Hint & Hself)%formatToLPG_edges_elem)%list_elem_of_fmap.
  unfold mergedEdges in He1.
  destruct (mergeDuplicateEdges_Permutation _ _ e1 Hp He1)
    as [(e & He & Hpair & Hi) (e2 & He2 & Hends)].
  apply list_elem_of_fmap. exists e2. split; [done|].
  apply formatToLPG_edges_elem. injection Hends as Hs Ht Hw.
  split_and!; [done| |by rewrite Hs, Ht].
  symmetry in Hp.
  destruct (mergeDuplicateEdges_Permutation _ _ e2 Hp He2) as [(e' & He' & Hpair' & Hi') _].
  rewrite <- Hi'. rewrite Hp in He'.
  apply pair_eq in Hpair as [Hs1 Ht1]. apply pair_eq in Hpair' as [Hs2 Ht2].
  rewrite (HP e' He'), Hs2, Ht2, Hs, Ht, <- Hs1, <- Ht1, <- (HP e He). by rewrite Hi.
Qed.

Lemma Forall_Permutation_1 {A} (P : A → Prop) (l1 l2 : list A) :
  l1 ≡ₚ l2 → Forall P l1 → Forall P l2.
Proof. intros Hp. rewrite !Forall_forall. intros H x Hx. apply H. by rewrite Hp. Qed.

Lemma wellFormedInput_Permutation level base original1 original2 maxDepth :
  original_records original1 ≡ₚ original_records original2 →
  wellFormedInput level base original1 maxDepth →
  wellFormedInput level base original2 maxDepth.
Proof.
  intros Hp (Hlev & Htyped & Hsingle & Hids & Hcover).
  split_and!; try by eapply Forall_Permutation_1.
  - intros e e'. unfold containment. rewrite <- Hp. apply Hsingle.
  - intros r r'. unfold rawEdges. rewrite <- Hp. apply Hids.
  - destruct maxDepth as [d|]; [|done]. destruct Hcover as [? ?].
    split; [done|]. by eapply Forall_Permutation_1.
Qed.

Lemma abstractedRecords_wellFormed level base original1 original2 maxDepth :
  original_records original1 ≡ₚ original_records original2 →
  wellFormedInput level base original1 maxDepth →
  abstractedRecords original1 maxDepth ≡ₚ abstractedRecords original2 maxDepth.
Proof.
  intros Hp (Hlev & Htyped & Hsingle & Hids & Hcover).
  apply abstractedRecords_Permutation; [done|].
  destruct maxDepth as [d|]; [|done]. destruct Hcover as [Hd Hcover].
  rewrite <- (Z2Nat.id d) by done.
  rewrite allDeletedRuns_design; [by eapply designRuns_consistent|..|done].
  eapply Forall_impl; [exact Hlev|]. by intros ? [? _].
Qed.

(** Two dependencies between the same endpoints are rendered as one edge,
    which has the id of the one that comes first in the records. *)
Lemma formatToLPG_order_dependent_ids :
  original_records Scenarios.scenarioB ≡ₚ original_records scenarioB_reversed
  ∧ ¬ sameEdgeIdentity
        (edges (formatToLPG Scenarios.scenarioB "dependencies" (mkOptions None None)))
        (edges (formatToLPG scenarioB_reversed "dependencies" (mkOptions None None))).
Proof.
  split; [apply Permutation_swap|].
  intros Hsame. specialize (Hsame ("e1", "A", "B", 2%nat)).
  vm_compute in Hsame. destruct Hsame as [Hsame _].
  specialize (Hsame ltac:(left)).
  apply list_elem_of_singleton in Hsame. discriminate.
Qed.

(** Two dependencies of different types between the same endpoints are
    rendered as one edge, which has the type of the one that comes first in
    the records. *)
Lemma formatToLPG_order_dependent_interaction :
  original_records twoTypes ≡ₚ original_records twoTypes_reversed
  ∧ edges (formatToLPG twoTypes "dependencies" (mkOptions None None))
    = [Edge.mk "e1" "A" "B" "calls" 2]
  ∧ edges (formatToLPG twoTypes_reversed "dependencies" (mkOptions None None))
    = [Edge.mk "e2" "A" "B" "extends" 2].
Proof. split; [apply Permutation_swap|by vm_compute]. Qed.

(** The two records of [sharedTarget] collapse M2 to different ids: the
    record with 2 leading edges to A2, the record with 3 leading edges to D.
    The later record decides, so the two dependencies are rendered as one
    edge from A1 to D in one order of the records and as one edge from A1 to
    A2 in the other. *)
Lemma formatToLPG_order_dependent_endpoints :
  original_records sharedTarget ≡ₚ original_records sharedTarget_reversed
  ∧ edges (formatToLPG sharedTarget "dependencies" (mkOptions (Some 1) None))
    = [Edge.mk "e1" "A1" "D" "calls" 2]
  ∧ edges (formatToLPG sharedTarget_reversed "dependencies" (mkOptions (Some 1) None))
    = [Edge.mk "e2" "A1" "A2" "calls" 2]
  ∧ ¬ sameEdgeEnds
        (edges (formatToLPG sharedTarget "dependencies" (mkOptions (Some 1) None)))
        (edges (formatToLPG sharedTarget_reversed "dependencies" (mkOptions (Some 1) None))).
Proof.
  split_and!; [apply Permutation_swap|by vm_compute..|].
  intros Hsame. specialize (Hsame ("A1", "D", 2%nat)).
  vm_compute in Hsame. destruct Hsame as [Hsame _].
  specialize (Hsame ltac:(left)).
  apply list_elem_of_singleton in Hsame. discriminate.
Qed.

(** C9 (amended).  For two pre-processors whose records are permutations of
    each other and whose nodes have the same ids, and the same options, the
    abstraction engine returns graphs with the same node ids and the same
    edges compared as source, target and weight, provided that the records
    are those of a hierarchy: there are levels of the nodes such that in
    every record the leading chunk descends level by level from the level of
    the selected node and the trailing chunk descends to the level at which
    the leading chunk ends, the containment chunks hold relationships of
    containment and the dependency chunk holds other relationships between
    nodes of the same level, every node has one container, an element id
    denotes one relationship, and with a cutoff, which is no negative
    number, the trailing chunk has at least as many edges as the leading
    chunk has beyond it.  The id and the interaction of a rendered edge are
    those of the first raw edge between its endpoints and depend on the
    order of the records, and so do the endpoints where records collapse an
    id to different targets. *)
Theorem formatToLPG_order_independent (level : string → nat) (base : nat)
    original1 original2 name options :
  original_records original1 ≡ₚ original_records original2 →
  sameNodeIds (original_nodes original1) (original_nodes original2) →
  wellFormedInput level base original1 (maxDepth options) →
  sameNodeIds (nodes (formatToLPG original1 name options))
    (nodes (formatToLPG original2 name options))
  ∧ sameEdgeEnds (edges (formatToLPG original1 name options))
      (edges (formatToLPG original2 name options)).
Proof.
  intros Hp Hnodes Hwf1.
  pose proof (wellFormedInput_Permutation _ _ _ _ _ Hp Hwf1) as Hwf2.
  pose proof (abstractedRecords_wellFormed _ _ _ _ _ Hp Hwf1) as Hrecords.
  destruct Hwf1 as (Hlev1 & Htyped1 & _ & Hids1 & Hcover1).
  destruct Hwf2 as (Hlev2 & Htyped2 & _ & Hids2 & Hcover2).
  pose proof (abstracted_consistentIds level base original1 _ Hlev1 Htyped1 Hcover1 Hids1)
    as Hcons.
  pose proof (getAllEdges_Permutation _ _ Hrecords Hcons) as Hall.
  split.
  - intros x. rewrite !formatToLPG_node_ids, (Hnodes x).
    assert (Hends : ∀ o1 o2,
      getAllEdges (abstractedRecords o1 (maxDepth options))
        ≡ₚ getAllEdges (abstractedRecords o2 (maxDepth options)) →
      x ∈ endpoints (mergedEdges o1 (maxDepth options)) →
      x ∈ endpoints (mergedEdges o2 (maxDepth options))).
    { intros o1 o2 Hperm (e1 & He1 & Hx)%endpoints_elem.
      destruct (mergeDuplicateEdges_Permutation _ _ e1 Hperm He1)
        as [_ (e2 & He2 & [= Hs Ht _])].
      apply endpoints_elem. exists e2. split; [done|]. by rewrite Hs, Ht. }
    split; intros [? ?]; (split; [done|]);
      [by apply (Hends original1 original2)|by apply (Hends original2 original1)].
  - intros c. split.
    + apply (rendered_Permutation (contained level (cutoffLevel base (maxDepth options))));
        [done|]. intros e He. by apply (abstracted_interaction level base original1).
    + apply (rendered_Permutation (contained level (cutoffLevel base (maxDepth options))));
        [done|]. intros e He. by apply (abstracted_interaction level base original2).
Qed.

Lemma evenOriginal_wellFormed : wellFormedInput evenLevel 0 evenOriginal (Some 1).
Proof.
  split_and!.
  - exact evenRecords_levelled.
  - repeat apply Forall_cons_2; [..|apply Forall_nil_2];
      (split_and!; repeat apply Forall_cons_2; try apply Forall_nil_2; by vm_compute).
  - intros e e' He He'. vm_compute in He, He'.
    elem_cases He; elem_cases He'; by simplify_eq.
  - intros r r' Hr Hr' Hid. vm_compute in Hr, Hr'.
    elem_cases Hr; elem_cases Hr'; by simplify_eq.
  - split; [done|].
    repeat apply Forall_cons_2; [..|apply Forall_nil_2]; vm_compute; lia.
Qed.

Lemma formatToLPG_order_independent_witness :
  sameEdgeEnds
    (edges (formatToLPG evenOriginal "dependencies" (mkOptions (Some 1) None)))
    (edges (formatToLPG evenOriginal_reversed "dependencies" (mkOptions (Some 1) None))).
Proof.
  apply (formatToLPG_order_independent evenLevel 0 evenOriginal evenOriginal_reversed).
  - apply Permutation_swap.
  - done.
  - exact evenOriginal_wellFormed.
Defined.
End determinism.

(** ** The violation projector *)

Section violations.
Import ViolationCyclicalDependenciesService ViolationSpec.

Implicit Types (deps : MapSet.t Neo4jDependencyRelationship)
  (nodes : MapSet.t Neo4jComponentNode.t) (dep : DependencyCycle).

(** *** Resolution of one edge *)

Lemma rewriteEdge_matched deps nodes d existingEdge :
  getOriginal deps (id d) = Some existingEdge →
  rewriteEdge deps nodes d
  = ({| id := elementId existingEdge;
        source := Neo4jComponentNode.elementId (startNode existingEdge);
        target := Neo4jComponentNode.elementId (endNode existingEdge);
        sourceNode := toNodeData (startNode existingEdge);
        targetNode := toNodeData (startNode existingEdge) |},
     markDependencyCycle deps (id d) existingEdge).
Proof. intros Hget. unfold rewriteEdge. by rewrite Hget. Qed.

Lemma rewriteEdge_unmatched deps nodes d :
  getOriginal deps (id d) = None →
  let resolved := (rewriteEdge deps nodes d).1 in
  (rewriteEdge deps nodes d).2 = deps
  ∧ id resolved = id d
  ∧ match beforeLifting (MapSet.get nodes (source d)) with
    | Some n => source resolved = Neo4jComponentNode.elementId n
                ∧ sourceNode resolved = toNodeData n
    | None => source resolved = source d ∧ sourceNode resolved = sourceNode d
    end
  ∧ match beforeLifting (MapSet.get nodes (target d)) with
    | Some n => target resolved = Neo4jComponentNode.elementId n
                ∧ targetNode resolved = toNodeData n
    | None => target resolved = target d ∧ targetNode resolved = targetNode d
    end.
Proof.
  intros Hget. unfold rewriteEdge. rewrite Hget.
  destruct (beforeLifting (MapSet.get nodes (source d)));
    destruct (beforeLifting (MapSet.get nodes (target d))); done.
Qed.

(** C5.  A cycle edge whose id is the id of a rendered edge is to adopt the
    id, the endpoints and the node data of both endpoints of the rendered
    edge.  The data of the target node is taken from the start node of the
    rendered edge: for the rendered edge e1 from X to Y the step has the
    target Y with the node data of X. *)
Theorem rewriteEdge_target_data_of_source :
  let resolved := (rewriteEdge renderedXY [] stepXY).1 in
  id resolved = "e1"
  ∧ source resolved = "X" ∧ sourceNode resolved = toNodeData (nodeOf "X")
  ∧ target resolved = "Y" ∧ targetNode resolved = toNodeData (nodeOf "X")
  ∧ targetNode resolved ≠ toNodeData (nodeOf "Y")
  ∧ (rewriteEdge renderedXY [] stepXY).2
    = [("e1", mkDependency "e1" (nodeOf "X") (nodeOf "Y") true)].
Proof.
  assert (Hget : getOriginal renderedXY (id stepXY)
                 = Some (mkDependency "e1" (nodeOf "X") (nodeOf "Y") false))
    by done.
  rewrite (rewriteEdge_matched renderedXY [] stepXY _ Hget). simpl.
  split_and!; done.
Qed.

(** *** The marks of the rendered edges do not change the resolution *)

Lemma get_erase deps k : MapSet.get (erase deps) k = unmarked <$> MapSet.get deps k.
Proof.
  induction deps as [|[k' v] deps IH]; [done|]. simpl.
  destruct (decide (k' = k)); [done|apply IH].
Qed.

Lemma set_erase deps k v :
  erase (MapSet.set deps k v) = MapSet.set (erase deps) k (unmarked v).
Proof.
  induction deps as [|[k' v'] deps IH]; [done|]. simpl.
  destruct (decide (k' = k)); [done|]. simpl. by rewrite <- IH.
Qed.

Lemma set_get_id {V} (m : MapSet.t V) k v :
  MapSet.get m k = Some v → MapSet.set m k v = m.
Proof.
  induction m as [|[k' v'] m IH]; [done|]. simpl.
  destruct (decide (k' = k)) as [->|]; [by intros [= ->]|].
  intros Hget. by rewrite IH.
Qed.

Lemma has_erase deps deps0 k :
  erase deps = erase deps0 → MapSet.has deps k = MapSet.has deps0 k.
Proof.
  intros Heq. unfold MapSet.has, MapSet.keys.
  assert (Hkeys : ∀ m : MapSet.t Neo4jDependencyRelationship, m.*1 = (erase m).*1).
  { intros m. unfold erase. rewrite <- list_fmap_compose. done. }
  by rewrite (Hkeys deps), (Hkeys deps0), Heq.
Qed.

Lemma rewriteEdge_erase deps deps0 nodes d :
  erase deps = erase deps0 →
  (rewriteEdge deps nodes d).1 = (rewriteEdge deps0 nodes d).1
  ∧ erase (rewriteEdge deps nodes d).2 = erase deps0.
Proof.
  intros Heq.
  pose proof (get_erase deps (id d)) as Hget.
  pose proof (get_erase deps0 (id d)) as Hget0.
  rewrite Heq, Hget0 in Hget. unfold rewriteEdge, getOriginal.
  destruct (MapSet.get deps (id d)) as [e|] eqn:He;
    destruct (MapSet.get deps0 (id d)) as [e0|] eqn:He0; try done.
  injection Hget as Hid Hstart Hend. simpl.
  split; [by rewrite Hid, Hstart, Hend|].
  unfold markDependencyCycle. rewrite set_erase, Heq.
  apply set_get_id. rewrite get_erase, He0. simpl.
  unfold unmarked. simpl. by rewrite Hid, Hstart, Hend.
Qed.

Lemma rewritePath_erase deps deps0 nodes (p : list ExtendedSimpleEdgeData) :
  erase deps = erase deps0 →
  (rewritePath deps nodes p).1 = (λ d, (rewriteEdge deps0 nodes d).1) <$> p
  ∧ erase (rewritePath deps nodes p).2 = erase deps0.
Proof.
  revert deps. induction p as [|d p IH]; intros deps Heq; [done|]. simpl.
  destruct (rewriteEdge_erase deps deps0 nodes d Heq) as [Hd Hdeps].
  destruct (rewriteEdge deps nodes d) as [d' deps'].
  destruct (IH deps' Hdeps) as [Hp Hdeps'].
  destruct (rewritePath deps' nodes p) as [p' deps'']. simpl in *.
  by rewrite Hd, Hp.
Qed.

Lemma rewrittenPath_erase deps deps0 nodes dep :
  erase deps = erase deps0 →
  rewrittenPath deps nodes dep = rewrittenPath deps0 nodes dep.
Proof.
  intros Heq. unfold rewrittenPath.
  destruct (rewritePath_erase deps deps0 nodes (path dep) Heq) as [-> _].
  by destruct (rewritePath_erase deps0 deps0 nodes (path dep) eq_refl) as [-> _].
Qed.

Lemma rewrittenPath_nil deps nodes dep :
  rewrittenPath deps nodes dep = [] → path dep = [].
Proof.
  unfold rewrittenPath.
  destruct (rewritePath_erase deps deps nodes (path dep) eq_refl) as [-> _].
  by intros ?%fmap_nil_inv.
Qed.

(** *** Collapse of self-edges *)

Lemma filterFrom_ext {A} (f g : A → nat → bool) i (l : list A) :
  (∀ e j, e ∈ l → (i ≤ j)%nat → f e j = g e j) →
  filterFrom f i l = filterFrom g i l.
Proof.
  revert i. induction l as [|x l IH]; intros i Hext; [done|]. simpl.
  rewrite (Hext x i) by (left || lia). rewrite IH; [done|].
  intros e j He Hj. apply Hext; [by right|lia].
Qed.

Lemma filterFrom_filter {A} (P : A → bool) i (l : list A) :
  filterFrom (λ e _, P e) i l = filter (λ e, P e = true) l.
Proof.
  revert i. induction l as [|x l IH]; intros i; [done|]. simpl.
  rewrite filter_cons, IH. destruct (P x); by simpl.
Qed.

Lemma isSelfEdge_forallb (l : list ExtendedSimpleEdgeData) :
  forallb isSelfEdge l = true ↔ Forall (λ e, source e = target e) l.
Proof.
  rewrite forallb_forall, Forall_forall. unfold isSelfEdge.
  split; intros Hall e He.
  - apply list_elem_of_In in He. apply Hall in He. by apply bool_decide_eq_true in He.
  - apply bool_decide_eq_true, Hall. by apply list_elem_of_In.
Qed.

Lemma collapseSelfEdges_all_self x (rest : list ExtendedSimpleEdgeData) :
  Forall (λ e, source e = target e) (x :: rest) →
  collapseSelfEdges (x :: rest) = [x].
Proof.
  intros Hall. unfold collapseSelfEdges, filteri.
  rewrite (proj2 (isSelfEdge_forallb (x :: rest)) Hall).
  cbn [filterFrom]. simpl. f_equal.
  apply Forall_cons in Hall as [_ Hrest].
  rewrite (filterFrom_ext _ (λ _ _, false) 1 rest).
  - rewrite (filterFrom_filter (λ _, false)).
    induction rest as [|y rest IH]; [done|].
    rewrite filter_cons_False by done. apply IH. by apply Forall_cons in Hrest as [_ ?].
  - intros e j He Hj. rewrite Forall_forall in Hrest.
    rewrite bool_decide_eq_false_2 by lia. simpl. unfold isSelfEdge.
    by rewrite (bool_decide_eq_true_2 _ (Hrest e He)).
Qed.

Lemma collapseSelfEdges_mixed (l : list ExtendedSimpleEdgeData) :
  ¬ Forall (λ e, source e = target e) l →
  collapseSelfEdges l = filter (λ e, source e ≠ target e) l.
Proof.
  intros Hmixed. unfold collapseSelfEdges, filteri.
  destruct (forallb isSelfEdge l) eqn:Hall;
    [by apply isSelfEdge_forallb in Hall|].
  rewrite (filterFrom_ext _ (λ e _, negb (isSelfEdge e)) 0 l).
  - rewrite (filterFrom_filter (λ e, negb (isSelfEdge e))).
    apply list_filter_iff. intros e. unfold isSelfEdge.
    rewrite negb_true_iff, bool_decide_eq_false. done.
  - intros e j _ _. by rewrite andb_false_r.
Qed.

Lemma abstractCycle_Ok deps deps0 nodes dep :
  erase deps = erase deps0 → path dep ≠ [] →
  ∃ newDep deps',
    abstractCycle deps nodes dep = Ok (newDep, deps')
    ∧ erase deps' = erase deps0
    ∧ r_path newDep = collapseSelfEdges (rewrittenPath deps0 nodes dep)
    ∧ r_actualCycles newDep = [dep].
Proof.
  intros Heq Hpath. unfold abstractCycle.
  pose proof (rewrittenPath_erase deps deps0 nodes dep Heq) as Hrw.
  pose proof (rewrittenPath_nil deps nodes dep) as Hnil.
  destruct (rewritePath_erase deps deps0 nodes (path dep) Heq) as [_ Hdeps].
  unfold rewrittenPath in Hrw, Hnil at 1.
  destruct (rewritePath deps nodes (path dep)) as [newPath deps'].
  simpl in *. destruct newPath as [|first rest]; [by destruct Hpath; apply Hnil|].
  eexists _, _. split; [done|]. simpl. by rewrite Hrw.
Qed.

(** The callback of [dependencyCycles.map]: a cycle with a path that is not
    empty is rendered; when every step of its rewritten path is a self-edge,
    the first of them is kept, and when some step is no self-edge, the path
    that is kept consists of the steps that are no self-edges. *)
Lemma collapseSelfEdges_cases (newPath : list ExtendedSimpleEdgeData) :
  newPath ≠ [] →
  (Forall selfEdge newPath →
   ∃ e, collapseSelfEdges newPath = [e] ∧ selfEdge e ∧ head newPath = Some e)
  ∧ (Exists (λ e, ¬ selfEdge e) newPath →
     collapseSelfEdges newPath = filter (λ e, ¬ selfEdge e) newPath
     ∧ Forall (λ e, ¬ selfEdge e) (collapseSelfEdges newPath)).
Proof.
  intros Hne. split.
  - intros Hall. destruct newPath as [|x rest]; [done|].
    exists x. split_and!; [by apply collapseSelfEdges_all_self| |done].
    by apply Forall_cons in Hall as [? _].
  - intros Hex. rewrite collapseSelfEdges_mixed.
    + split; [done|]. apply Forall_forall. by intros e [? _]%list_elem_of_filter.
    + intros Hall. apply Exists_exists in Hex as (e & He & Hne').
      rewrite Forall_forall in Hall. by apply Hne', Hall.
Qed.

(** *** All cycles *)

Lemma abstractCycles_Ok deps deps0 nodes (cycles : list DependencyCycle) :
  erase deps = erase deps0 → Forall (λ dep, path dep ≠ []) cycles →
  ∃ newDeps deps',
    abstractCycles deps nodes cycles = Ok (newDeps, deps')
    ∧ erase deps' = erase deps0
    ∧ Forall2 (λ dep newDep,
                 r_path newDep = collapseSelfEdges (rewrittenPath deps0 nodes dep)
                 ∧ r_actualCycles newDep = [dep]) cycles newDeps.
Proof.
  intros Heq Hall. revert deps Heq.
  induction Hall as [|dep cycles Hdep Hall IH]; intros deps Heq.
  - exists [], deps. by split_and!.
  - destruct (abstractCycle_Ok deps deps0 nodes dep Heq Hdep)
      as (newDep & deps1 & Hok & Heq1 & Hp & Ha).
    destruct (IH deps1 Heq1) as (newDeps & deps2 & Hoks & Heq2 & Hall2).
    exists (newDep :: newDeps), deps2. simpl. rewrite Hok. simpl.
    rewrite Hoks. simpl. split_and!; [done..|]. by constructor.
Qed.

Lemma mergeCycles_snoc (ds : list DependencyCycleRender) d :
  mergeCycles (ds ++ [d]) =
  match list_find (λ d1, r_id d1 = r_id d) (mergeCycles ds) with
  | Some (index, d1) =>
      <[index := mkRender (r_node d1) (r_path d1) (r_length d1)
                   (r_actualCycles d1 ++ r_actualCycles d) (r_id d1)]>
        (mergeCycles ds)
  | None => mergeCycles ds ++ [d]
  end.
Proof. unfold mergeCycles. by rewrite foldl_snoc. Qed.

(** Merging loses no actual cycle and invents none. *)
Lemma mergeCycles_appearsIn (ds : list DependencyCycleRender) dep :
  appearsIn (mergeCycles ds) dep ↔ appearsIn ds dep.
Proof.
  unfold appearsIn. induction ds as [|d ds IH] using rev_ind; [done|].
  rewrite mergeCycles_snoc.
  assert (Hsplit : (∃ d', d' ∈ ds ++ [d] ∧ dep ∈ r_actualCycles d')
                   ↔ (∃ d', d' ∈ mergeCycles ds ∧ dep ∈ r_actualCycles d')
                     ∨ dep ∈ r_actualCycles d).
  { rewrite IH. split.
    - intros (d' & [Hin| ->%list_elem_of_singleton]%elem_of_app & Hdep); eauto.
    - intros [(d' & Hin & Hdep)|Hdep].
      + exists d'. split; [apply elem_of_app; by left|done].
      + exists d. split; [apply elem_of_app; right; left|done]. }
  rewrite Hsplit. clear Hsplit IH.
  destruct (list_find _ (mergeCycles ds)) as [[i d1]|] eqn:Hfind.
  - apply list_find_Some in Hfind as (Hi & _ & _). split.
    + intros (d' & (j & Hj)%list_elem_of_lookup & Hdep).
      apply list_lookup_insert_Some in Hj as [(<- & <- & _)|(Hne & Hj)].
      * simpl in Hdep. apply elem_of_app in Hdep as [Hdep|Hdep]; [|by right].
        left. exists d1. split; [by eapply list_elem_of_lookup_2|done].
      * left. exists d'. split; [by eapply list_elem_of_lookup_2|done].
    + intros [(d' & (j & Hj)%list_elem_of_lookup & Hdep)|Hdep].
      * destruct (decide (i = j)) as [<-|Hne].
        -- eexists. split.
           ++ apply list_elem_of_insert. by eapply lookup_lt_Some.
           ++ simpl. apply elem_of_app. left. by simplify_eq.
        -- exists d'. split; [|done].
           eapply list_elem_of_lookup_2. by rewrite list_lookup_insert_ne.
      * eexists. split.
        -- apply list_elem_of_insert. by eapply lookup_lt_Some.
        -- simpl. apply elem_of_app. by right.
  - split.
    + intros (d' & [Hin| ->%list_elem_of_singleton]%elem_of_app & Hdep); eauto.
    + intros [(d' & Hin & Hdep)|Hdep].
      * exists d'. split; [apply elem_of_app; by left|done].
      * exists d. split; [apply elem_of_app; right; left|done].
Qed.

Lemma mergeCycles_elem (ds : list DependencyCycleRender) d :
  d ∈ mergeCycles ds →
  ∃ d0 more,
    d0 ∈ ds
    ∧ d = mkRender (r_node d0) (r_path d0) (r_length d0)
            (r_actualCycles d0 ++ more) (r_id d0)
    ∧ ∀ dep, dep ∈ more →
        ∃ d1, d1 ∈ ds ∧ r_id d1 = r_id d0 ∧ dep ∈ r_actualCycles d1.
Proof.
  revert d. induction ds as [|x ds IH] using rev_ind; intros d.
  { by intros ?%elem_of_nil. }
  assert (Hweaken : ∀ d', d' ∈ mergeCycles ds →
    ∃ d0 more,
      d0 ∈ ds ++ [x]
      ∧ d' = mkRender (r_node d0) (r_path d0) (r_length d0)
               (r_actualCycles d0 ++ more) (r_id d0)
      ∧ ∀ dep, dep ∈ more →
          ∃ d1, d1 ∈ ds ++ [x] ∧ r_id d1 = r_id d0 ∧ dep ∈ r_actualCycles d1).
  { intros d' Hd'. destruct (IH d' Hd') as (d0 & more & Hd0 & Heq & Hmore).
    exists d0, more. split_and!; [apply elem_of_app; by left|done|].
    intros dep Hdep. destruct (Hmore dep Hdep) as (d1 & Hd1 & Hid & Hin).
    exists d1. split_and!; [apply elem_of_app; by left|done..]. }
  rewrite mergeCycles_snoc.
  destruct (list_find _ (mergeCycles ds)) as [[i d1]|] eqn:Hfind.
  - apply list_find_Some in Hfind as (Hi & Hid & _).
    intros (j & Hj)%list_elem_of_lookup.
    apply list_lookup_insert_Some in Hj as [(<- & <- & _)|(Hne & Hj)].
    + destruct (IH d1) as (d0 & more & Hd0 & Heq & Hmore);
        [by eapply list_elem_of_lookup_2|].
      exists d0, (more ++ r_actualCycles x).
      split_and!; [apply elem_of_app; by left| |].
      * rewrite Heq. cbn. by rewrite app_assoc.
      * intros dep [Hdep|Hdep]%elem_of_app.
        -- destruct (Hmore dep Hdep) as (d2 & Hd2 & Hid2 & Hin).
           exists d2. split_and!; [apply elem_of_app; by left|done..].
        -- exists x. split_and!; [apply elem_of_app; right; left| |done].
           rewrite <- Hid, Heq. done.
    + apply Hweaken. by eapply list_elem_of_lookup_2.
  - intros [Hd|Hd%list_elem_of_singleton]%elem_of_app; [by apply Hweaken|].
    exists x, []. split_and!; [apply elem_of_app; right; left| |].
    + rewrite Hd, app_nil_r. by destruct x.
    + by intros dep ?%elem_of_nil.
Qed.

Lemma isRealized_matches deps (newDep : DependencyCycleRender) :
  isRealized deps newDep = true ↔ matchesRendered deps (r_path newDep).
Proof.
  unfold isRealized, matchesRendered. rewrite existsb_exists.
  by setoid_rewrite list_elem_of_In.
Qed.

Lemma matchesRendered_erase deps deps0 (steps : list ExtendedSimpleEdgeData) :
  erase deps = erase deps0 → matchesRendered deps steps ↔ matchesRendered deps0 steps.
Proof.
  intros Heq. unfold matchesRendered.
  by setoid_rewrite (has_erase deps deps0 _ Heq).
Qed.

(** The rendered graph has the self-edge e1 of A, and e1 is a step of the
    cycle; the other steps of the cycle are not rendered under their ids, so
    that the self-edge is removed from the path and the cycle is dropped. *)
Lemma extractAndAbstractDependencyCycles_drops_matched_cycle :
  matchesRendered renderedAA (rewrittenPath renderedAA [] cycleThroughA)
  ∧ extractAndAbstractDependencyCycles [cycleThroughA] renderedAA []
    = Ok ([], [("e1", mkDependency "e1" (nodeOf "A") (nodeOf "A") true)])
  ∧ ¬ appearsIn [] cycleThroughA.
Proof.
  split_and!.
  - exists (mkStep "e1" "A" "A" (toNodeData (nodeOf "A")) (toNodeData (nodeOf "A"))).
    split; [vm_compute; left|by vm_compute].
  - by vm_compute.
  - by intros (? & ?%elem_of_nil & _).
Qed.

(** C7 (amended).  For cycles with paths that are not empty the projector
    returns, and a cycle is in its output, as an actual cycle of a rendered
    cycle, if and only if one of the edges that remain of its rewritten path
    after the collapse of the self-edges has the id of an edge of the
    rendered dependencies. *)
Theorem extractAndAbstractDependencyCycles_realization
    (dependencyCycles : list DependencyCycle) deps nodes :
  Forall (λ dep, path dep ≠ []) dependencyCycles →
  ∃ out deps',
    extractAndAbstractDependencyCycles dependencyCycles deps nodes = Ok (out, deps')
    ∧ ∀ dep, dep ∈ dependencyCycles →
        (appearsIn out dep
         ↔ matchesRendered deps (collapseSelfEdges (rewrittenPath deps nodes dep))).
Proof.
  intros Hall.
  destruct (abstractCycles_Ok deps deps nodes dependencyCycles eq_refl Hall)
    as (newDeps & deps' & Hok & Heq & Hrel).
  eexists _, deps'. unfold extractAndAbstractDependencyCycles.
  rewrite Hok. simpl. split; [done|].
  intros dep Hdep. rewrite mergeCycles_appearsIn. unfold appearsIn. split.
  - intros (r & (newDep & -> & Hin)%list_elem_of_fmap & Hact). simpl in Hact.
    apply list_elem_of_filter in Hin as [Hreal (i & Hi)%list_elem_of_lookup].
    destruct (Forall2_lookup_r _ _ _ _ _ Hrel Hi) as (dep' & _ & Hp & Ha).
    rewrite Ha in Hact. apply list_elem_of_singleton in Hact as ->.
    apply isRealized_matches in Hreal. rewrite Hp in Hreal.
    by apply (matchesRendered_erase deps' deps).
  - intros Hmatch. apply list_elem_of_lookup in Hdep as (i & Hi).
    destruct (Forall2_lookup_l _ _ _ _ _ Hrel Hi) as (newDep & Hnew & Hp & Ha).
    exists (renewId newDep). split; [|simpl; rewrite Ha; left].
    apply list_elem_of_fmap. exists newDep. split; [done|].
    apply list_elem_of_filter. split; [|by eapply list_elem_of_lookup_2].
    apply isRealized_matches. rewrite Hp.
    by apply (matchesRendered_erase deps' deps).
Qed.

Lemma extractAndAbstractDependencyCycles_realization_witness :
  ∃ out deps',
    extractAndAbstractDependencyCycles [cycleABC; cycleThroughA] renderedAA nodesABC
    = Ok (out, deps')
    ∧ appearsIn out cycleABC ∧ ¬ appearsIn out cycleThroughA.
Proof.
  destruct (extractAndAbstractDependencyCycles_realization
              [cycleABC; cycleThroughA] renderedAA nodesABC)
    as (out & deps' & Hok & Hiff).
  - repeat constructor; done.
  - exists out, deps'. split; [done|]. split.
    + apply Hiff; [left|].
      exists (mkStep "e1" "A" "A" (toNodeData (nodeOf "A")) (toNodeData (nodeOf "A"))).
      split; [vm_compute; left|by vm_compute].
    + intros Hin. apply Hiff in Hin; [|right; left].
      destruct Hin as (p & Hp & Hhas). vm_compute in Hp.
      elem_cases Hp; simplify_eq; by vm_compute in Hhas.
Defined.

(** *** Self-edges in the output *)

Lemma appearsIn_realized (cycles : list DependencyCycle) deps deps' nodes
    (newDeps : list DependencyCycleRender) dep :
  erase deps' = erase deps →
  Forall2 (λ dep newDep,
             r_path newDep = collapseSelfEdges (rewrittenPath deps nodes dep)
             ∧ r_actualCycles newDep = [dep]) cycles newDeps →
  dep ∈ cycles →
  appearsIn (mergeCycles (renewId <$> filter (λ d, isRealized deps' d = true) newDeps)) dep
  ↔ matchesRendered deps (collapseSelfEdges (rewrittenPath deps nodes dep)).
Proof.
  intros Heq Hrel Hdep. rewrite mergeCycles_appearsIn. unfold appearsIn. split.
  - intros (r & (newDep & -> & Hin)%list_elem_of_fmap & Hact). simpl in Hact.
    apply list_elem_of_filter in Hin as [Hreal (i & Hi)%list_elem_of_lookup].
    destruct (Forall2_lookup_r _ _ _ _ _ Hrel Hi) as (dep' & _ & Hp & Ha).
    rewrite Ha in Hact. apply list_elem_of_singleton in Hact as ->.
    apply isRealized_matches in Hreal. rewrite Hp in Hreal.
    by apply (matchesRendered_erase deps' deps).
  - intros Hmatch. apply list_elem_of_lookup in Hdep as (i & Hi).
    destruct (Forall2_lookup_l _ _ _ _ _ Hrel Hi) as (newDep & Hnew & Hp & Ha).
    exists (renewId newDep). split; [|simpl; rewrite Ha; left].
    apply list_elem_of_fmap. exists newDep. split; [done|].
    apply list_elem_of_filter. split; [|by eapply list_elem_of_lookup_2].
    apply isRealized_matches. rewrite Hp.
    by apply (matchesRendered_erase deps' deps).
Qed.

(** In scenario C with the self-edge of A rendered under the id e2, every
    step of the cycle is rewritten to a self-edge of A and the second step is
    rendered; the collapse keeps the first step, which is not rendered under
    its id, and the projector returns no cycle. *)
Lemma extractAndAbstractDependencyCycles_loses_internal_cycle :
  Forall selfEdge (rewrittenPath renderedAA_second nodesABC cycleABC)
  ∧ matchesRendered renderedAA_second (rewrittenPath renderedAA_second nodesABC cycleABC)
  ∧ extractAndAbstractDependencyCycles [cycleABC] renderedAA_second nodesABC
    = Ok ([], [("e2", mkDependency "e2" (nodeOf "A") (nodeOf "A") true)]).
Proof.
  split_and!.
  - vm_compute. by repeat constructor.
  - exists (mkStep "e2" "A" "A" (toNodeData (nodeOf "A")) (toNodeData (nodeOf "A"))).
    split; [vm_compute; right; left|by vm_compute].
  - by vm_compute.
Qed.

(** C6 (amended).  For cycles with paths that are not empty the projector
    returns.  Every rendered cycle of its output has the path that remains
    of the rewritten path of the first of its actual cycles: when every step
    of that rewritten path is a self-edge, the output path is its first step
    alone, one self-edge, and this step has the id of a rendered dependency;
    when some step is no self-edge, the output path consists of the steps
    that are no self-edges and has no self-edge.  A cycle of which every
    rewritten step is a self-edge is in the output if and only if the first
    of these steps has the id of a rendered dependency; otherwise it is
    dropped, also when another of its steps is rendered.  A cycle with a
    rewritten step that is no self-edge is in the output if and only if one
    of these steps has the id of a rendered dependency. *)
Theorem extractAndAbstractDependencyCycles_self_edge_collapse
    (dependencyCycles : list DependencyCycle) deps nodes :
  Forall (λ dep, path dep ≠ []) dependencyCycles →
  ∃ out deps',
    extractAndAbstractDependencyCycles dependencyCycles deps nodes = Ok (out, deps')
    ∧ (∀ d, d ∈ out →
         ∃ dep, dep ∈ dependencyCycles ∧ head (r_actualCycles d) = Some dep
           ∧ (Forall selfEdge (rewrittenPath deps nodes dep) →
              ∃ e, r_path d = [e] ∧ selfEdge e
                   ∧ head (rewrittenPath deps nodes dep) = Some e
                   ∧ MapSet.has deps (id e) = true)
           ∧ (Exists (λ e, ¬ selfEdge e) (rewrittenPath deps nodes dep) →
              r_path d = filter (λ e, ¬ selfEdge e) (rewrittenPath deps nodes dep)
              ∧ Forall (λ e, ¬ selfEdge e) (r_path d)))
    ∧ (∀ dep, dep ∈ dependencyCycles →
         (Forall selfEdge (rewrittenPath deps nodes dep) →
          (appearsIn out dep
           ↔ ∃ e, head (rewrittenPath deps nodes dep) = Some e
                  ∧ MapSet.has deps (id e) = true))
         ∧ (Exists (λ e, ¬ selfEdge e) (rewrittenPath deps nodes dep) →
            (appearsIn out dep
             ↔ ∃ e, e ∈ rewrittenPath deps nodes dep ∧ ¬ selfEdge e
                    ∧ MapSet.has deps (id e) = true))).
Proof.
  intros Hall.
  destruct (abstractCycles_Ok deps deps nodes dependencyCycles eq_refl Hall)
    as (newDeps & deps' & Hok & Heq & Hrel).
  eexists _, deps'. unfold extractAndAbstractDependencyCycles.
  rewrite Hok. simpl. split; [done|].
  assert (Hne : ∀ dep, dep ∈ dependencyCycles → rewrittenPath deps nodes dep ≠ []).
  { intros dep Hdep Hnil%rewrittenPath_nil. rewrite Forall_forall in Hall.
    by apply (Hall dep Hdep). }
  split.
  - intros d (d0 & more & Hd0 & -> & _)%mergeCycles_elem. cbn [r_path r_actualCycles].
    apply list_elem_of_fmap in Hd0 as (newDep & -> & Hin). cbn [renewId r_path r_actualCycles].
    apply list_elem_of_filter in Hin as [Hreal (i & Hi)%list_elem_of_lookup].
    destruct (Forall2_lookup_r _ _ _ _ _ Hrel Hi) as (dep & Hdep%list_elem_of_lookup_2 & Hp & Ha).
    exists dep. rewrite Ha, Hp. split_and!; [done..| |].
    + intros Hself.
      destruct (collapseSelfEdges_cases _ (Hne dep Hdep)) as [Hone _].
      destruct (Hone Hself) as (e & Hcollapse & He & Hhead).
      exists e. split_and!; [done..|].
      apply isRealized_matches in Hreal.
      apply (matchesRendered_erase deps' deps) in Hreal; [|done].
      rewrite Hp, Hcollapse in Hreal.
      by destruct Hreal as (p & ->%list_elem_of_singleton & Hhas).
    + intros Hmixed.
      destruct (collapseSelfEdges_cases _ (Hne dep Hdep)) as [_ Hfilter].
      by apply Hfilter.
  - intros dep Hdep.
    rewrite (appearsIn_realized _ _ _ _ _ _ Heq Hrel Hdep).
    destruct (collapseSelfEdges_cases _ (Hne dep Hdep)) as [Hone Hfilter].
    unfold matchesRendered. split.
    + intros Hself. destruct (Hone Hself) as (e & -> & He & Hhead). rewrite Hhead.
      split.
      * intros (p & ->%list_elem_of_singleton & Hhas). eauto.
      * intros (e' & [= <-] & Hhas). exists e. split; [left|done].
    + intros Hmixed. destruct (Hfilter Hmixed) as [-> _].
      setoid_rewrite list_elem_of_filter. naive_solver.
Qed.

(** Scenario C: the cycle from A to B to C and back, with B and C lifted to
    A, is rendered as the one self-edge e1 of A. *)
Lemma extractAndAbstractDependencyCycles_self_edge_collapse_witness :
  ∃ out deps',
    extractAndAbstractDependencyCycles [cycleABC] renderedAA nodesABC = Ok (out, deps')
    ∧ ∀ d, d ∈ out →
        r_path d = [mkStep "e1" "A" "A" (toNodeData (nodeOf "A")) (toNodeData (nodeOf "A"))].
Proof.
  assert (Hpaths : Forall (λ dep, path dep ≠ []) [cycleABC]) by (by repeat constructor).
  destruct (extractAndAbstractDependencyCycles_self_edge_collapse
              [cycleABC] renderedAA nodesABC Hpaths)
    as (out & deps' & Hok & Hout & _).
  exists out, deps'. split; [done|].
  intros d (dep & ->%list_elem_of_singleton & _ & Hself & _)%Hout.
  destruct Hself as (e & -> & _ & Hhead & _).
  - vm_compute. by repeat constructor.
  - vm_compute in Hhead. by injection Hhead as <-.
Defined.
End violations.

(* ================================================================== *)
(** * Further properties of the services *)
(* ================================================================== *)

(** ** Validation *)

Section validation_facts.
Import PostProcessingService ValidationSpec ValidationFacts.

Lemma blankKnown_invalid_iff nodeIds e :
  (Edge.source (blankKnown nodeIds e) ≠ EmptyString
   ∨ Edge.target (blankKnown nodeIds e) ≠ EmptyString)
  ↔ ¬ ((Edge.source e ∈ nodeIds ∨ Edge.source e = EmptyString)
       ∧ (Edge.target e ∈ nodeIds ∨ Edge.target e = EmptyString)).
Proof.
  unfold blankKnown, includes. simpl.
  destruct (decide (Edge.source e ∈ nodeIds)) as [Hi|Hi];
    destruct (decide (Edge.target e ∈ nodeIds)) as [Hj|Hj];
    rewrite ?(bool_decide_eq_true_2 _ Hi), ?(bool_decide_eq_false_2 _ Hi),
      ?(bool_decide_eq_true_2 _ Hj), ?(bool_decide_eq_false_2 _ Hj);
    destruct (decide (Edge.source e = EmptyString));
    destruct (decide (Edge.target e = EmptyString)); naive_solver.
Qed.

(** X2.  [validateGraph] returns exactly when every endpoint of every edge
    is the id of a node or the empty string; otherwise it throws a single
    error whose message starts with the name of the graph. *)
Theorem validateGraph_returns_iff g :
  (endpointsKnownOrBlank g ∧ validateGraph g = Ok tt)
  ∨ (¬ endpointsKnownOrBlank g
     ∧ ∃ details, validateGraph g = Throw (failureMessage g details)).
Proof.
  unfold validateGraph, MapSet.map, endpointsKnownOrBlank.
  set (bad := filter _ (blankKnown (MapSet.keys (nodes g)) <$> MapSet.values (edges g))).
  destruct bad as [|b bad'] eqn:Hbad.
  - left. split; [|done]. intros e He.
    destruct (decide ((Edge.source e ∈ MapSet.keys (nodes g) ∨ Edge.source e = EmptyString)
                      ∧ (Edge.target e ∈ MapSet.keys (nodes g)
                         ∨ Edge.target e = EmptyString))) as [|Hno]; [done|].
    apply blankKnown_invalid_iff in Hno.
    assert (Hin : blankKnown (MapSet.keys (nodes g)) e ∈ bad).
    { subst bad. apply list_elem_of_filter. split; [done|].
      by apply list_elem_of_fmap_2. }
    rewrite Hbad in Hin. by apply elem_of_nil in Hin.
  - right. split.
    + intros Hall.
      assert (Hb : b ∈ bad) by (rewrite Hbad; left).
      subst bad. apply list_elem_of_filter in Hb as [Hinv Hb].
      apply list_elem_of_fmap in Hb as (e & -> & He).
      apply blankKnown_invalid_iff in Hinv. by apply Hinv, Hall.
    + rewrite decide_False by (simpl; lia).
      by eexists.
Qed.

Lemma danglingGraph_nonEmpty : endpointsNonEmpty danglingGraph.
Proof.
  intros e He. vm_compute in He. elem_cases He; by simplify_eq.
Qed.

Lemma validateGraph_nonEmpty_witness :
  validateGraph danglingGraph
  = Throw "Graph 'G' is invalid due to the following edges: Edge 'e2': unknown target 'W'".
Proof.
  destruct (validateGraph_nonEmpty danglingGraph danglingGraph_nonEmpty)
    as [[Hknown _]|[_ ->]]; [|done].
  destruct (Hknown (Edge.mk "e2" "Y" "W" "calls" 1)) as [_ Ht].
  - vm_compute. right. left.
  - vm_compute in Ht. elem_cases Ht; by simplify_eq.
Defined.
End validation_facts.

(** ** Deduplication of edges *)

Section dedup_facts.
Import GraphProcessingService EngineSpec DedupFacts.

Implicit Types (l k : list Edge.t).

Lemma mergeDuplicateEdges_unchanged l :
  NoDup (Edge.pair <$> l) → mergeDuplicateEdges l = l.
Proof.
  induction l as [|x l IH] using rev_ind; [done|].
  rewrite fmap_app. intros (Hl & Hx & _)%NoDup_app.
  rewrite mergeDuplicateEdges_snoc, IH by done.
  destruct (list_find _ l) as [[i e]|] eqn:Hfind; [|done].
  apply list_find_Some in Hfind as (Hi%list_elem_of_lookup_2 & Hpair%pair_eq & _).
  destruct (Hx (Edge.pair e)); [by apply list_elem_of_fmap_2|].
  rewrite Hpair. left.
Qed.

(** X3.  An edge list in which no two edges have the same source and target
    is returned unchanged, and deduplicating a deduplicated list changes
    nothing. *)
Theorem mergeDuplicateEdges_idempotent l :
  (NoDup (Edge.pair <$> l) → mergeDuplicateEdges l = l)
  ∧ mergeDuplicateEdges (mergeDuplicateEdges l) = mergeDuplicateEdges l.
Proof.
  split; [apply mergeDuplicateEdges_unchanged|].
  apply mergeDuplicateEdges_unchanged.
  by destruct (mergeDuplicateEdges_spec l) as [? _].
Qed.

Lemma mergeDuplicateEdges_idempotent_witness :
  mergeDuplicateEdges distinctPairs = distinctPairs.
Proof.
  apply mergeDuplicateEdges_idempotent.
  vm_compute. repeat (constructor; [set_solver|]). constructor.
Defined.

Lemma totalWeight_insert l i e w :
  l !! i = Some e →
  totalWeight (<[i := addWeight e w]> l) = (totalWeight l + w)%nat.
Proof.
  unfold totalWeight. revert i. induction l as [|x l IH]; intros [|i] Hi; try done.
  - simpl in *. simplify_eq. simpl. lia.
  - simpl in *. rewrite (IH i Hi). lia.
Qed.

Lemma attributes_insert l i e w :
  l !! i = Some e →
  attributes <$> <[i := addWeight e w]> l = attributes <$> l.
Proof.
  intros Hi. rewrite list_fmap_insert. apply list_insert_id.
  by rewrite list_lookup_fmap, Hi.
Qed.

(** X4.  Deduplication keeps the sum of the weights, and edges that come
    later never move, remove or relabel an edge that is there: the edges of
    a list, without their weights, are the beginning of the edges of every
    longer list. *)
Theorem mergeDuplicateEdges_total_weight l k :
  totalWeight (mergeDuplicateEdges l) = totalWeight l
  ∧ attributes <$> mergeDuplicateEdges l
    `prefix_of` attributes <$> mergeDuplicateEdges (l ++ k).
Proof.
  split.
  - induction l as [|x l IH] using rev_ind; [done|].
    rewrite mergeDuplicateEdges_snoc.
    destruct (list_find _ (mergeDuplicateEdges l)) as [[i e]|] eqn:Hfind.
    + apply list_find_Some in Hfind as (Hi & _ & _).
      rewrite (totalWeight_insert _ _ _ _ Hi), IH.
      unfold totalWeight. rewrite sum_list_with_app. simpl. lia.
    + unfold totalWeight in *. rewrite !sum_list_with_app, IH. done.
  - induction k as [|x k IH] using rev_ind; [by rewrite app_nil_r|].
    rewrite app_assoc, mergeDuplicateEdges_snoc.
    destruct (list_find _ (mergeDuplicateEdges (l ++ k))) as [[i e]|] eqn:Hfind.
    + apply list_find_Some in Hfind as (Hi & _ & _).
      by rewrite (attributes_insert _ _ _ _ Hi).
    + rewrite fmap_app. by apply prefix_app_r.
Qed.
End dedup_facts.

(** ** The edges of the records *)

Section engine_facts.
Import GraphProcessingService EngineSpec AbstractionSpec IdempotenceSpec EngineFacts.

Lemma getAllEdges_map_sublist seen (rs : list Rel.t) :
  omap id (getAllEdges_map seen rs) `sublist_of` toEdgeData <$> rs.
Proof.
  revert seen. induction rs as [|r rs IH]; intros seen; simpl; [done|].
  destruct (includes seen (Rel.elementId r)); simpl.
  - by apply sublist_cons.
  - by apply sublist_skip.
Qed.

Lemma getAllEdges_map_first seen (rs : list Rel.t) e :
  e ∈ omap id (getAllEdges_map seen rs) →
  ∃ i r, list_find (λ r, Rel.elementId r = Edge.id e) rs = Some (i, r)
         ∧ e = toEdgeData r.
Proof.
  revert seen. induction rs as [|r rs IH]; intros seen; simpl.
  { by intros ?%elem_of_nil. }
  unfold includes. case_bool_decide as Hseen; simpl.
  - intros He. pose proof (getAllEdges_map_sound _ _ _ He) as [Hid _].
    destruct (IH _ He) as (i & r' & Hfind & ->).
    exists (S i), r'. split; [|done]. simpl in *.
    rewrite decide_False; [by rewrite Hfind|].
    intros Heq. apply Hid. by rewrite <- Heq.
  - intros [->|He]%elem_of_cons.
    + exists 0%nat, r. by rewrite decide_True.
    + pose proof (getAllEdges_map_sound _ _ _ He) as [Hid _].
      destruct (IH _ He) as (i & r' & Hfind & ->).
      exists (S i), r'. split; [|done]. simpl in *.
      rewrite decide_False; [by rewrite Hfind|].
      intros Heq. apply Hid. rewrite <- Heq. set_solver.
Qed.

Lemma getAllEdges_map_all seen (rs : list Rel.t) :
  NoDup (Rel.elementId <$> rs) → (∀ r, r ∈ rs → Rel.elementId r ∉ seen) →
  omap id (getAllEdges_map seen rs) = toEdgeData <$> rs.
Proof.
  revert seen. induction rs as [|r rs IH]; intros seen Hnd Hseen; [done|].
  apply NoDup_cons in Hnd as [Hr Hnd]. simpl. unfold includes.
  rewrite bool_decide_eq_false_2 by (apply Hseen; left). simpl. f_equal.
  apply IH; [done|]. intros r' Hr' [Hin|Heq%list_elem_of_singleton]%elem_of_app.
  - apply (Hseen r'); [by right|done].
  - apply Hr. rewrite <- Heq. by apply list_elem_of_fmap_2.
Qed.

(** X5.  [getAllEdges] lists the relationships of the records in path order
    and leaves out nothing but repetitions: every edge is made of the first
    relationship with its id, and when no id is repeated every relationship
    has its edge. *)
Theorem getAllEdges_first_occurrences (records : list Path.t) :
  getAllEdges records `sublist_of` toEdgeData <$> rawEdges records
  ∧ (∀ e, e ∈ getAllEdges records →
       ∃ i r, list_find (λ r, Rel.elementId r = Edge.id e) (rawEdges records)
              = Some (i, r)
              ∧ e = toEdgeData r)
  ∧ (NoDup (Rel.elementId <$> rawEdges records) →
     getAllEdges records = toEdgeData <$> rawEdges records).
Proof.
  split_and!.
  - apply getAllEdges_map_sublist.
  - apply getAllEdges_map_first.
  - intros Hnd. apply getAllEdges_map_all; [done|].
    intros r _. apply not_elem_of_nil.
Qed.

(** *** A cutoff that no record exceeds *)

Lemma splice_nothing {A} (l : list A) (start deleteCount : Z) :
  deleteCount ≤ 0 → splice l start deleteCount = ([], l).
Proof.
  intros Hc. unfold splice.
  set (len := Z.of_nat (length l)).
  set (actualStart := if start <? 0 then Z.max (len + start) 0 else Z.min start len).
  assert (0 ≤ actualStart ≤ len).
  { subst actualStart len. destruct (start <? 0) eqn:Hs; lia. }
  replace (Z.min (Z.max deleteCount 0) (len - actualStart)) with 0 by lia.
  simpl. by rewrite Nat.add_0_r, take_drop.
Qed.

Lemma spliceRecord_within maxDepth (record : Path.t) :
  Path.sourceDepth record ≤ maxDepth →
  spliceRecord maxDepth record = ([], [], record).
Proof.
  intros Hd. unfold spliceRecord.
  rewrite Z.max_l by lia. rewrite !splice_nothing by lia.
  by destruct record.
Qed.

Lemma addToReplaceMap_nil_runs (m : gmap string string) (runs : list (list Rel.t)) :
  Forall (.= []) runs → foldl addToReplaceMap m runs = m.
Proof.
  induction 1 as [|run runs -> _ IH]; [done|]. simpl. apply IH.
Qed.

Lemma getAbstractionMap_within maxDepth (records : list Path.t) :
  withinCutoff maxDepth records →
  getAbstractionMap maxDepth records = (∅, records).
Proof.
  intros Hall. rewrite getAbstractionMap_unfold. f_equal.
  - apply addToReplaceMap_nil_runs. unfold allDeletedRuns.
    apply Forall_forall. intros run (runs & Hrun & Hruns)%list_elem_of_join.
    apply list_elem_of_fmap in Hruns as (r & -> & Hr).
    unfold withinCutoff in Hall. rewrite Forall_forall in Hall.
    unfold deletedRuns in Hrun. rewrite (spliceRecord_within _ _ (Hall r Hr)) in Hrun.
    elem_cases Hrun; by simplify_eq.
  - rewrite <- (list_fmap_id records) at 2. apply list_fmap_ext.
    intros i r Hr%list_elem_of_lookup_2.
    unfold withinCutoff in Hall. rewrite Forall_forall in Hall.
    unfold splicedRecord. by rewrite (spliceRecord_within _ _ (Hall r Hr)).
Qed.

(** X6.  When no record has a leading chunk deeper than the cutoff,
    [getAbstractionMap] deletes nothing and returns the empty map, and
    [formatToLPG] returns the graph that it returns without a cutoff. *)
Theorem formatToLPG_cutoff_not_exceeded maxDepth original name selfEdges :
  withinCutoff maxDepth (original_records original) →
  getAbstractionMap maxDepth (original_records original)
  = (∅, original_records original)
  ∧ formatToLPG original name (mkOptions (Some maxDepth) selfEdges)
    = formatToLPG original name (mkOptions None selfEdges).
Proof.
  intros Hall. split; [by apply getAbstractionMap_within|].
  unfold formatToLPG, mergedEdges, abstractedRecords. simpl.
  by rewrite (getAbstractionMap_within _ _ Hall), applyAbstraction_empty.
Qed.

Lemma formatToLPG_cutoff_not_exceeded_witness :
  formatToLPG DeterminismSpec.evenOriginal "dependencies" (mkOptions (Some 2) None)
  = formatToLPG DeterminismSpec.evenOriginal "dependencies" (mkOptions None None).
Proof.
  apply formatToLPG_cutoff_not_exceeded.
  repeat constructor; by vm_compute.
Defined.

(** *** Rewriting through the map *)

Lemma abstractEdge_twice (m : gmap string string) (e : Rel.t) :
  idempotent m → abstractEdge m (abstractEdge m e) = abstractEdge m e.
Proof.
  intros Hidem. unfold abstractEdge. simpl.
  pose proof (Hidem (Rel.startNodeElementId e)) as Hs.
  pose proof (Hidem (Rel.endNodeElementId e)) as Ht.
  unfold applyMap in Hs, Ht. by rewrite Hs, Ht.
Qed.

(** X7.  [applyAbstraction] keeps the ids of all edges of the records, in
    their order, and the containment chunks as they are; with a map that is
    idempotent, rewriting the records once more changes nothing. *)
Theorem applyAbstraction_keeps_edges (records : list Path.t)
    (m : gmap string string) :
  Rel.elementId <$> rawEdges (applyAbstraction records m)
  = Rel.elementId <$> rawEdges records
  ∧ Path.containSourceEdges <$> applyAbstraction records m
    = Path.containSourceEdges <$> records
  ∧ Path.containTargetEdges <$> applyAbstraction records m
    = Path.containTargetEdges <$> records
  ∧ (idempotent m →
     applyAbstraction (applyAbstraction records m) m = applyAbstraction records m).
Proof.
  unfold applyAbstraction, rawEdges. split_and!.
  - induction records as [|r rs IH]; [done|].
    rewrite !fmap_cons. simpl. rewrite !fmap_app, IH. f_equal.
    unfold Path.allEdges. simpl. rewrite !fmap_app. do 2 f_equal.
    rewrite <- list_fmap_compose. done.
  - by rewrite <- list_fmap_compose.
  - by rewrite <- list_fmap_compose.
  - intros Hidem. rewrite <- list_fmap_compose.
    apply list_fmap_ext. intros _ r _. simpl. f_equal.
    rewrite <- list_fmap_compose. apply list_fmap_ext. intros _ e _. simpl.
    by apply abstractEdge_twice.
Qed.

Lemma applyAbstraction_keeps_edges_witness :
  let m := (getAbstractionMap 1 evenRecords).1 in
  applyAbstraction (applyAbstraction evenRecords m) m = applyAbstraction evenRecords m.
Proof.
  intros m. apply applyAbstraction_keeps_edges.
  intros k. unfold applyMap.
  destruct (m !! k) as [v|] eqn:Hk; simpl; [|by rewrite Hk].
  assert (Hv : v ∈ ["A1"; "A2"]).
  { subst m. rewrite getAbstractionMap_unfold in Hk. cbn [fst] in Hk.
    apply replaceMap_lookup_empty, mappedByLast_elem in Hk as (run & Hrun & _ & Ht).
    vm_compute in Hrun.
    elem_cases Hrun; subst; vm_compute in Ht; simplify_eq;
      first [by left | by right; left]. }
  elem_cases Hv; by simplify_eq.
Defined.

(** *** The rendered edges and the parents of the nodes *)

Lemma formatToLPG_edges_sublist original name options :
  edges (formatToLPG original name options)
  `sublist_of` mergedEdges original (maxDepth options).
Proof.
  rewrite formatToLPG_edges. simpl.
  destruct (selfEdges options) as [[]|]; unfold filterSelfEdges;
    repeat (etrans; [apply sublist_filter|]); done.
Qed.

Lemma formatToLPG_edges_dependency original name options e :
  e ∈ edges (formatToLPG original name options) → Edge.interaction e ≠ "contains".
Proof.
  rewrite formatToLPG_edges. simpl.
  destruct (selfEdges options) as [[]|]; unfold filterSelfEdges;
    rewrite ?list_elem_of_filter; tauto.
Qed.

(** X8.  No edge that [formatToLPG] returns is a containment edge; no two
    returned edges have the same source and target; every returned edge has
    a weight of at least 1 and the id, the endpoints and the type of a
    relationship of the rewritten records. *)
Theorem formatToLPG_rendered_edges original name options :
  NoDup (Edge.pair <$> edges (formatToLPG original name options))
  ∧ ∀ e, e ∈ edges (formatToLPG original name options) →
      Edge.interaction e ≠ "contains"
      ∧ (1 ≤ Edge.weight e)%nat
      ∧ ∃ r, r ∈ rawEdges (abstractedRecords original (maxDepth options))
             ∧ rendersRelationship e r.
Proof.
  unfold mergedEdges.
  destruct (mergeDuplicateEdges_spec
              (getAllEdges (abstractedRecords original (maxDepth options))))
    as (Hnd & Hw & _).
  split.
  - eapply sublist_NoDup; [exact Hnd|].
    apply fmap_sublist, formatToLPG_edges_sublist.
  - intros e He. split; [by eapply formatToLPG_edges_dependency|].
    apply formatToLPG_edges_merged in He.
    destruct (Hw e He) as (Hweight & i & e0 & Hfind & Hid & Hs & Ht & Hi).
    apply list_find_Some in Hfind as (He0%list_elem_of_lookup_2 & Hpair & _).
    pose proof (getAllEdges_weight _ _ He0) as Hone.
    pose proof He0 as (r & Hr & ->)%getAllEdges_sound.
    split.
    + rewrite Hweight, <- Hone. unfold weightOf.
      apply (sum_list_with_in _ Edge.weight). by apply list_elem_of_filter.
    + exists r. split; [done|]. unfold rendersRelationship.
      by rewrite <- Hid, <- Hs, <- Ht, <- Hi.
Qed.

Lemma addParentRelationship_snoc (ns : list Node.t) (es : list Edge.t) e :
  addParentRelationship ns (es ++ [e]) =
  match list_find (λ n, Node.id n = Edge.target e) (addParentRelationship ns es) with
  | None => addParentRelationship ns es
  | Some (i, target) =>
      <[i := Node.setParent target (Edge.source e)]> (addParentRelationship ns es)
  end.
Proof. unfold addParentRelationship. by rewrite foldl_snoc. Qed.

Lemma parentFrom_id es n n' : parentFrom es n n' → Node.id n' = Node.id n.
Proof. by intros [->|(e & _ & _ & ->)]. Qed.

Lemma parentFrom_app es e n n' : parentFrom es n n' → parentFrom (es ++ [e]) n n'.
Proof.
  intros [->|(e' & He' & Ht & ->)]; [by left|].
  right. exists e'. split; [apply elem_of_app; by left|done].
Qed.

Lemma addParentRelationship_parentFrom (ns : list Node.t) (es : list Edge.t) :
  Forall2 (parentFrom es) ns (addParentRelationship ns es).
Proof.
  induction es as [|e es IH] using rev_ind.
  { apply Forall_Forall2_diag, Forall_forall. intros n _. by left. }
  rewrite addParentRelationship_snoc.
  destruct (list_find _ (addParentRelationship ns es)) as [[i t]|] eqn:Hfind.
  - apply list_find_Some in Hfind as (Hi & Hid & _).
    apply Forall2_same_length_lookup_2.
    { rewrite length_insert. by eapply Forall2_length. }
    intros j n y Hn Hy.
    apply list_lookup_insert_Some in Hy as [(<- & <- & _)|(Hne & Hy)].
    + pose proof (Forall2_lookup_lr _ _ _ _ _ _ IH Hn Hi) as Hrel.
      right. exists e. split; [apply elem_of_app; right; left|].
      rewrite <- (parentFrom_id _ _ _ Hrel). split; [done|].
      by destruct Hrel as [->|(e' & _ & _ & ->)].
    + apply parentFrom_app. by eapply Forall2_lookup_lr.
  - eapply Forall2_impl; [exact IH|]. intros n n'. apply parentFrom_app.
Qed.

Lemma addParentRelationship_parent_set (ns : list Node.t) (es : list Edge.t) n' e :
  NoDup (Node.id <$> ns) →
  n' ∈ addParentRelationship ns es → e ∈ es → Edge.target e = Node.id n' →
  ∃ e', e' ∈ es ∧ Edge.target e' = Node.id n'
        ∧ Node.parent n' = Some (Edge.source e').
Proof.
  intros Hnd. revert n' e. induction es as [|x es IH] using rev_ind.
  { by intros n' e _ ?%elem_of_nil. }
  intros n' e. rewrite addParentRelationship_snoc.
  pose proof (addParentRelationship_ids ns es) as Hids.
  set (acc := addParentRelationship ns es) in *.
  assert (Hweaken : ∀ n', (∃ e', e' ∈ es ∧ Edge.target e' = Node.id n'
                                 ∧ Node.parent n' = Some (Edge.source e')) →
                          ∃ e', e' ∈ es ++ [x] ∧ Edge.target e' = Node.id n'
                                ∧ Node.parent n' = Some (Edge.source e')).
  { intros m (e' & ? & ? & ?). exists e'. split; [apply elem_of_app; by left|done]. }
  destruct (list_find _ acc) as [[i t]|] eqn:Hfind.
  - apply list_find_Some in Hfind as (Hi & Hid & _).
    intros (j & Hj)%list_elem_of_lookup He Ht.
    apply list_lookup_insert_Some in Hj as [(<- & <- & _)|(Hne & Hj)].
    + exists x. split; [apply elem_of_app; right; left|done].
    + assert (Hx : Edge.target x ≠ Node.id n').
      { intros Heq. apply Hne.
        eapply (NoDup_lookup (Node.id <$> acc)); [by rewrite Hids|..];
          rewrite list_lookup_fmap; [by rewrite Hi|].
        rewrite Hj. simpl. by rewrite Hid, Heq. }
      apply Hweaken.
      apply elem_of_app in He as [He|Hex%list_elem_of_singleton]; [|by subst].
      apply (IH n' e); [by eapply list_elem_of_lookup_2|done..].
  - intros Hn' He Ht. apply Hweaken.
    apply elem_of_app in He as [He|Hex%list_elem_of_singleton]; [by apply (IH n' e)|].
    subst e. apply list_find_None in Hfind. rewrite Forall_forall in Hfind.
    by destruct (Hfind n' Hn').
Qed.

(** X9.  The nodes that [formatToLPG] returns are the nodes of the
    pre-processor that lie on an edge, in their order, each as it was or with
    the source of a containment edge that ends in it as its parent; when the
    ids of the nodes are unique, every returned node in which a containment
    edge ends has the source of such an edge as its parent. *)
Theorem formatToLPG_parents original name options :
  let merged := mergedEdges original (maxDepth options) in
  Forall2 (parentFrom (containmentEdges merged))
    (filterNodesByEdges (original_nodes original) merged)
    (nodes (formatToLPG original name options))
  ∧ (NoDup (Node.id <$> original_nodes original) →
     ∀ n' e, n' ∈ nodes (formatToLPG original name options) →
       e ∈ containmentEdges merged → Edge.target e = Node.id n' →
       ∃ e', e' ∈ containmentEdges merged ∧ Edge.target e' = Node.id n'
             ∧ Node.parent n' = Some (Edge.source e')).
Proof.
  intros merged. split.
  - apply addParentRelationship_parentFrom.
  - intros Hnd n' e. apply addParentRelationship_parent_set.
    eapply sublist_NoDup; [exact Hnd|].
    apply fmap_sublist. unfold filterNodesByEdges. apply sublist_filter.
Qed.
End engine_facts.

(** ** The violation projector: failure, marks and merged cycles *)

Section projection_facts.
Import ViolationCyclicalDependenciesService ViolationSpec ProjectionFacts.

Implicit Types (deps : MapSet.t Neo4jDependencyRelationship)
  (nodes : MapSet.t Neo4jComponentNode.t) (dep : DependencyCycle)
  (cycles : list DependencyCycle).

(** *** Empty paths *)

Lemma abstractCycle_empty_path deps nodes dep :
  path dep = [] → abstractCycle deps nodes dep = Throw emptyPathError.
Proof. intros Hp. unfold abstractCycle. by rewrite Hp. Qed.

Lemma abstractCycles_empty_path deps nodes cycles :
  Exists (λ dep, path dep = []) cycles →
  abstractCycles deps nodes cycles = Throw emptyPathError.
Proof.
  intros Hex. revert deps. induction cycles as [|dep cycles IH]; intros deps.
  { by apply Exists_nil in Hex. }
  simpl. destruct (path dep) as [|d p] eqn:Hp.
  - by rewrite (abstractCycle_empty_path _ _ _ Hp).
  - apply Exists_cons in Hex as [Hex|Hex]; [congruence|].
    destruct (abstractCycle_Ok deps deps nodes dep eq_refl) as (nd & deps' & -> & _);
      [congruence|].
    simpl. by rewrite (IH Hex).
Qed.

Lemma paths_empty_or_not cycles :
  Forall (λ dep, path dep ≠ []) cycles ∨ Exists (λ dep, path dep = []) cycles.
Proof.
  induction cycles as [|dep cycles [IH|IH]].
  - left. constructor.
  - destruct (path dep) eqn:Hp.
    + right. by left.
    + left. constructor; [congruence|done].
  - right. by right.
Qed.

(** X10.  Without cycles the projector returns no rendered cycle and leaves
    the dependencies as they are; it throws, a [TypeError], exactly when the
    path of some cycle is empty. *)
Theorem extractAndAbstractDependencyCycles_failure cycles deps nodes :
  extractAndAbstractDependencyCycles [] deps nodes = Ok ([], deps)
  ∧ (extractAndAbstractDependencyCycles cycles deps nodes = Throw emptyPathError
     ↔ Exists (λ dep, path dep = []) cycles)
  ∧ (Forall (λ dep, path dep ≠ []) cycles
     ↔ ∃ out deps', extractAndAbstractDependencyCycles cycles deps nodes
                    = Ok (out, deps')).
Proof.
  assert (Hthrow : Exists (λ dep, path dep = []) cycles →
    extractAndAbstractDependencyCycles cycles deps nodes = Throw emptyPathError).
  { intros Hex. unfold extractAndAbstractDependencyCycles.
    by rewrite (abstractCycles_empty_path _ _ _ Hex). }
  assert (Hok : Forall (λ dep, path dep ≠ []) cycles →
    ∃ out deps', extractAndAbstractDependencyCycles cycles deps nodes = Ok (out, deps')).
  { intros Hall.
    destruct (abstractCycles_Ok deps deps nodes cycles eq_refl Hall)
      as (newDeps & deps' & Heq & _).
    unfold extractAndAbstractDependencyCycles. rewrite Heq. simpl. eauto. }
  split_and!; [done|split; [|done]|split; [done|]].
  - intros Heq. destruct (paths_empty_or_not cycles) as [Hall|Hex]; [|done].
    destruct (Hok Hall) as (? & ? & Heq'). congruence.
  - intros (out & deps' & Heq).
    destruct (paths_empty_or_not cycles) as [Hall|Hex]; [done|].
    rewrite (Hthrow Hex) in Heq. discriminate.
Qed.

(** *** The marks of the rendered dependencies *)

Lemma get_set {V} (m : MapSet.t V) k v k' :
  is_Some (MapSet.get m k) →
  MapSet.get (MapSet.set m k v) k' = if decide (k = k') then Some v else MapSet.get m k'.
Proof.
  induction m as [|[k0 v0] m IH]; simpl; [by intros [? ?]|].
  destruct (decide (k0 = k)) as [->|Hne]; simpl.
  - intros _. by destruct (decide (k = k')).
  - intros Hsome. destruct (decide (k0 = k')) as [->|Hne'].
    + by rewrite decide_False.
    + by apply IH.
Qed.

Lemma markedIf_elem ids k e : k ∈ ids → markedIf ids k e = marked e.
Proof. intros Hin. unfold markedIf. by rewrite decide_True. Qed.

Lemma markedIf_not_elem ids k e : k ∉ ids → markedIf ids k e = e.
Proof. intros Hin. unfold markedIf. by rewrite decide_False. Qed.

Lemma markedIf_app ids1 ids2 k e :
  markedIf ids2 k (markedIf ids1 k e) = markedIf (ids1 ++ ids2) k e.
Proof.
  destruct (decide (k ∈ ids1)) as [H1|H1]; destruct (decide (k ∈ ids2)) as [H2|H2].
  - rewrite (markedIf_elem ids1), (markedIf_elem ids2) by done.
    by rewrite markedIf_elem by (apply elem_of_app; auto).
  - rewrite (markedIf_elem ids1), (markedIf_not_elem ids2) by done.
    by rewrite markedIf_elem by (apply elem_of_app; auto).
  - rewrite (markedIf_not_elem ids1), (markedIf_elem ids2) by done.
    by rewrite markedIf_elem by (apply elem_of_app; auto).
  - rewrite (markedIf_not_elem ids1), (markedIf_not_elem ids2) by done.
    by rewrite markedIf_not_elem by (rewrite elem_of_app; tauto).
Qed.

Lemma markedIf_nil k (o : option Neo4jDependencyRelationship) :
  markedIf [] k <$> o = o.
Proof.
  destruct o as [e|]; [|done].
  change (Some (markedIf [] k e) = Some e).
  by rewrite markedIf_not_elem by apply not_elem_of_nil.
Qed.

Lemma rewriteEdge_get deps nodes d k :
  MapSet.get (rewriteEdge deps nodes d).2 k
  = markedIf [id d] k <$> MapSet.get deps k.
Proof.
  unfold rewriteEdge, getOriginal.
  destruct (MapSet.get deps (id d)) as [e|] eqn:He; cbn [snd].
  - unfold markDependencyCycle. rewrite get_set by (by rewrite He).
    destruct (decide (id d = k)) as [<-|Hne].
    + rewrite He. cbn. f_equal. symmetry. apply markedIf_elem. left.
    + destruct (MapSet.get deps k) as [e'|]; [|done]. cbn. f_equal.
      symmetry. apply markedIf_not_elem. by intros ?%list_elem_of_singleton.
  - destruct (decide (k = id d)) as [->|Hne]; [by rewrite He|].
    destruct (MapSet.get deps k) as [e'|]; [|done]. cbn. f_equal.
    symmetry. apply markedIf_not_elem. by intros ?%list_elem_of_singleton.
Qed.

Lemma rewritePath_get deps nodes (p : list ExtendedSimpleEdgeData) k :
  MapSet.get (rewritePath deps nodes p).2 k
  = markedIf (id <$> p) k <$> MapSet.get deps k.
Proof.
  revert deps. induction p as [|d p IH]; intros deps.
  - simpl. by rewrite markedIf_nil.
  - simpl. pose proof (rewriteEdge_get deps nodes d k) as Hd.
    destruct (rewriteEdge deps nodes d) as [d' deps1].
    pose proof (IH deps1) as Hp.
    destruct (rewritePath deps1 nodes p) as [p' deps2]. cbn [snd] in *.
    rewrite Hp, Hd. destruct (MapSet.get deps k) as [e|]; [|done]. cbn.
    by rewrite (markedIf_app [id d]).
Qed.

Lemma abstractCycle_get deps nodes dep newDep deps' k :
  abstractCycle deps nodes dep = Ok (newDep, deps') →
  MapSet.get deps' k = markedIf (id <$> path dep) k <$> MapSet.get deps k.
Proof.
  unfold abstractCycle. pose proof (rewritePath_get deps nodes (path dep) k) as Hp.
  destruct (rewritePath deps nodes (path dep)) as [[|first rest] deps1]; [done|].
  by intros [= _ <-].
Qed.

Lemma stepIds_cons dep cycles :
  stepIds (dep :: cycles) = (id <$> path dep) ++ stepIds cycles.
Proof. unfold stepIds. rewrite fmap_cons. simpl. by rewrite fmap_app. Qed.

Lemma abstractCycles_get deps nodes cycles newDeps deps' k :
  abstractCycles deps nodes cycles = Ok (newDeps, deps') →
  MapSet.get deps' k = markedIf (stepIds cycles) k <$> MapSet.get deps k.
Proof.
  revert deps newDeps. induction cycles as [|dep cycles IH]; intros deps newDeps.
  - intros [= _ <-]. unfold stepIds. simpl. by rewrite markedIf_nil.
  - rewrite stepIds_cons. simpl.
    destruct (abstractCycle deps nodes dep) as [[nd deps1]|] eqn:Hdep; [|done].
    simpl. destruct (abstractCycles deps1 nodes cycles) as [[nds deps2]|] eqn:Hrest;
      [|done].
    simpl. intros [= _ <-].
    rewrite (IH _ _ Hrest), (abstractCycle_get _ _ _ _ _ _ Hdep).
    destruct (MapSet.get deps k) as [e|]; [|done].
    change (Some (markedIf (stepIds cycles) k (markedIf (id <$> path dep) k e))
            = Some (markedIf ((id <$> path dep) ++ stepIds cycles) k e)).
    by rewrite markedIf_app.
Qed.

(** X11.  When the projector returns, the dependencies are as they were but
    for the cycle marks: a dependency is marked when it was marked or when
    the graph holds it under the id of a step of one of the cycles, whether
    or not that cycle is rendered. *)
Theorem extractAndAbstractDependencyCycles_marks cycles deps nodes out deps' :
  extractAndAbstractDependencyCycles cycles deps nodes = Ok (out, deps') →
  MapSet.keys deps' = MapSet.keys deps
  ∧ ∀ k, MapSet.get deps' k = markedIf (stepIds cycles) k <$> MapSet.get deps k.
Proof.
  unfold extractAndAbstractDependencyCycles.
  destruct (abstractCycles deps nodes cycles) as [[newDeps deps1]|] eqn:Heq; [|done].
  simpl. intros [= _ <-]. split; [|intros k; by eapply abstractCycles_get].
  destruct (paths_empty_or_not cycles) as [Hall|Hex].
  - destruct (abstractCycles_Ok deps deps nodes cycles eq_refl Hall)
      as (? & deps2 & Heq' & Herase & _).
    rewrite Heq in Heq'. injection Heq' as _ <-.
    unfold MapSet.keys.
    assert (Hkeys : ∀ m : MapSet.t Neo4jDependencyRelationship, m.*1 = (erase m).*1).
    { intros m. unfold erase. by rewrite <- list_fmap_compose. }
    by rewrite (Hkeys deps1), (Hkeys deps), Herase.
  - by rewrite (abstractCycles_empty_path _ _ _ Hex) in Heq.
Qed.

Lemma extractAndAbstractDependencyCycles_marks_witness :
  MapSet.get [("e1", mkDependency "e1" (nodeOf "A") (nodeOf "A") true)] "e1"
  = markedIf (stepIds [cycleThroughA]) "e1" <$> MapSet.get renderedAA "e1".
Proof.
  by apply (extractAndAbstractDependencyCycles_marks [cycleThroughA] renderedAA [] []).
Defined.

(** *** The merged cycles *)

Lemma abstractCycle_shows deps deps0 nodes dep newDep deps' :
  erase deps = erase deps0 →
  abstractCycle deps nodes dep = Ok (newDep, deps') →
  erase deps' = erase deps0
  ∧ shows deps0 nodes newDep dep ∧ r_actualCycles newDep = [dep].
Proof.
  intros Heq. unfold abstractCycle, shows.
  pose proof (rewrittenPath_erase deps deps0 nodes dep Heq) as Hrw.
  destruct (rewritePath_erase deps deps0 nodes (path dep) Heq) as [_ Hdeps].
  unfold rewrittenPath in Hrw at 1.
  destruct (rewritePath deps nodes (path dep)) as [[|first rest] deps1]; [done|].
  cbn [fst snd] in Hrw, Hdeps. intros [= <- <-]. cbn. by rewrite <- Hrw.
Qed.

Lemma abstractCycles_shows deps deps0 nodes cycles newDeps deps' :
  erase deps = erase deps0 →
  abstractCycles deps nodes cycles = Ok (newDeps, deps') →
  erase deps' = erase deps0
  ∧ Forall2 (λ dep newDep, shows deps0 nodes newDep dep ∧ r_actualCycles newDep = [dep])
      cycles newDeps.
Proof.
  revert deps newDeps. induction cycles as [|dep cycles IH]; intros deps newDeps Heq.
  - intros [= <- <-]. by split.
  - simpl. destruct (abstractCycle deps nodes dep) as [[nd deps1]|] eqn:Hdep; [|done].
    simpl. destruct (abstractCycles deps1 nodes cycles) as [[nds deps2]|] eqn:Hrest;
      [|done].
    simpl. intros [= <- <-].
    destruct (abstractCycle_shows _ _ _ _ _ _ Heq Hdep) as (Heq1 & Hs & Ha).
    destruct (IH _ _ Heq1 Hrest) as [Heq2 Hall].
    split; [done|]. by constructor.
Qed.

Lemma isRealized_shows deps deps0 nodes (d : DependencyCycleRender) dep :
  erase deps = erase deps0 → shows deps0 nodes d dep →
  isRealized deps d = isRealizedCycle deps0 nodes dep.
Proof.
  intros Heq (Hp & _). unfold isRealized, isRealizedCycle. rewrite Hp. clear Hp.
  induction (collapseSelfEdges _) as [|p ps IH]; [done|]. cbn [existsb].
  by rewrite IH, (has_erase _ _ _ Heq).
Qed.

Lemma realized_shows deps deps0 nodes cycles (newDeps : list DependencyCycleRender) :
  erase deps = erase deps0 →
  Forall2 (λ dep newDep, shows deps0 nodes newDep dep ∧ r_actualCycles newDep = [dep])
    cycles newDeps →
  Forall2 (λ dep d, shows deps0 nodes d dep ∧ r_actualCycles d = [dep]
                    ∧ r_id d = cycleIndex (r_node d) (r_path d))
    (filter (λ dep, isRealizedCycle deps0 nodes dep = true) cycles)
    (renewId <$> filter (λ d, isRealized deps d = true) newDeps).
Proof.
  intros Heq. induction 1 as [|dep newDep cycles' newDeps' [Hs Ha] _ IH]; [constructor|].
  rewrite !filter_cons. pose proof (isRealized_shows _ _ _ _ _ Heq Hs) as Hreal.
  repeat case_decide; try congruence.
  rewrite fmap_cons. by constructor.
Qed.

Lemma mergeCycles_NoDup (ds : list DependencyCycleRender) :
  NoDup (r_id <$> mergeCycles ds).
Proof.
  induction ds as [|d ds IH] using rev_ind; [constructor|].
  rewrite mergeCycles_snoc.
  destruct (list_find _ (mergeCycles ds)) as [[i d1]|] eqn:Hfind.
  - apply list_find_Some in Hfind as (Hi & _ & _).
    rewrite list_fmap_insert. cbn [r_id]. rewrite list_insert_id; [done|].
    by rewrite list_lookup_fmap, Hi.
  - rewrite fmap_app. apply NoDup_app. split_and!; [done| |apply NoDup_singleton].
    intros x Hx Hd%list_elem_of_singleton.
    apply list_elem_of_fmap in Hx as (d' & Hid & Hd').
    rewrite list_find_None, Forall_forall in Hfind.
    apply (Hfind d' Hd'). by rewrite <- Hid.
Qed.

Lemma join_insert_app {A B} (f : A → list B) (l : list A) i x x' extra :
  l !! i = Some x → f x' = f x ++ extra →
  mjoin (f <$> <[i := x']> l) ≡ₚ mjoin (f <$> l) ++ extra.
Proof.
  intros Hi Hf. revert i Hi. induction l as [|y l IH]; intros [|i] Hi; try done.
  - injection Hi as ->. cbn. rewrite Hf, <- !app_assoc. f_equiv.
    apply Permutation_app_comm.
  - cbn in *. rewrite (IH i Hi). by rewrite app_assoc.
Qed.

Lemma mergeCycles_actualCycles (ds : list DependencyCycleRender) :
  mjoin (r_actualCycles <$> mergeCycles ds) ≡ₚ mjoin (r_actualCycles <$> ds).
Proof.
  induction ds as [|d ds IH] using rev_ind; [done|].
  rewrite mergeCycles_snoc, (fmap_app _ ds), join_app. cbn [fmap list_fmap mjoin list_join].
  rewrite app_nil_r, <- IH.
  destruct (list_find _ (mergeCycles ds)) as [[i d1]|] eqn:Hfind.
  - apply list_find_Some in Hfind as (Hi & _ & _).
    by apply (join_insert_app _ _ _ d1).
  - rewrite fmap_app, join_app. cbn. by rewrite app_nil_r.
Qed.

Lemma shows_renderedIndex deps nodes (d : DependencyCycleRender) dep :
  shows deps nodes d dep → r_id d = cycleIndex (r_node d) (r_path d) →
  renderedIndex deps nodes dep = Some (r_id d).
Proof.
  intros (Hp & Hn & _) ->. unfold renderedIndex. rewrite Hp.
  destruct (head (rewrittenPath deps nodes dep)) as [first|]; [|done].
  cbn in *. by injection Hn as ->.
Qed.

(** X12.  The rendered cycles that the projector returns have different
    ids, the id of each is the index of its node and path, and each shows
    the first of its actual cycles; the actual cycles of a rendered cycle
    are all rendered under its id, and the actual cycles of all rendered
    cycles together are the cycles with a rendered step that remains, each
    as often as it was given. *)
Theorem extractAndAbstractDependencyCycles_merged cycles deps nodes out deps' :
  extractAndAbstractDependencyCycles cycles deps nodes = Ok (out, deps') →
  NoDup (r_id <$> out)
  ∧ mjoin (r_actualCycles <$> out)
    ≡ₚ filter (λ dep, isRealizedCycle deps nodes dep = true) cycles
  ∧ ∀ d, d ∈ out →
      r_id d = cycleIndex (r_node d) (r_path d)
      ∧ (∃ dep, head (r_actualCycles d) = Some dep ∧ shows deps nodes d dep)
      ∧ ∀ dep, dep ∈ r_actualCycles d → renderedIndex deps nodes dep = Some (r_id d).
Proof.
  unfold extractAndAbstractDependencyCycles.
  destruct (abstractCycles deps nodes cycles) as [[newDeps deps1]|] eqn:Heq; [|done].
  simpl. intros [= <- <-].
  destruct (abstractCycles_shows _ deps _ _ _ _ eq_refl Heq) as [Herase Hall].
  pose proof (realized_shows _ _ _ _ _ Herase Hall) as Hreal.
  set (kept := filter (λ dep, isRealizedCycle deps nodes dep = true) cycles) in *.
  set (realized := renewId <$> filter (λ d, isRealized deps1 d = true) newDeps) in *.
  split_and!.
  - apply mergeCycles_NoDup.
  - rewrite mergeCycles_actualCycles. clear -Hreal.
    induction Hreal as [|dep d ? ? (_ & Ha & _) _ IH]; [done|].
    cbn. by rewrite Ha, IH.
  - intros d (d0 & more & Hd0 & -> & Hmore)%mergeCycles_elem. cbn.
    apply list_elem_of_lookup in Hd0 as (i & Hi).
    destruct (Forall2_lookup_r _ _ _ _ _ Hreal Hi) as (dep0 & _ & Hs & Ha & Hid).
    split_and!; [done| |].
    + exists dep0. rewrite Ha. split; [done|]. apply Hs.
    + rewrite Ha. intros dep [Hdep|Hdep]%elem_of_app.
      * apply list_elem_of_singleton in Hdep as ->.
        by apply (shows_renderedIndex _ _ d0).
      * destruct (Hmore dep Hdep) as (d1 & (j & Hj)%list_elem_of_lookup & Hid1 & Hin).
        destruct (Forall2_lookup_r _ _ _ _ _ Hreal Hj) as (dep1 & _ & Hs1 & Ha1 & Hid1').
        rewrite Ha1 in Hin. apply list_elem_of_singleton in Hin as ->.
        rewrite <- Hid1. by apply (shows_renderedIndex _ _ d1).
Qed.

Lemma extractAndAbstractDependencyCycles_merged_witness :
  ∃ out deps',
    extractAndAbstractDependencyCycles [cycleABC; cycleThroughA] renderedAA nodesABC
    = Ok (out, deps')
    ∧ NoDup (r_id <$> out)
    ∧ mjoin (r_actualCycles <$> out) ≡ₚ [cycleABC].
Proof.
  destruct (extractAndAbstractDependencyCycles [cycleABC; cycleThroughA]
              renderedAA nodesABC) as [[out deps']|m] eqn:Hok;
    [|by vm_compute in Hok].
  exists out, deps'. split; [done|].
  destruct (extractAndAbstractDependencyCycles_merged _ _ _ _ _ Hok)
    as (Hnd & Hperm & _).
  split; [done|]. exact Hperm.
Defined.
End projection_facts.

(** ** The pre-processor: nodes and longest paths *)

Section preprocessing_facts.
Import GraphPreProcessingService PreProcessingFacts.

Implicit Types (fields : list Neo4jComponentNode.t) (records : list Path.t).

Lemma getAllNodes_map_sound selectedId seen fields n :
  n ∈ omap id (getAllNodes_map selectedId seen fields) →
  Node.id n ∉ seen
  ∧ ∃ i field,
      list_find (λ f, Neo4jComponentNode.elementId f = Node.id n) fields = Some (i, field)
      ∧ n = formatNeo4jNodeToNodeData field selectedId.
Proof.
  revert seen. induction fields as [|f fields IH]; intros seen; simpl.
  { by intros ?%elem_of_nil. }
  unfold includes. case_bool_decide as Hseen; simpl.
  - intros (Hn & i & field & Hfind & ->)%IH. split; [done|].
    exists (S i), field. split; [|done]. cbn in *.
    rewrite decide_False; [by rewrite Hfind|]. intros Heq. apply Hn. by rewrite <- Heq.
  - intros [->|(Hn & i & field & Hfind & ->)%IH]%elem_of_cons.
    + split; [done|]. exists 0%nat, f. cbn. by rewrite decide_True.
    + split; [intros ?; apply Hn, elem_of_app; by left|].
      exists (S i), field. split; [|done]. cbn in *.
      rewrite decide_False; [by rewrite Hfind|].
      intros Heq. apply Hn, elem_of_app. right. rewrite <- Heq. left.
Qed.

Lemma getAllNodes_map_complete selectedId seen fields f :
  f ∈ fields → Neo4jComponentNode.elementId f ∉ seen →
  Neo4jComponentNode.elementId f
    ∈ Node.id <$> omap id (getAllNodes_map selectedId seen fields).
Proof.
  revert seen. induction fields as [|f' fields IH]; intros seen Hin Hseen.
  { by apply elem_of_nil in Hin. }
  simpl. unfold includes. case_bool_decide as Hseen'; simpl.
  - apply elem_of_cons in Hin as [->|Hin]; [done|]. by apply IH.
  - destruct (decide (Neo4jComponentNode.elementId f = Neo4jComponentNode.elementId f'))
      as [Heq|Hne].
    + rewrite Heq. left.
    + right. apply elem_of_cons in Hin as [->|Hin]; [done|].
      apply IH; [done|]. intros [?|Hin']%elem_of_app; [done|].
      by apply list_elem_of_singleton in Hin'.
Qed.

Lemma getAllNodes_map_NoDup selectedId seen fields :
  NoDup (Node.id <$> omap id (getAllNodes_map selectedId seen fields)).
Proof.
  revert seen. induction fields as [|f fields IH]; intros seen; simpl.
  { constructor. }
  unfold includes. case_bool_decide; simpl; [apply IH|].
  constructor; [|apply IH].
  intros (n & Hid & Hn)%list_elem_of_fmap.
  apply getAllNodes_map_sound in Hn as [Hn _].
  apply Hn. rewrite <- Hid. apply elem_of_app. right. left.
Qed.

(** X13.  [getAllNodes] returns one node for every id of a source or a
    target of the records and no other node; each is made of the first
    source or target with its id, has no parent, and is marked as selected
    exactly when its id is the selected id. *)
Theorem getAllNodes_unique (records : list Neo4jComponentPath)
    (selectedId : option string) :
  NoDup (Node.id <$> getAllNodes records selectedId)
  ∧ (∀ field, field ∈ endpointNodes records →
       Neo4jComponentNode.elementId field ∈ Node.id <$> getAllNodes records selectedId)
  ∧ ∀ n, n ∈ getAllNodes records selectedId →
      (∃ i field,
         list_find (λ f, Neo4jComponentNode.elementId f = Node.id n)
           (endpointNodes records) = Some (i, field)
         ∧ n = formatNeo4jNodeToNodeData field selectedId)
      ∧ Node.parent n = None
      ∧ (Node.selected n = "true" ↔ selectedId = Some (Node.id n))
      ∧ (Node.selected n = "false" ↔ selectedId ≠ Some (Node.id n)).
Proof.
  split_and!.
  - apply getAllNodes_map_NoDup.
  - intros field Hfield. apply getAllNodes_map_complete; [done|apply not_elem_of_nil].
  - intros n (_ & i & field & Hfind & ->)%getAllNodes_map_sound.
    split; [by exists i, field|]. cbn.
    destruct (decide (Some (Neo4jComponentNode.elementId field) = selectedId))
      as [<-|Hne]; split_and!; try done; split; try done; congruence.
Qed.

(** *** The longest paths *)

Lemma seenPaths_snoc records record :
  seenPaths (records ++ [record])
  = <[pathId record := Z.max (default 0 (seenPaths records !! pathId record))
                         (Path.targetDepth record)]> (seenPaths records).
Proof. unfold seenPaths. by rewrite foldl_snoc. Qed.

(** The depth that [seenPaths] holds for a path id is the greatest recorded
    depth of the trailing chunks of the records with that id, or 0 when
    none is positive. *)
Lemma seenPaths_max records k :
  let depth := default 0 (seenPaths records !! k) in
  0 ≤ depth
  ∧ (∀ record, record ∈ records → pathId record = k → Path.targetDepth record ≤ depth)
  ∧ (depth = 0
     ∨ ∃ record, record ∈ records ∧ pathId record = k ∧ Path.targetDepth record = depth).
Proof.
  induction records as [|x records IH] using rev_ind.
  { cbn. split_and!; [done| |by left]. by intros ? ?%elem_of_nil. }
  rewrite seenPaths_snoc. cbn zeta in *.
  destruct IH as (H0 & Hle & Hex).
  destruct (decide (pathId x = k)) as [<-|Hne].
  - rewrite lookup_insert_eq.
    set (old := default 0 (seenPaths records !! pathId x)) in *.
    change (default 0 (Some (Z.max old (Path.targetDepth x))))
      with (Z.max old (Path.targetDepth x)).
    split_and!; [lia| |].
    + intros record [Hin|Hin%list_elem_of_singleton]%elem_of_app Hid.
      * specialize (Hle record Hin Hid). lia.
      * subst. lia.
    + destruct (Z.max_spec old (Path.targetDepth x)) as [[_ ->]|[_ ->]].
      * right. exists x. split_and!; [apply elem_of_app; right; left|done..].
      * destruct Hex as [?|(record & Hin & Hid & Hd)]; [by left|].
        right. exists record. split_and!; [apply elem_of_app; by left|done..].
  - rewrite lookup_insert_ne by done. split_and!; [done| |].
    + intros record [Hin|Hin%list_elem_of_singleton]%elem_of_app Hid;
        [by apply Hle|by subst].
    + destruct Hex as [?|(record & Hin & Hid & Hd)]; [by left|].
      right. exists record. split_and!; [apply elem_of_app; by left|done..].
Qed.

Lemma seenPaths_longest records record :
  record ∈ records →
  Path.targetDepth record = default 0 (seenPaths records !! pathId record)
  ↔ longest records record.
Proof.
  intros Hin. destruct (seenPaths_max records (pathId record)) as (H0 & Hle & Hex).
  unfold longest. rewrite Forall_forall. split.
  - intros ->. split; [done|]. intros other Hother Hid. by apply Hle.
  - intros [Hpos Hall]. specialize (Hle record Hin eq_refl).
    destruct Hex as [Hz|(other & Hother & Hid & Hd)]; [lia|].
    specialize (Hall other Hother Hid). lia.
Qed.

Lemma filter_ext_elem {A} (P Q : A → Prop) `{!∀ x, Decision (P x)}
    `{!∀ x, Decision (Q x)} (l : list A) :
  (∀ x, x ∈ l → P x ↔ Q x) → filter P l = filter Q l.
Proof.
  induction l as [|x l IH]; intros Hiff; [done|].
  rewrite !filter_cons, IH by (intros; apply Hiff; by right).
  assert (P x ↔ Q x) by (apply Hiff; left).
  repeat case_decide; naive_solver.
Qed.

Lemma filter_all {A} (P : A → Prop) `{!∀ x, Decision (P x)} (l : list A) :
  Forall P l → filter P l = l.
Proof.
  induction 1 as [|x l Hx _ IH]; [done|]. by rewrite filter_cons_True, IH.
Qed.

Lemma onlyKeepLongestPaths_filter records :
  onlyKeepLongestPaths records = filter (longest records) records.
Proof.
  unfold onlyKeepLongestPaths. apply filter_ext_elem.
  intros record Hin. by apply seenPaths_longest.
Qed.

(** X14.  [onlyKeepLongestPaths] keeps, in their order, exactly the records
    whose recorded trailing depth is not negative and is the greatest among
    the records with the same dependency edges; every such record is kept,
    equal ones as often as they occur. *)
Theorem onlyKeepLongestPaths_longest records :
  onlyKeepLongestPaths records = filter (longest records) records
  ∧ onlyKeepLongestPaths records `sublist_of` records
  ∧ ∀ record, record ∈ onlyKeepLongestPaths records
      ↔ record ∈ records
        ∧ 0 ≤ Path.targetDepth record
        ∧ ∀ other, other ∈ records → pathId other = pathId record →
            Path.targetDepth other ≤ Path.targetDepth record.
Proof.
  rewrite onlyKeepLongestPaths_filter. split_and!; [done|apply sublist_filter|].
  intros record. rewrite list_elem_of_filter. unfold longest.
  rewrite Forall_forall. tauto.
Qed.

(** X15.  Filtering the longest paths a second time changes nothing, and
    of the records with the same dependency edges one with the greatest
    trailing depth is kept, when that depth is not negative. *)
Theorem onlyKeepLongestPaths_idempotent records :
  onlyKeepLongestPaths (onlyKeepLongestPaths records) = onlyKeepLongestPaths records
  ∧ ∀ record, record ∈ records → 0 ≤ Path.targetDepth record →
      ∃ kept, kept ∈ onlyKeepLongestPaths records
              ∧ pathId kept = pathId record
              ∧ Path.targetDepth record ≤ Path.targetDepth kept.
Proof.
  split.
  - rewrite (onlyKeepLongestPaths_filter (onlyKeepLongestPaths records)).
    apply filter_all, Forall_forall. intros record Hin.
    rewrite onlyKeepLongestPaths_filter in Hin |- *.
    apply list_elem_of_filter in Hin as [[Hpos Hall] Hin]. split; [done|].
    rewrite Forall_forall in Hall |- *.
    intros other [_ Hother]%list_elem_of_filter. by apply Hall.
  - intros record Hin Hpos.
    destruct (seenPaths_max records (pathId record)) as (H0 & Hle & Hex).
    specialize (Hle record Hin eq_refl).
    destruct Hex as [Hz|(other & Hother & Hid & Hd)].
    + exists record. split_and!; [|done|lia].
      unfold onlyKeepLongestPaths. apply list_elem_of_filter. split; [|done].
      cbn zeta. lia.
    + exists other. split_and!; [|done|lia].
      unfold onlyKeepLongestPaths. apply list_elem_of_filter. split; [|done].
      cbn zeta. by rewrite Hid.
Qed.

Lemma onlyKeepLongestPaths_idempotent_witness :
  ∃ kept, kept ∈ onlyKeepLongestPaths threePaths
          ∧ pathId kept = "d1" ∧ 1 ≤ Path.targetDepth kept.
Proof.
  destruct (onlyKeepLongestPaths_idempotent threePaths) as [_ Hkept].
  apply (Hkept (Path.mk [] [Rel.mk "d1" "a" "b" "CALLS"]
                  [Rel.mk "c1" "B" "b" "CONTAINS"] 0 1)).
  - left.
  - done.
Defined.
End preprocessing_facts.

(** ** The legacy service: chunks of relationships *)

Section chunk_facts.
Import LegacyGraphProcessingService LegacyPathChunks ChunkFacts.

Implicit Types (chunks : list (list Rel.t)) (c rels : list Rel.t).

Lemma sameType_sublist c c' : c' `sublist_of` c → sameType c → sameType c'.
Proof.
  intros Hsub Hs r r' Hr Hr'.
  apply Hs; eapply elem_of_sublist; eauto.
Qed.

Lemma sameType_singleton (r : Rel.t) : sameType [r].
Proof. by intros ? ? ->%list_elem_of_singleton ->%list_elem_of_singleton. Qed.

Lemma sameType_snoc first c (r : Rel.t) :
  sameType (first :: c) → Rel.type r = Rel.type first → sameType ((first :: c) ++ [r]).
Proof.
  intros Hs Hr.
  assert (Hall : ∀ x, x ∈ (first :: c) ++ [r] → Rel.type x = Rel.type first).
  { intros x [Hx|Hx%list_elem_of_singleton]%elem_of_app; [|by subst].
    apply Hs; [done|left]. }
  intros x y Hx Hy. by rewrite (Hall x Hx), (Hall y Hy).
Qed.

Lemma sameType_isContains c first :
  sameType c → first ∈ c → isContains first → Forall isContains c.
Proof.
  intros Hs Hfirst Hc. apply Forall_forall. intros r Hr.
  unfold isContains. by rewrite (Hs r first Hr Hfirst).
Qed.

Lemma insert_last {A} (init : list A) (x y : A) :
  <[(length (init ++ [x]) - 1)%nat := y]> (init ++ [x]) = init ++ [y].
Proof.
  rewrite length_app. cbn [length].
  replace (length init + 1 - 1)%nat with (length init + 0)%nat by lia.
  by rewrite insert_app_r.
Qed.

Lemma pushRelationship_grouped chunks (r : Rel.t) :
  grouped chunks →
  ∃ chunks',
    pushRelationship chunks r = Ok chunks'
    ∧ grouped chunks'
    ∧ mjoin chunks' = mjoin chunks ++ [r].
Proof.
  intros [Hne Hall]. destruct chunks as [|c init _] using rev_ind; [done|].
  apply Forall_app in Hall as [Hinit [[Hc Hs] _]%Forall_cons].
  unfold pushRelationship. rewrite last_snoc.
  destruct c as [|first c]; [done|]. case_decide as Htype.
  - eexists. split; [done|]. rewrite insert_last. split; [split|].
    + by destruct init.
    + apply Forall_app. split; [done|]. apply Forall_singleton.
      split; [done|]. by apply sameType_snoc.
    + rewrite !join_app. cbn. by rewrite !app_nil_r, <- app_assoc.
  - eexists. split; [done|]. split; [split|].
    + by destruct init.
    + apply Forall_app. split.
      * apply Forall_app. split; [done|]. by apply Forall_singleton.
      * apply Forall_singleton. split; [done|apply sameType_singleton].
    + rewrite join_app. cbn. by rewrite ?app_nil_r.
Qed.

Lemma groupLoop_snoc chunks rels (r : Rel.t) :
  groupLoop chunks (rels ++ [r])
  = (chunks' ← groupLoop chunks rels; pushRelationship chunks' r).
Proof. unfold groupLoop. by rewrite foldl_snoc. Qed.

Lemma groupLoop_grouped chunks rels :
  grouped chunks →
  ∃ chunks',
    groupLoop chunks rels = Ok chunks'
    ∧ grouped chunks'
    ∧ mjoin chunks' = mjoin chunks ++ rels.
Proof.
  intros Hg. induction rels as [|r rels IH] using rev_ind.
  - exists chunks. by rewrite app_nil_r.
  - destruct IH as (chunks1 & Hloop & Hg1 & Hjoin).
    destruct (pushRelationship_grouped chunks1 r Hg1) as (chunks2 & Hpush & Hg2 & Hjoin2).
    exists chunks2. rewrite groupLoop_snoc, Hloop. cbn.
    split_and!; [done..|]. by rewrite Hjoin2, Hjoin, app_assoc.
Qed.

Lemma groupLoop_sameType (first : Rel.t) rels :
  sameType (first :: rels) → groupLoop [[first]] rels = Ok [first :: rels].
Proof.
  induction rels as [|r rels IH] using rev_ind; [done|].
  intros Hs. rewrite groupLoop_snoc, IH.
  - cbn. unfold pushRelationship. cbn.
    rewrite decide_True; [done|].
    apply Hs; [|left]. right. apply elem_of_app. right. left.
  - eapply sameType_sublist; [|exact Hs].
    apply sublist_skip, sublist_inserts_r. done.
Qed.

Lemma splice_head {A} (l : list A) (index : Z) :
  0 ≤ index ≤ Z.of_nat (length l) →
  splice l 0 index = (take (Z.to_nat index) l, drop (Z.to_nat index) l).
Proof.
  intros Hi. unfold splice. cbn [Z.ltb Z.compare].
  rewrite (Z.min_l 0) by lia.
  replace (Z.min (Z.max index 0) (Z.of_nat (length l) - 0)) with index by lia.
  done.
Qed.

Lemma firstOfLast_snoc c (e : Rel.t) :
  ∃ i, firstOfLast (c ++ [e]) = Some i ∧ (i < length (c ++ [e]))%nat.
Proof.
  unfold firstOfLast. rewrite last_snoc. cbn.
  destruct (list_find (λ e', Rel.elementId e' = Rel.elementId e) (c ++ [e]))
    as [[i x]|] eqn:Hfind.
  - exists i. split; [done|].
    apply list_find_Some in Hfind as (Hi & _). by eapply lookup_lt_Some.
  - rewrite list_find_None, Forall_forall in Hfind.
    destruct (Hfind e); [|done]. apply elem_of_app. right. left.
Qed.

Lemma splitContainChunk_split c reverseDirection i :
  firstOfLast c = Some i → (i < length c)%nat →
  splitContainChunk c reverseDirection
  = if falsy reverseDirection then [take (S i) c; drop (S i) c]
    else if decide (S i = length c) then [[]; c]
         else [take i c; drop i c].
Proof.
  unfold firstOfLast, splitContainChunk. intros Hi Hlt.
  destruct (last c) as [e|]; [|done]. cbn in Hi.
  destruct (list_find _ c) as [[j x]|]; [|done]. cbn in Hi. injection Hi as ->.
  destruct (decide (Z.of_nat i = Z.of_nat (length c) - 1)) as [Heq|Hne].
  - assert (Hlen : S i = length c) by lia.
    destruct (falsy reverseDirection).
    + by rewrite Hlen, firstn_all, drop_all.
    + by rewrite decide_True.
  - destruct (falsy reverseDirection).
    + rewrite splice_from_start by lia.
      by replace (Z.to_nat (Z.of_nat i + 1)) with (S i) by lia.
    + rewrite splice_head by lia. rewrite Nat2Z.id.
      rewrite decide_False; [done|lia].
Qed.

Lemma padChunks_grouped chunks :
  grouped chunks → (2 ≤ length chunks)%nat →
  ∃ first middle lastChunk,
    padChunks chunks = Ok (first :: middle ++ [lastChunk])
    ∧ Forall isContains first ∧ Forall isContains lastChunk
    ∧ Forall (λ c, c ≠ []) middle
    ∧ Forall sameType (first :: middle ++ [lastChunk])
    ∧ mjoin (first :: middle ++ [lastChunk]) = mjoin chunks.
Proof.
  intros [_ Hall] Hlen.
  destruct chunks as [|c0 chunks]; [cbn in Hlen; lia|].
  destruct chunks as [|cl mid _] using rev_ind; [cbn in Hlen; lia|].
  apply Forall_cons in Hall as [[Hc0 Hs0] Hall].
  apply Forall_app in Hall as [Hmid [[Hcl Hsl] _]%Forall_cons].
  assert (Hne : Forall (λ c, c ≠ []) mid) by (eapply Forall_impl; [exact Hmid|]; by intros ? [? _]).
  assert (Hst : Forall sameType mid) by (eapply Forall_impl; [exact Hmid|]; by intros ? [_ ?]).
  destruct c0 as [|f0 c0]; [done|]. destruct cl as [|l0 cl]; [done|].
  unfold padChunks. cbv zeta.
  set (g0 := f0 :: c0) in *. set (gl := l0 :: cl) in *.
  assert (Hlast1 : last (g0 :: mid ++ [gl]) = Some gl).
  { exact (last_snoc gl (g0 :: mid)). }
  assert (Hlast2 : last ([] :: g0 :: mid ++ [gl]) = Some gl).
  { exact (last_snoc gl ([] :: g0 :: mid)). }
  assert (Hlen1 : length (g0 :: mid ++ [gl]) ≠ 1%nat).
  { cbn. rewrite length_app. cbn. lia. }
  assert (Hlen2 : length ([] :: g0 :: mid ++ [gl]) ≠ 1%nat) by (cbn; lia).
  destruct (decide (toLowerCase (Rel.type f0) ≠ "contains")) as [Hf|Hf].
  - rewrite Hlast2. subst gl. cbn [head fmap option_fmap option_map].
    rewrite (bool_decide_eq_false_2 _ Hlen2), orb_false_r.
    case_bool_decide as Hl.
    + exists [], (g0 :: mid ++ [l0 :: cl]), [].
      split_and!; [done|constructor|constructor| | |].
      * constructor; [done|]. apply Forall_app. split; [done|]. by apply Forall_singleton.
      * constructor; [by intros ? ? ?%elem_of_nil|].
        apply Forall_app. split; [|apply Forall_singleton; by intros ? ? ?%elem_of_nil].
        constructor; [done|]. apply Forall_app. split; [done|]. by apply Forall_singleton.
      * cbn. rewrite !join_app. cbn. by rewrite !app_nil_r.
    + exists [], (g0 :: mid), (l0 :: cl).
      split_and!; [done|constructor| | | |done].
      * eapply sameType_isContains; [done|left|].
        unfold isContains. congruence.
      * by constructor.
      * constructor; [by intros ? ? ?%elem_of_nil|].
        constructor; [done|]. apply Forall_app. split; [done|]. by apply Forall_singleton.
  - apply dec_stable in Hf.
    rewrite Hlast1. subst gl. cbn [head fmap option_fmap option_map].
    rewrite (bool_decide_eq_false_2 _ Hlen1), orb_false_r.
    case_bool_decide as Hl.
    + exists g0, (mid ++ [l0 :: cl]), [].
      split_and!; [done| |constructor| | |].
      * eapply sameType_isContains; [done|left|done].
      * apply Forall_app. split; [done|]. by apply Forall_singleton.
      * constructor; [done|].
        apply Forall_app. split; [|apply Forall_singleton; by intros ? ? ?%elem_of_nil].
        apply Forall_app. split; [done|]. by apply Forall_singleton.
      * cbn. rewrite !join_app. cbn. by rewrite !app_nil_r.
    + exists g0, mid, (l0 :: cl).
      split_and!; [done| | |done| |done].
      * eapply sameType_isContains; [done|left|done].
      * eapply sameType_isContains; [done|left|].
        unfold isContains. congruence.
      * constructor; [done|]. apply Forall_app. split; [done|]. by apply Forall_singleton.
Qed.

(** X16.  [groupRelationships] never throws; the chunks that it returns,
    put together, are the relationships in their order, and each chunk
    holds relationships of one type.  Without relationships there is a
    single empty chunk, otherwise there are at least two chunks, and
    exactly two when all relationships have the same type. *)
Theorem groupRelationships_chunks rels reverseDirection :
  ∃ chunks,
    groupRelationships rels reverseDirection = Ok chunks
    ∧ mjoin chunks = rels
    ∧ Forall sameType chunks
    ∧ (rels = [] → chunks = [[]])
    ∧ (rels ≠ [] → (2 ≤ length chunks)%nat)
    ∧ (rels ≠ [] → sameType rels → length chunks = 2%nat).
Proof.
  destruct rels as [|first rest].
  { exists [[]]. split_and!; try done. constructor; [|done].
    by intros ? ? ?%elem_of_nil. }
  assert (Hstart : grouped [[first]]).
  { split; [done|]. apply Forall_singleton. split; [done|apply sameType_singleton]. }
  destruct (groupLoop_grouped [[first]] rest Hstart) as (groups & Hloop & Hg & Hjoin).
  cbn in Hjoin. unfold groupRelationships. rewrite Hloop. cbn.
  destruct groups as [|c [|c' groups]].
  - by destruct Hg.
  - cbn in Hjoin. rewrite app_nil_r in Hjoin. subst c.
    destruct Hg as [_ [[_ Hs] _]%Forall_cons].
    destruct (firstOfLast_snoc (removelast (first :: rest)) (List.last (first :: rest) first))
      as (i & Hi & Hlt).
    rewrite <- app_removelast_last in Hi, Hlt by done.
    eexists. split; [done|]. rewrite (splitContainChunk_split _ _ i Hi Hlt).
    assert (Htake : ∀ n, sameType (take n (first :: rest))).
    { intros n. eapply sameType_sublist; [apply sublist_take|done]. }
    assert (Hdrop : ∀ n, sameType (drop n (first :: rest))).
    { intros n. eapply sameType_sublist; [apply sublist_drop|done]. }
    assert (Hnil : sameType []) by (by intros ? ? ?%elem_of_nil).
    destruct (falsy reverseDirection); [|case_decide].
    + split_and!; [|by repeat constructor|done|done|done].
      cbn [mjoin list_join]. by rewrite app_nil_r, take_drop.
    + split_and!; [|by repeat constructor|done|done|done].
      cbn [mjoin list_join]. by rewrite app_nil_r.
    + split_and!; [|by repeat constructor|done|done|done].
      cbn [mjoin list_join]. by rewrite app_nil_r, take_drop.
  - destruct (padChunks_grouped (c :: c' :: groups) Hg) as
      (f & middle & l & Hpad & _ & _ & _ & Hst & Hj); [cbn; lia|].
    exists (f :: middle ++ [l]).
    split_and!; [done|by rewrite Hj|done|done| |].
    + intros _. cbn. rewrite length_app. cbn. lia.
    + intros _ Hs. rewrite (groupLoop_sameType first rest Hs) in Hloop. congruence.
Qed.

(** X17.  When the relationships have more than one type, the first and
    the last chunk that [groupRelationships] returns hold containments
    only, each possibly none, and no chunk between them is empty. *)
Theorem groupRelationships_contains_ends rels reverseDirection :
  ¬ sameType rels →
  ∃ first middle lastChunk,
    groupRelationships rels reverseDirection = Ok (first :: middle ++ [lastChunk])
    ∧ Forall isContains first ∧ Forall isContains lastChunk
    ∧ Forall (λ c, c ≠ []) middle.
Proof.
  intros Hmixed. destruct rels as [|first rest].
  { destruct Hmixed. by intros ? ? ?%elem_of_nil. }
  assert (Hstart : grouped [[first]]).
  { split; [done|]. apply Forall_singleton. split; [done|apply sameType_singleton]. }
  destruct (groupLoop_grouped [[first]] rest Hstart) as (groups & Hloop & Hg & Hjoin).
  cbn in Hjoin. unfold groupRelationships. rewrite Hloop. cbn.
  destruct groups as [|c [|c' groups]].
  - by destruct Hg.
  - cbn in Hjoin. rewrite app_nil_r in Hjoin. subst c.
    by destruct Hg as [_ [[_ Hs] _]%Forall_cons].
  - destruct (padChunks_grouped (c :: c' :: groups) Hg) as
      (f & middle & l & Hpad & Hf & Hl & Hm & _); [cbn; lia|].
    by exists f, middle, l.
Qed.

Lemma groupRelationships_contains_ends_witness :
  groupRelationships mixedPath None
  = Ok [[Rel.mk "c1" "A" "a" "CONTAINS"; Rel.mk "c2" "a" "x" "CONTAINS"];
        [Rel.mk "d1" "x" "y" "CALLS"]; [Rel.mk "c3" "B" "y" "CONTAINS"]].
Proof.
  destruct (groupRelationships_contains_ends mixedPath None)
    as (first & middle & lastChunk & Heq & _).
  - intros Hs.
    by specialize (Hs (Rel.mk "c1" "A" "a" "CONTAINS") (Rel.mk "d1" "x" "y" "CALLS")
                     ltac:(left) ltac:(right; right; left)).
  - done.
Defined.

(** X18.  Relationships of a single type are split at the first
    relationship that has the id of the last one: after it when the
    direction is not reversed; before it when the direction is reversed,
    but with an empty first chunk when it is the last relationship
    itself. *)
Theorem groupRelationships_single_type rels reverseDirection :
  rels ≠ [] → sameType rels →
  ∃ i,
    firstOfLast rels = Some i ∧ (i < length rels)%nat
    ∧ groupRelationships rels reverseDirection
      = Ok (if falsy reverseDirection then [take (S i) rels; drop (S i) rels]
            else if decide (S i = length rels) then [[]; rels]
                 else [take i rels; drop i rels]).
Proof.
  intros Hne Hs. destruct rels as [|first rest]; [done|].
  destruct (firstOfLast_snoc (removelast (first :: rest)) (List.last (first :: rest) first))
    as (i & Hi & Hlt).
  rewrite <- app_removelast_last in Hi, Hlt by done.
  exists i. split_and!; [done..|].
  unfold groupRelationships. rewrite (groupLoop_sameType first rest Hs). cbn.
  by rewrite (splitContainChunk_split _ _ i Hi Hlt).
Qed.

Lemma groupRelationships_single_type_witness :
  groupRelationships downAndUp None
  = Ok [[Rel.mk "c1" "A" "a" "CONTAINS"; Rel.mk "c2" "a" "x" "CONTAINS"];
        [Rel.mk "c2" "a" "x" "CONTAINS"]].
Proof.
  destruct (groupRelationships_single_type downAndUp None) as (i & Hi & _ & ->).
  - done.
  - intros r r' Hr Hr'. elem_cases Hr; elem_cases Hr'; by subst.
  - vm_compute in Hi. by injection Hi as <-.
Defined.

(** *** The legacy abstraction map on grouped relationships *)

Lemma groupRelationships_nonempty rels reverseDirection chunks :
  groupRelationships rels reverseDirection = Ok chunks → chunks ≠ [].
Proof.
  destruct rels as [|first rest]; [by intros [= <-]|].
  assert (Hstart : grouped [[first]]).
  { split; [done|]. apply Forall_singleton. split; [done|apply sameType_singleton]. }
  destruct (groupLoop_grouped [[first]] rest Hstart) as (groups & Hloop & Hg & _).
  unfold groupRelationships. rewrite Hloop. cbn.
  destruct groups as [|c [|c' groups]].
  - by destruct Hg.
  - intros [= <-]. unfold splitContainChunk.
    repeat case_decide; destruct (falsy reverseDirection);
      repeat (destruct (splice _ _ _)); done.
  - destruct (padChunks_grouped (c :: c' :: groups) Hg) as
      (f & middle & l & Hpad & _); [cbn; lia|].
    rewrite Hpad. by intros [= <-].
Qed.

Lemma legacy_spliceRecord_None (maxDepth : Z) reverseDirection
    (record : Neo4jComponentPathWithChunks) :
  spliceRecord maxDepth reverseDirection record = None ↔ chunks record = [].
Proof.
  unfold spliceRecord. destruct (chunks record) as [|c0 cs] eqn:Hchunks; [done|].
  split; [|done]. intros Hnone. exfalso. revert Hnone.
  set (chunks0 := c0 :: cs) in *.
  assert (Hlt : (length chunks0 - 1 < length chunks0)%nat) by (subst chunks0; cbn; lia).
  destruct (lookup_lt_is_Some_2 chunks0 _ Hlt) as [lastChunk Hlast].
  change (chunks0 !! 0%nat) with (Some c0). rewrite Hlast. cbn [mbind option_bind].
  assert (Hins : ∀ x, is_Some (<[0%nat := x]> chunks0 !! (length chunks0 - 1)%nat)).
  { intros x. apply lookup_lt_is_Some_2. by rewrite length_insert. }
  destruct (falsy reverseDirection).
  - destruct (splice c0 _ _) as [d1 f1]. destruct (Hins f1) as [l1 ->].
    cbn [mbind option_bind]. by destruct (splice l1 _ _).
  - destruct (splice c0 _ _) as [d1 f1]. destruct (Hins f1) as [l1 ->].
    cbn [mbind option_bind]. by destruct (splice l1 _ _).
Qed.

Lemma legacy_getAbstractionMap_snoc (records : list Neo4jComponentPathWithChunks)
    record (maxDepth : Z) reverseDirection :
  getAbstractionMap (records ++ [record]) maxDepth reverseDirection
  = ('(replaceMap, done) ← getAbstractionMap records maxDepth reverseDirection;
     '(deletedSource, deletedTarget, record') ←
       spliceRecord maxDepth reverseDirection record;
     Some (GraphProcessingService.addToReplaceMap
             (GraphProcessingService.addToReplaceMap replaceMap deletedSource)
             deletedTarget,
           done ++ [record'])).
Proof. unfold getAbstractionMap. by rewrite foldl_snoc. Qed.

(** X19.  The legacy [getAbstractionMap] throws exactly when a record has
    no chunks at all, which is never the case for chunks that
    [groupRelationships] returns. *)
Theorem legacy_getAbstractionMap_returns
    (records : list Neo4jComponentPathWithChunks) (maxDepth : Z) reverseDirection :
  (getAbstractionMap records maxDepth reverseDirection = None
   ↔ Exists (λ record, chunks record = []) records)
  ∧ (Forall (λ record, ∃ rels reversed,
               groupRelationships rels reversed = Ok (chunks record)) records →
     is_Some (getAbstractionMap records maxDepth reverseDirection)).
Proof.
  assert (Hiff : getAbstractionMap records maxDepth reverseDirection = None
                 ↔ Exists (λ record, chunks record = []) records).
  { induction records as [|record records IH] using rev_ind.
    - split; [done|by intros ?%Exists_nil].
    - rewrite legacy_getAbstractionMap_snoc, Exists_app, Exists_cons, Exists_nil, <- IH.
      rewrite <- (legacy_spliceRecord_None maxDepth reverseDirection record).
      destruct (getAbstractionMap records maxDepth reverseDirection) as [[m done]|];
        cbn [mbind option_bind]; [|tauto].
      destruct (spliceRecord maxDepth reverseDirection record) as [[[d1 d2] r']|];
        cbn [mbind option_bind]; [|tauto].
      split; [done|]. by intros [?|[?|[]]]. }
  split; [done|]. intros Hall.
  destruct (getAbstractionMap records maxDepth reverseDirection); [done|].
  destruct Hiff as [Hex _].
  apply Exists_exists in Hex as (record & Hin & Hnil); [|done].
  rewrite Forall_forall in Hall. destruct (Hall record Hin) as (rels & reversed & Hok).
  rewrite Hnil in Hok. by apply groupRelationships_nonempty in Hok.
Qed.

Lemma legacy_getAbstractionMap_returns_witness :
  is_Some (getAbstractionMap
             [mkPath [[Rel.mk "c1" "A" "a" "CONTAINS"; Rel.mk "c2" "a" "x" "CONTAINS"];
                      [Rel.mk "d1" "x" "y" "CALLS"]; [Rel.mk "c3" "B" "y" "CONTAINS"]]]
             1 None).
Proof.
  apply legacy_getAbstractionMap_returns. apply Forall_singleton.
  exists mixedPath, None. done.
Defined.

(** *** The legacy merge of the edges *)

Lemma reduceEdges_snoc (l : list Edge.t) x :
  reduceEdges (l ++ [x]) =
  match list_find (λ e, Edge.source e = Edge.source x ∧ Edge.target e = Edge.target x)
          (reduceEdges l) with
  | None => reduceEdges l ++ [x]
  | Some (index, e) => <[index := GraphProcessingService.addWeight e 1]> (reduceEdges l)
  end.
Proof. unfold reduceEdges. by rewrite foldl_snoc. Qed.

(** X20.  On edges of weight 1 the legacy merge, which counts one for
    every repeated edge, returns what [mergeDuplicateEdges] returns, which
    adds the weight of the repeated edge; the edges that [getAllEdges]
    makes are such edges. *)
Theorem reduceEdges_unit_weights (edges : list Edge.t) (records : list Path.t) :
  (Forall (λ e, Edge.weight e = 1%nat) edges →
   reduceEdges edges = GraphProcessingService.mergeDuplicateEdges edges)
  ∧ reduceEdges (GraphProcessingService.getAllEdges records)
    = GraphProcessingService.mergeDuplicateEdges
        (GraphProcessingService.getAllEdges records).
Proof.
  assert (Hunit : ∀ l, Forall (λ e, Edge.weight e = 1%nat) l →
                       reduceEdges l = GraphProcessingService.mergeDuplicateEdges l).
  { intros l. induction l as [|x l IH] using rev_ind; [done|].
    intros [Hl [Hx _]%Forall_cons]%Forall_app.
    rewrite reduceEdges_snoc, mergeDuplicateEdges_snoc, IH by done.
    destruct (list_find _ _) as [[i e]|]; [|done]. by rewrite Hx. }
  split; [apply Hunit|]. apply Hunit, Forall_forall.
  intros e He. by eapply getAllEdges_weight.
Qed.

Lemma reduceEdges_unit_weights_witness :
  reduceEdges [Edge.mk "e1" "A" "B" "calls" 1; Edge.mk "e2" "A" "B" "calls" 1]
  = GraphProcessingService.mergeDuplicateEdges
      [Edge.mk "e1" "A" "B" "calls" 1; Edge.mk "e2" "A" "B" "calls" 1].
Proof.
  apply (reduceEdges_unit_weights _ []). by repeat constructor.
Defined.
End chunk_facts.

(** ** The filter on the number of relationships *)

Section filter_facts.
Import RelationshipsFilter FilterFacts.

Implicit Types (records : list Neo4jComponentPath)
  (relationsMap : gmap string (list string)).

Lemma relatedNodes_snoc outgoing records record node :
  relatedNodes outgoing (records ++ [record]) node
  = relatedNodes outgoing records node
    ++ match relation outgoing record with
       | Some p => if decide (p.1 = node) then [p.2] else []
       | None => []
       end.
Proof.
  unfold relatedNodes. rewrite omap_app. f_equal. cbn.
  destruct (relation outgoing record) as [p|]; [|done]. cbn.
  by destruct (decide (p.1 = node)).
Qed.

Lemma countRelationship_relation outgoing relationsMap record :
  countRelationship outgoing relationsMap record
  = match relation outgoing record with
    | Some (node, relatedNode) =>
        let currentRelations := default [] (relationsMap !! node) in
        if decide (relatedNode ∈ currentRelations ∧ is_Some (relationsMap !! node))
        then relationsMap
        else <[node := currentRelations ++ [relatedNode]]> relationsMap
    | None => relationsMap
    end.
Proof.
  unfold countRelationship, relation.
  destruct (head _) as [edge|]; [|done]. cbn.
  destruct (outgoing && isDependency record || negb outgoing && negb (isDependency record))%bool;
    cbn; (case_decide; [done|]);
    (destruct (relationsMap !! _) as [currentRelations|] eqn:Hget; cbn;
     [unfold includes; case_bool_decide;
      [rewrite decide_True; [done|by split]|rewrite decide_False; [done|by intros [? _]]]
     |rewrite decide_False; [done|by intros [_ [? ?]]]]).
Qed.

(** The relations that the map holds for a node are the different nodes
    that the records relate to it. *)
Lemma relationsMap_related outgoing records node :
  let related := default [] (foldl (countRelationship outgoing) ∅ records !! node) in
  NoDup related ∧ ∀ x, x ∈ related ↔ x ∈ relatedNodes outgoing records node.
Proof.
  induction records as [|record records IH] using rev_ind.
  { cbn. rewrite lookup_empty. cbn. split; [constructor|done]. }
  cbn zeta in *. destruct IH as [Hnd Hiff].
  rewrite foldl_snoc, relatedNodes_snoc, countRelationship_relation.
  set (m := foldl (countRelationship outgoing) ∅ records) in *.
  destruct (relation outgoing record) as [[n relatedNode]|]; cbn [fst snd].
  - cbn zeta. destruct (decide (n = node)) as [->|Hne].
    + case_decide as Hin.
      * split; [done|]. intros x. rewrite elem_of_app, <- Hiff.
        split; [by left|]. intros [?| ->%list_elem_of_singleton]; [done|apply Hin].
      * rewrite lookup_insert_eq. cbn [default from_option]. unfold id.
        assert (Hnew : relatedNode ∉ default [] (m !! node)).
        { intros Hx. apply Hin. split; [done|].
          destruct (m !! node); [done|]. by apply elem_of_nil in Hx. }
        split.
        -- apply NoDup_app. split_and!; [done| |apply NoDup_singleton].
           by intros x Hx ->%list_elem_of_singleton.
        -- intros x. rewrite !elem_of_app, Hiff. done.
    + assert (Hsame : default [] ((if decide (relatedNode ∈ default [] (m !! n)
                                               ∧ is_Some (m !! n))
                                   then m
                                   else <[n := default [] (m !! n) ++ [relatedNode]]> m)
                                  !! node)
                      = default [] (m !! node)).
      { case_decide; [done|]. by rewrite lookup_insert_ne. }
      rewrite Hsame. split; [done|]. intros x. rewrite elem_of_app, <- Hiff.
      split; [by left|]. by intros [?|?%elem_of_nil].
  - split; [done|]. intros x. rewrite elem_of_app, <- Hiff.
    split; [by left|]. by intros [?|?%elem_of_nil].
Qed.

Lemma relationsMap_count outgoing records node :
  Z.of_nat (length (default [] (foldl (countRelationship outgoing) ∅ records !! node)))
  = relationCount outgoing records node.
Proof.
  destruct (relationsMap_related outgoing records node) as [Hnd Hiff].
  unfold relationCount. f_equal. apply Permutation_length.
  apply NoDup_Permutation; [done|apply NoDup_remove_dups|].
  intros x. by rewrite Hiff, elem_of_remove_dups.
Qed.

Lemma withinRange_bounded minRelationships maxRelationships (l : list string) :
  withinRange minRelationships maxRelationships l = true
  ↔ bounded minRelationships maxRelationships (Z.of_nat (length l)).
Proof.
  unfold withinRange, bounded.
  set (n := Z.of_nat (length l)). set (lo := default 0 minRelationships).
  set (hi := default 0 maxRelationships).
  destruct (truthy minRelationships), (truthy maxRelationships); cbn [andb];
    destruct (Z.ltb_spec n lo), (Z.ltb_spec hi n);
    (split; [intros ?; try done; split; intros ?; (done || lia)
            |intros [Hlo Hhi]; try done;
             try (specialize (Hlo eq_refl)); try (specialize (Hhi eq_refl)); lia]).
Qed.

Lemma applyMinMaxRelationshipsFilter_bounded records outgoing
    minRelationships maxRelationships :
  applyMinMaxRelationshipsFilter records outgoing minRelationships maxRelationships
  = filter (λ record,
              bounded minRelationships maxRelationships
                (relationCount outgoing records (selectedModuleElementId record)))
      records.
Proof.
  unfold applyMinMaxRelationshipsFilter.
  destruct (truthy minRelationships) eqn:Hmin;
    destruct (truthy maxRelationships) eqn:Hmax; cbn [negb andb]; cbn zeta.
  4: { assert (Hall : filter (λ _ : Neo4jComponentPath, true = true) records = records).
       { apply filter_all, Forall_forall. done. }
       rewrite Hall. symmetry.
       apply filter_all, Forall_forall. intros record _.
       unfold bounded. rewrite Hmin, Hmax. done. }
  all: apply filter_ext_elem; intros record _.
  all: rewrite withinRange_bounded, relationsMap_count; done.
Qed.

(** X21.  [applyMinMaxRelationshipsFilter] keeps, in their order, the
    records whose selected module is related, by the first dependency edges
    of the given records, to a number of different nodes that is within
    the bounds; a bound that is missing or 0 is no bound, and without
    bounds every record is kept. *)
Theorem applyMinMaxRelationshipsFilter_counts records outgoing
    minRelationships maxRelationships :
  applyMinMaxRelationshipsFilter records outgoing minRelationships maxRelationships
  = filter (λ record,
              bounded minRelationships maxRelationships
                (relationCount outgoing records (selectedModuleElementId record)))
      records
  ∧ (truthy minRelationships = false → truthy maxRelationships = false →
     applyMinMaxRelationshipsFilter records outgoing minRelationships maxRelationships
     = records).
Proof.
  split; [apply applyMinMaxRelationshipsFilter_bounded|].
  intros Hmin Hmax. rewrite applyMinMaxRelationshipsFilter_bounded.
  apply filter_all, Forall_forall. intros record _.
  unfold bounded. by rewrite Hmin, Hmax.
Qed.

Lemma applyMinMaxRelationshipsFilter_counts_witness :
  applyMinMaxRelationshipsFilter threeDependencies true (Some 0) None = threeDependencies.
Proof. by apply applyMinMaxRelationshipsFilter_counts. Defined.

(** X22.  The records of one selected module are kept or dropped
    together, and wider bounds keep every record that narrower bounds
    keep. *)
Theorem applyMinMaxRelationshipsFilter_monotone records outgoing
    (lo lo' hi hi' : Z) :
  lo' ≤ lo → hi ≤ hi' → 0 < lo' → 0 < hi →
  (∀ record other, record ∈ records → other ∈ records →
     selectedModuleElementId record = selectedModuleElementId other →
     record ∈ applyMinMaxRelationshipsFilter records outgoing (Some lo) (Some hi) →
     other ∈ applyMinMaxRelationshipsFilter records outgoing (Some lo) (Some hi))
  ∧ ∀ record,
      record ∈ applyMinMaxRelationshipsFilter records outgoing (Some lo) (Some hi) →
      record ∈ applyMinMaxRelationshipsFilter records outgoing (Some lo') (Some hi').
Proof.
  intros Hlo Hhi Hpos Hpos'.
  rewrite !applyMinMaxRelationshipsFilter_bounded.
  split.
  - intros record other _ Hother Hsame. rewrite !list_elem_of_filter, Hsame. tauto.
  - intros record. rewrite !list_elem_of_filter. unfold bounded. cbn.
    intros [[Hmin Hmax] Hin]. split; [|done].
    assert (Hl : negb (lo =? 0) = true) by (apply negb_true_iff, Z.eqb_neq; lia).
    assert (Hh : negb (hi =? 0) = true) by (apply negb_true_iff, Z.eqb_neq; lia).
    specialize (Hmin Hl). specialize (Hmax Hh). split; intros _; lia.
Qed.

Lemma applyMinMaxRelationshipsFilter_monotone_witness :
  mkPath (Path.mk [] [Rel.mk "d3" "m" "y" "CALLS"] [] 0 0) true "m"
    ∈ applyMinMaxRelationshipsFilter threeDependencies true (Some 1) (Some 3).
Proof.
  apply (applyMinMaxRelationshipsFilter_monotone threeDependencies true 2 1 2 3);
    [lia..|].
  vm_compute. right. right. left.
Defined.
End filter_facts.

(** ** The layers of the graph *)

Section layer_facts.
Import PropertiesService LayerFacts.

Implicit Types (layers : list GraphLayer) (records : list Neo4jLayerRecord).

(** *** The layers that the records give *)

Lemma summary_labels layers : (summary layers).*1 = label <$> layers.
Proof. unfold summary. by rewrite <- list_fmap_compose. Qed.

Lemma summary_addClass layers (cs : list string) i :
  summary (foldl (λ layers c, alter (addClass c) i layers) layers cs) = summary layers.
Proof.
  revert layers. induction cs as [|c cs IH]; intros layers; [done|].
  cbn [foldl]. rewrite IH. unfold summary.
  rewrite (list_fmap_alter _ _ id).
  - apply list_alter_id. done.
  - apply Forall_forall. intros x _. unfold addClass. by destruct (includes _ _).
Qed.

Lemma summary_setParentLabel layers fromLabel i :
  summary (alter (setParentLabel fromLabel) i layers)
  = alter (λ e, (e.1, Some fromLabel)) i (summary layers).
Proof.
  unfold summary. apply list_fmap_alter, Forall_forall. intros x _.
  unfold setParentLabel. case_decide as Hp; [done|].
  cbn. by rewrite Hp.
Qed.

Lemma findOrCreateLayer_labels layers l :
  ∃ extra,
    (findOrCreateLayer layers l).2 = layers ++ extra
    ∧ (label <$> layers ++ extra) !! (findOrCreateLayer layers l).1 = Some l
    ∧ Forall (λ x, x = mkLayer l [] None ∧ l ∉ label <$> layers) extra
    ∧ (length extra ≤ 1)%nat.
Proof.
  unfold findOrCreateLayer.
  destruct (list_find _ layers) as [[i x]|] eqn:Hfind; cbn.
  - exists []. apply list_find_Some in Hfind as (Hi & Hl & _).
    rewrite app_nil_r, list_lookup_fmap, Hi. cbn. split_and!; [done|by rewrite Hl|done|lia].
  - exists [mkLayer l [] None]. split_and!; [done| | |done].
    + rewrite fmap_app. rewrite lookup_app_r by (by rewrite length_fmap).
      by rewrite length_fmap, Nat.sub_diag.
    + apply Forall_singleton. split; [done|].
      rewrite list_find_None, Forall_forall in Hfind.
      intros (x & Hx & Hin)%list_elem_of_fmap. by apply (Hfind x).
Qed.

Lemma addRecord_summary layers (r : Neo4jLayerRecord) :
  NoDup (label <$> layers) →
  ∃ extra toLayer,
    summary (addRecord layers r)
    = alter (λ e, (e.1, Some (from r).1)) toLayer (summary (layers ++ extra))
    ∧ (label <$> layers ++ extra) !! toLayer = Some (to r).1
    ∧ NoDup (label <$> layers ++ extra)
    ∧ (from r).1 ∈ label <$> layers ++ extra
    ∧ Forall (λ x, parentLabel x = None ∧ label x ∉ label <$> layers
                   ∧ (label x = (from r).1 ∨ label x = (to r).1)) extra.
Proof.
  intros Hnd. unfold addRecord.
  destruct (from r) as [fromLabel fromClasses]. destruct (to r) as [toLabel toClasses].
  destruct (findOrCreateLayer_labels layers fromLabel) as (extra1 & Heq1 & Hi1 & Hx1 & Hlen1).
  destruct (findOrCreateLayer layers fromLabel) as [fromLayer layers1].
  cbn [fst snd] in *. subst layers1.
  destruct (findOrCreateLayer_labels (layers ++ extra1) toLabel)
    as (extra2 & Heq2 & Hi2 & Hx2 & Hlen2).
  destruct (findOrCreateLayer (layers ++ extra1) toLabel) as [toLayer layers2].
  cbn [fst snd] in *. subst layers2.
  exists (extra1 ++ extra2), toLayer. rewrite !summary_addClass, summary_setParentLabel.
  rewrite !app_assoc. split_and!; [done|done| | |].
  - rewrite !fmap_app. rewrite <- app_assoc. apply NoDup_app. split_and!; [done| |].
    + intros x Hx [Hin|Hin]%elem_of_app.
      * apply list_elem_of_fmap in Hin as (y & -> & Hy).
        rewrite Forall_forall in Hx1. by destruct (Hx1 y Hy) as [-> Hnew].
      * apply list_elem_of_fmap in Hin as (y & -> & Hy).
        rewrite Forall_forall in Hx2. destruct (Hx2 y Hy) as [-> Hnew].
        apply Hnew. rewrite fmap_app. apply elem_of_app. by left.
    + apply NoDup_app. split_and!.
      * destruct extra1 as [|x1 [|? ?]]; [constructor|apply NoDup_singleton|cbn in Hlen1; lia].
      * intros x Hin1 Hin2.
        apply list_elem_of_fmap in Hin2 as (y & -> & Hy).
        rewrite Forall_forall in Hx2. destruct (Hx2 y Hy) as [-> Hnew].
        apply Hnew. rewrite fmap_app. apply elem_of_app. by right.
      * destruct extra2 as [|x2 [|? ?]]; [constructor|apply NoDup_singleton|cbn in Hlen2; lia].
  - rewrite fmap_app. apply elem_of_app. left. by eapply list_elem_of_lookup_2.
  - apply Forall_app. split.
    + eapply Forall_impl; [exact Hx1|]. intros x [-> Hnew]. cbn. by split_and!; [|..|left].
    + eapply Forall_impl; [exact Hx2|]. intros x [-> Hnew]. cbn. split_and!; [done| |by right].
      intros Hin. apply Hnew. rewrite fmap_app. apply elem_of_app. by left.
Qed.

Lemma collectLayers_snoc records (r : Neo4jLayerRecord) :
  collectLayers (records ++ [r]) = addRecord (collectLayers records) r.
Proof. unfold collectLayers. by rewrite foldl_snoc. Qed.

Lemma collectLayers_invariant records :
  NoDup (label <$> collectLayers records)
  ∧ (∀ l, l ∈ label <$> collectLayers records
          ↔ l ∈ fromLabels records ∨ l ∈ toLabels records)
  ∧ ∀ l p, (l, p) ∈ summary (collectLayers records) →
      (p = None ↔ l ∉ toLabels records)
      ∧ ∀ q, p = Some q → ∃ r, r ∈ records ∧ (from r).1 = q ∧ (to r).1 = l.
Proof.
  induction records as [|r records IH] using rev_ind.
  { cbn. split_and!; [constructor| |by intros ? ? ?%elem_of_nil].
    intros l. split; [by intros ?%elem_of_nil|by intros [?%elem_of_nil|?%elem_of_nil]]. }
  destruct IH as (Hnd & Hlab & Hpar). rewrite collectLayers_snoc.
  destruct (addRecord_summary (collectLayers records) r Hnd)
    as (extra & toLayer & Hsum & Hto & Hnd' & Hfrom & Hextra).
  set (layers := collectLayers records) in *.
  assert (Hlabels : label <$> addRecord layers r = label <$> layers ++ extra).
  { rewrite <- !summary_labels, Hsum. rewrite (list_fmap_alter _ _ id).
    - by apply list_alter_id.
    - by apply Forall_forall. }
  unfold fromLabels, toLabels in *. rewrite !fmap_app. cbn [fmap list_fmap].
  rewrite Forall_forall in Hextra.
  split_and!.
  - by rewrite Hlabels.
  - intros l. rewrite Hlabels, !elem_of_app, !list_elem_of_singleton. split.
    + rewrite fmap_app, elem_of_app, Hlab.
      intros [[?|?]|(x & -> & Hx)%list_elem_of_fmap]; [tauto..|].
      destruct (Hextra x Hx) as (_ & _ & [?|?]); tauto.
    + intros [[?| ->]|[?| ->]].
      * rewrite fmap_app, elem_of_app, Hlab. tauto.
      * done.
      * rewrite fmap_app, elem_of_app, Hlab. tauto.
      * by eapply list_elem_of_lookup_2.
  - intros l p (j & Hj)%list_elem_of_lookup. rewrite Hsum, list_lookup_alter in Hj.
    assert (Hlookup : ∀ i e, summary (layers ++ extra) !! i = Some e →
                             (label <$> layers ++ extra) !! i = Some e.1).
    { intros i e Hi. rewrite <- summary_labels, list_lookup_fmap, Hi. done. }
    case_decide as Hidx.
    + subst j. destruct (summary (layers ++ extra) !! toLayer) as [e|] eqn:He; [|done].
      injection Hj as <- <-. pose proof (Hlookup _ _ He) as Hl.
      rewrite Hto in Hl. injection Hl as <-. split.
      * split; [done|]. intros Hn. destruct Hn.
        apply elem_of_app. right. left.
      * intros q [= <-]. exists r. split_and!; [|done..].
        apply elem_of_app. right. left.
    + pose proof (Hlookup _ _ Hj) as Hl. cbn [fst] in Hl.
      assert (Hne : l ≠ (to r).1).
      { intros ->. apply Hidx. by eapply NoDup_lookup. }
      assert (Hnotin : l ∉ ((λ r0, (to r0).1) <$> records) ++ [(to r).1]
                       ↔ l ∉ (λ r0, (to r0).1) <$> records).
      { rewrite elem_of_app, list_elem_of_singleton. tauto. }
      rewrite Hnotin. apply list_elem_of_lookup_2 in Hj.
      unfold summary in Hj. rewrite fmap_app in Hj.
      apply elem_of_app in Hj as [Hj|Hj].
      * destruct (Hpar l p Hj) as [Hc Hd]. split; [done|].
        intros q Hq. destruct (Hd q Hq) as (r0 & Hr0 & ?).
        exists r0. split; [apply elem_of_app; by left|done].
      * apply list_elem_of_fmap in Hj as (x & [= -> ->] & Hx).
        destruct (Hextra x Hx) as (Hnone & Hnew & _). rewrite Hnone. split.
        -- split; [|done]. intros _ Hin. apply Hnew, Hlab. by right.
        -- by intros q [=].
Qed.

(** X23.  The layers that [formatLayers] collects have different labels,
    one for every label of a containing or contained node of the records; a
    layer has no parent exactly when no record has it as the contained
    layer, and the parent of a layer is the containing layer of a record
    that has it as the contained layer. *)
Theorem collectLayers_labels records :
  NoDup (label <$> collectLayers records)
  ∧ (∀ l, l ∈ label <$> collectLayers records
          ↔ l ∈ fromLabels records ∨ l ∈ toLabels records)
  ∧ ∀ layer, layer ∈ collectLayers records →
      (parentLabel layer = None ↔ label layer ∉ toLabels records)
      ∧ ∀ q, parentLabel layer = Some q →
          ∃ r, r ∈ records ∧ (from r).1 = q ∧ (to r).1 = label layer.
Proof.
  destruct (collectLayers_invariant records) as (Hnd & Hlab & Hpar).
  split_and!; [done..|]. intros layer Hin.
  apply (Hpar (label layer) (parentLabel layer)).
  unfold summary. by apply (list_elem_of_fmap_2 (λ l, (label l, parentLabel l))).
Qed.

(** *** The classes of the layers *)

Lemma addClasses_classes (cs : list string) (layer : GraphLayer) :
  label (addClasses cs layer) = label layer
  ∧ (NoDup (classes layer) → NoDup (classes (addClasses cs layer)))
  ∧ ∀ c, c ∈ classes (addClasses cs layer) ↔ c ∈ classes layer ∨ c ∈ cs.
Proof.
  unfold addClasses. revert layer. induction cs as [|c cs IH]; intros layer.
  { split_and!; [done..|]. intros c. split; [by left|]. by intros [?|?%elem_of_nil]. }
  cbn [foldl]. destruct (IH (addClass c layer)) as (Hl & Hnd & Hiff).
  assert (Hadd : label (addClass c layer) = label layer
                 ∧ (NoDup (classes layer) → NoDup (classes (addClass c layer)))
                 ∧ ∀ c', c' ∈ classes (addClass c layer) ↔ c' ∈ classes layer ∨ c' = c).
  { unfold addClass, includes. case_bool_decide as Hin; cbn.
    - split_and!; [done..|]. intros c'. split; [by left|]. by intros [?| ->].
    - split_and!; [done| |].
      + intros Hnd'. apply NoDup_app. split_and!; [done| |apply NoDup_singleton].
        by intros x Hx ->%list_elem_of_singleton.
      + intros c'. by rewrite elem_of_app, list_elem_of_singleton. }
  destruct Hadd as (Hl' & Hnd' & Hiff').
  split_and!; [by rewrite Hl|by intros ?; apply Hnd, Hnd'|].
  intros c'. rewrite Hiff, Hiff', elem_of_cons. tauto.
Qed.

Lemma foldl_alter_addClass layers i (cs : list string) :
  foldl (λ layers c, alter (addClass c) i layers) layers cs
  = alter (addClasses cs) i layers.
Proof.
  revert layers. induction cs as [|c cs IH]; intros layers.
  - cbn. symmetry. by apply list_alter_id.
  - cbn [foldl]. by rewrite IH, list_alter_alter_eq.
Qed.

Lemma addRecord_alters layers (r : Neo4jLayerRecord) :
  NoDup (label <$> layers) →
  ∃ extra fromLayer toLayer,
    addRecord layers r
    = alter (addClasses (to r).2) toLayer
        (alter (addClasses (from r).2) fromLayer
           (alter (setParentLabel (from r).1) toLayer (layers ++ extra)))
    ∧ (label <$> layers ++ extra) !! fromLayer = Some (from r).1
    ∧ (label <$> layers ++ extra) !! toLayer = Some (to r).1
    ∧ NoDup (label <$> layers ++ extra)
    ∧ Forall (λ x, classes x = [] ∧ label x ∉ label <$> layers) extra.
Proof.
  intros Hnd.
  destruct (addRecord_summary layers r Hnd) as (extra0 & toLayer0 & _ & _ & _ & _ & _).
  clear extra0 toLayer0. unfold addRecord.
  destruct (from r) as [fromLabel fromClasses]. destruct (to r) as [toLabel toClasses].
  destruct (findOrCreateLayer_labels layers fromLabel) as (extra1 & Heq1 & Hi1 & Hx1 & Hlen1).
  destruct (findOrCreateLayer layers fromLabel) as [fromLayer layers1].
  cbn [fst snd] in *. subst layers1.
  destruct (findOrCreateLayer_labels (layers ++ extra1) toLabel)
    as (extra2 & Heq2 & Hi2 & Hx2 & Hlen2).
  destruct (findOrCreateLayer (layers ++ extra1) toLabel) as [toLayer layers2].
  cbn [fst snd] in *. subst layers2.
  exists (extra1 ++ extra2), fromLayer, toLayer. rewrite !foldl_alter_addClass.
  rewrite !app_assoc. split_and!; [done| |done| |].
  - rewrite fmap_app. by apply lookup_app_l_Some.
  - rewrite !fmap_app. rewrite <- app_assoc. apply NoDup_app. split_and!; [done| |].
    + intros x Hx [Hin|Hin]%elem_of_app.
      * apply list_elem_of_fmap in Hin as (y & -> & Hy).
        rewrite Forall_forall in Hx1. by destruct (Hx1 y Hy) as [-> Hnew].
      * apply list_elem_of_fmap in Hin as (y & -> & Hy).
        rewrite Forall_forall in Hx2. destruct (Hx2 y Hy) as [-> Hnew].
        apply Hnew. rewrite fmap_app. apply elem_of_app. by left.
    + apply NoDup_app. split_and!.
      * destruct extra1 as [|x1 [|? ?]]; [constructor|apply NoDup_singleton|cbn in Hlen1; lia].
      * intros x Hin1 Hin2.
        apply list_elem_of_fmap in Hin2 as (y & -> & Hy).
        rewrite Forall_forall in Hx2. destruct (Hx2 y Hy) as [-> Hnew].
        apply Hnew. rewrite fmap_app. apply elem_of_app. by right.
      * destruct extra2 as [|x2 [|? ?]]; [constructor|apply NoDup_singleton|cbn in Hlen2; lia].
  - apply Forall_app. split.
    + eapply Forall_impl; [exact Hx1|]. by intros x [-> Hnew].
    + eapply Forall_impl; [exact Hx2|]. intros x [-> Hnew]. split; [done|].
      intros Hin. apply Hnew. rewrite fmap_app. apply elem_of_app. by left.
Qed.

Lemma classesOf_snoc records (r : Neo4jLayerRecord) l :
  classesOf (records ++ [r]) l
  = classesOf records l
    ++ (if decide ((from r).1 = l) then (from r).2 else [])
    ++ (if decide ((to r).1 = l) then (to r).2 else []).
Proof. unfold classesOf. rewrite fmap_app, join_app. cbn. by rewrite app_nil_r. Qed.

Lemma classesOf_unknown records l :
  l ∉ fromLabels records → l ∉ toLabels records → classesOf records l = [].
Proof.
  unfold fromLabels, toLabels.
  induction records as [|r records IH]; [done|]. rewrite !fmap_cons.
  intros Hf Ht.
  change (classesOf (r :: records) l)
    with (((if decide ((from r).1 = l) then (from r).2 else [])
           ++ (if decide ((to r).1 = l) then (to r).2 else []))
          ++ classesOf records l).
  rewrite IH; [|intros ?; apply Hf; by right|intros ?; apply Ht; by right].
  rewrite !decide_False; [done| |]; intros Heq; [apply Ht|apply Hf]; rewrite <- Heq; left.
Qed.

Lemma collectLayers_classes records layer :
  layer ∈ collectLayers records →
  NoDup (classes layer)
  ∧ ∀ c, c ∈ classes layer ↔ c ∈ classesOf records (label layer).
Proof.
  revert layer. induction records as [|r records IH] using rev_ind; intros layer.
  { by intros ?%elem_of_nil. }
  rewrite collectLayers_snoc.
  destruct (collectLayers_invariant records) as (Hnd & Hlab & _).
  destruct (addRecord_alters (collectLayers records) r Hnd)
    as (extra & fromLayer & toLayer & -> & Hfrom & Hto & Hnd' & Hextra).
  set (layers := collectLayers records) in *.
  intros (j & Hj)%list_elem_of_lookup.
  assert (Hbase : ∀ y, (layers ++ extra) !! j = Some y →
            NoDup (classes y) ∧ ∀ c, c ∈ classes y ↔ c ∈ classesOf records (label y)).
  { intros y [Hy%list_elem_of_lookup_2|[_ Hy%list_elem_of_lookup_2]]%lookup_app_Some.
    - by apply IH.
    - rewrite Forall_forall in Hextra. destruct (Hextra y Hy) as [Hc Hnew].
      rewrite Hc, classesOf_unknown.
      + split; [constructor|done].
      + intros Hin. apply Hnew, Hlab. by left.
      + intros Hin. apply Hnew, Hlab. by right. }
  assert (Hidx : ∀ y i l, (layers ++ extra) !! j = Some y →
            (label <$> layers ++ extra) !! i = Some l → (i = j ↔ l = label y)).
  { intros y i l Hy Hi.
    assert (Hjl : (label <$> layers ++ extra) !! j = Some (label y))
      by (by rewrite list_lookup_fmap, Hy).
    split; [intros ->; congruence|intros ->; by eapply NoDup_lookup]. }
  destruct ((layers ++ extra) !! j) as [y|] eqn:Hy.
  2: { apply lookup_lt_Some in Hj. rewrite !length_alter in Hj.
       apply lookup_ge_None in Hy. lia. }
  destruct (Hbase y eq_refl) as [Hndy Hiffy].
  pose proof (Hidx y fromLayer _ eq_refl Hfrom) as Hf.
  pose proof (Hidx y toLayer _ eq_refl Hto) as Ht.
  assert (Hset : ∀ p, label (setParentLabel p y) = label y
                      ∧ classes (setParentLabel p y) = classes y).
  { intros p. unfold setParentLabel.
    destruct (decide (parentLabel y ≠ Some p)); by split. }
  rewrite classesOf_snoc.
  destruct (decide (toLayer = j)) as [->|Hnt];
    destruct (decide (fromLayer = j)) as [->|Hnf].
  - rewrite !list_lookup_alter_eq, Hy in Hj. cbn in Hj. injection Hj as <-.
    destruct (addClasses_classes (from r).2 (setParentLabel (from r).1 y)) as (Hl1 & Hn1 & Hc1).
    destruct (addClasses_classes (to r).2
                (addClasses (from r).2 (setParentLabel (from r).1 y))) as (Hl2 & Hn2 & Hc2).
    destruct (Hset (from r).1) as [Hl0 Hc0].
    rewrite Hl2, Hl1, Hl0.
    rewrite !decide_True by (by apply Hf || by apply Ht).
    split; [apply Hn2, Hn1; by rewrite Hc0|].
    intros c. rewrite Hc2, Hc1, Hc0, !elem_of_app, Hiffy. tauto.
  - rewrite list_lookup_alter_eq, list_lookup_alter_ne, list_lookup_alter_eq, Hy in Hj
      by done.
    cbn in Hj. injection Hj as <-.
    destruct (addClasses_classes (to r).2 (setParentLabel (from r).1 y)) as (Hl2 & Hn2 & Hc2).
    destruct (Hset (from r).1) as [Hl0 Hc0].
    rewrite Hl2, Hl0.
    rewrite decide_False by (intros Heq; by apply Hnf, Hf).
    rewrite decide_True by (by apply Ht).
    split; [apply Hn2; by rewrite Hc0|].
    intros c. rewrite Hc2, Hc0, !elem_of_app, Hiffy. cbn. rewrite elem_of_nil. tauto.
  - rewrite list_lookup_alter_ne, list_lookup_alter_eq, list_lookup_alter_ne, Hy in Hj
      by done.
    cbn in Hj. injection Hj as <-.
    destruct (addClasses_classes (from r).2 y) as (Hl1 & Hn1 & Hc1).
    rewrite Hl1.
    rewrite decide_True by (by apply Hf).
    rewrite decide_False by (intros Heq; by apply Hnt, Ht).
    split; [by apply Hn1|].
    intros c. rewrite Hc1, !elem_of_app, Hiffy. rewrite elem_of_nil. tauto.
  - rewrite !list_lookup_alter_ne, Hy in Hj by done. injection Hj as <-.
    rewrite decide_False by (intros Heq; by apply Hnf, Hf).
    rewrite decide_False by (intros Heq; by apply Hnt, Ht).
    split; [done|]. intros c. rewrite !elem_of_app, Hiffy, elem_of_nil. tauto.
Qed.

(** X24.  A layer that [formatLayers] collects holds every class once:
    its classes are the classes that the records give, on either side, for
    its label. *)
Theorem collectLayers_classes_of_label records :
  ∀ layer, layer ∈ collectLayers records →
    NoDup (classes layer)
    ∧ ∀ c, c ∈ classes layer
           ↔ ∃ r, r ∈ records
                  ∧ ((from r).1 = label layer ∧ c ∈ (from r).2
                     ∨ (to r).1 = label layer ∧ c ∈ (to r).2).
Proof.
  intros layer [Hnd Hiff]%collectLayers_classes. split; [done|].
  intros c. rewrite Hiff. unfold classesOf. rewrite list_elem_of_join. split.
  - intros (cs & Hc & (r & -> & Hr)%list_elem_of_fmap). exists r. split; [done|].
    apply elem_of_app in Hc as [Hc|Hc]; case_decide; try (by apply elem_of_nil in Hc); auto.
  - intros (r & Hr & Hcase). eexists. split; [|by apply list_elem_of_fmap_2].
    apply elem_of_app.
    destruct Hcase as [[Hl Hc]|[Hl Hc]]; [left|right]; by rewrite decide_True.
Qed.

Lemma collectLayers_classes_of_label_witness :
  ∃ r, r ∈ threeLayers
       ∧ ((from r).1 = "Layer" ∧ "Sublayer" ∈ (from r).2
          ∨ (to r).1 = "Layer" ∧ "Sublayer" ∈ (to r).2).
Proof.
  apply (collectLayers_classes_of_label threeLayers
           (mkLayer "Layer" ["Sublayer"] (Some "Application"))).
  - vm_compute. right. left.
  - left.
Defined.

(** *** The order of the layers *)

Lemma childrenOf_snoc parent (l : list GraphLayer) current child :
  childrenOf parent (l ++ [current]) → parentLabel child = Some (label current) →
  childrenOf parent (l ++ [current; child]).
Proof.
  revert parent. induction l as [|x l IH]; intros parent; cbn.
  - by intros [? _] ?.
  - intros [? ?] ?. split; [done|]. by apply IH.
Qed.

Lemma chain_snoc (visited : list GraphLayer) current child :
  chain (visited ++ [current]) → parentLabel child = Some (label current) →
  chain (visited ++ [current; child]).
Proof.
  destruct visited as [|top visited]; cbn.
  - by intros [? _] ?.
  - intros [? ?] ?. split; [done|]. by apply childrenOf_snoc.
Qed.

Lemma childrenOf_predecessor parent (l : list GraphLayer) child :
  childrenOf parent l → child ∈ l →
  ∃ l1 p l2, parent :: l = l1 ++ p :: child :: l2 ∧ parentLabel child = Some (label p).
Proof.
  revert parent. induction l as [|x l IH]; intros parent; cbn.
  { by intros _ ?%elem_of_nil. }
  intros [Hx Hl] [->|Hin]%elem_of_cons.
  - by exists [], parent, l.
  - destruct (IH x Hl Hin) as (l1 & p & l2 & Heq & Hp).
    exists (parent :: l1), p, l2. by rewrite Heq.
Qed.

Lemma label_inj layers (x y : GraphLayer) :
  NoDup (label <$> layers) → x ∈ layers → y ∈ layers → label x = label y → x = y.
Proof.
  intros Hnd (i & Hi)%list_elem_of_lookup (j & Hj)%list_elem_of_lookup Heq.
  assert (i = j).
  { eapply NoDup_lookup; [exact Hnd| |].
    - by rewrite list_lookup_fmap, Hi.
    - by rewrite list_lookup_fmap, Hj, Heq. }
  subst j. congruence.
Qed.

Lemma child_not_visited layers (visited : list GraphLayer) current child :
  NoDup (label <$> layers) → chain (visited ++ [current]) →
  NoDup (visited ++ [current]) → (∀ x, x ∈ visited ++ [current] → x ∈ layers) →
  parentLabel child = Some (label current) →
  child ∉ visited ++ [current].
Proof.
  intros Hlabels Hchain Hnd Hsub Hchild Hin.
  assert (Hpred : ∃ l1 p l2, visited ++ [current] = l1 ++ p :: child :: l2
                             ∧ parentLabel child = Some (label p)).
  { destruct (visited ++ [current]) as [|top rest] eqn:Heq; [by apply elem_of_nil in Hin|].
    destruct Hchain as [Htop Hrest].
    apply elem_of_cons in Hin as [->|Hin]; [congruence|].
    by apply childrenOf_predecessor. }
  destruct Hpred as (l1 & p & l2 & Heq & Hp).
  assert (p = current) as ->.
  { apply (label_inj layers); [done| | |congruence].
    - apply Hsub. rewrite Heq. apply elem_of_app. right. left.
    - apply Hsub, elem_of_app. right. left. }
  pose proof (last_snoc current visited) as Hlast.
  rewrite Heq, last_app_cons, last_cons_cons in Hlast.
  apply last_Some_elem_of in Hlast.
  rewrite Heq in Hnd. apply NoDup_app in Hnd as (_ & _ & Hnd).
  by apply NoDup_cons in Hnd as [? _].
Qed.

Lemma sortLayers_total fuel layers (visited : list GraphLayer) current :
  NoDup (label <$> layers) → chain (visited ++ [current]) →
  NoDup (visited ++ [current]) → (∀ x, x ∈ visited ++ [current] → x ∈ layers) →
  (length layers < fuel + length (visited ++ [current]))%nat →
  ∃ rest,
    sortLayers fuel layers current = Some rest
    ∧ chain (visited ++ [current] ++ rest)
    ∧ NoDup (visited ++ [current] ++ rest)
    ∧ (∀ x, x ∈ rest → x ∈ layers)
    ∧ ∀ x lastLayer, last (current :: rest) = Some lastLayer → x ∈ layers →
        parentLabel x ≠ Some (label lastLayer).
Proof.
  intros Hlabels. revert visited current.
  induction fuel as [|fuel IH]; intros visited current Hchain Hnd Hsub Hlen.
  { apply NoDup_submseteq in Hsub; [|done].
    apply submseteq_length in Hsub. lia. }
  cbn [sortLayers].
  destruct (list_find _ layers) as [[i child]|] eqn:Hfind.
  - apply list_find_Some in Hfind as (Hi%list_elem_of_lookup_2 & Hchild & _).
    pose proof (child_not_visited _ _ _ _ Hlabels Hchain Hnd Hsub Hchild) as Hnew.
    destruct (IH (visited ++ [current]) child) as (rest & Hsort & Hchain' & Hnd' & Hsub' & Hend).
    + rewrite <- app_assoc. by apply chain_snoc.
    + apply NoDup_app. split_and!; [done| |apply NoDup_singleton].
      by intros x Hx ->%list_elem_of_singleton.
    + intros x [Hx| ->%list_elem_of_singleton]%elem_of_app; [by apply Hsub|done].
    + rewrite (length_app (visited ++ [current])). cbn [length]. lia.
    + exists (child :: rest). rewrite Hsort.
      rewrite <- !app_assoc in Hchain', Hnd'. split_and!; [done..| |].
      * intros x [->|Hx]%elem_of_cons; [done|by apply Hsub'].
      * intros x lastLayer Hlast. apply Hend. by rewrite last_cons_cons in Hlast.
  - exists []. rewrite app_nil_r. split_and!; [done..|by intros ? ?%elem_of_nil|].
    intros x lastLayer [= <-] Hx.
    rewrite list_find_None, Forall_forall in Hfind. by apply Hfind.
Qed.

(** X25.  With as many iterations as there are layers the loop of
    [formatLayers] ends.  When every layer has a parent, and so without
    records, [formatLayers] throws; otherwise it returns a chain of
    different layers that starts with the first layer without a parent,
    continues with a child of the layer before, and ends with a layer
    that has no child. *)
Theorem formatLayers_sorted fuel records :
  (length (collectLayers records) ≤ fuel)%nat →
  (Forall (λ l, parentLabel l ≠ None) (collectLayers records)
   ∧ formatLayers fuel records = Some (Throw noTopLayer))
  ∨ ∃ top rest,
      formatLayers fuel records = Some (Ok (top :: rest))
      ∧ (∃ i, list_find (λ l, parentLabel l = None) (collectLayers records)
              = Some (i, top))
      ∧ chain (top :: rest)
      ∧ NoDup (label <$> top :: rest)
      ∧ (∀ x, x ∈ top :: rest → x ∈ collectLayers records)
      ∧ ∀ x lastLayer, last (top :: rest) = Some lastLayer →
          x ∈ collectLayers records → parentLabel x ≠ Some (label lastLayer).
Proof.
  intros Hfuel. destruct (collectLayers_invariant records) as (Hlabels & _).
  unfold formatLayers. set (layers := collectLayers records) in *.
  destruct (list_find _ layers) as [[i top]|] eqn:Hfind.
  - right. pose proof Hfind as (Hi%list_elem_of_lookup_2 & Htop & _)%list_find_Some.
    destruct (sortLayers_total fuel layers [] top) as (rest & Hsort & Hchain & Hnd & Hsub & Hend);
      [done|done|apply NoDup_singleton| |..].
    { by intros x ->%list_elem_of_singleton. }
    { cbn. assert (0 < length layers)%nat; [|lia].
      destruct layers; [by apply elem_of_nil in Hi|cbn; lia]. }
    exists top, rest. rewrite Hsort.
    split_and!; [done|by exists i|exact Hchain| | |exact Hend].
    + assert (Hall : ∀ x, x ∈ top :: rest → x ∈ layers).
      { intros x [->|Hx]%elem_of_cons; [done|by apply Hsub]. }
      assert (Hsubm : label <$> top :: rest ⊆+ label <$> layers).
      { apply fmap_submseteq, NoDup_submseteq; done. }
      apply submseteq_sublist_r in Hsubm as (l2 & Hperm & Hsl).
      rewrite Hperm. by eapply sublist_NoDup.
    + intros x [->|Hx]%elem_of_cons; [done|by apply Hsub].
  - left. split; [|done]. by apply list_find_None in Hfind.
Qed.

Lemma formatLayers_sorted_witness :
  formatLayers 3 threeLayers
  = Some (Ok [mkLayer "Domain" [] None;
              mkLayer "Application" [] (Some "Domain");
              mkLayer "Layer" ["Sublayer"] (Some "Application")]).
Proof.
  destruct (formatLayers_sorted 3 threeLayers) as [[Hall _]|(top & rest & Heq & _)].
  - vm_compute. lia.
  - exfalso. vm_compute in Hall. apply Forall_cons in Hall as [_ Hall].
    apply Forall_cons in Hall as [_ Hall]. apply Forall_cons in Hall as [Hd _].
    by apply Hd.
  - rewrite Heq. vm_compute in Heq. by injection Heq as <- <-.
Defined.
End layer_facts.

(** ** The merge of graphs *)

Section merge_facts.
Import PostProcessingService ValidationFacts MergeFacts.

Implicit Types (graphs : list IntermediateGraph).

Lemma validateGraph_Ok_iff g :
  validateGraph g = Ok tt ↔ endpointsKnownOrBlank g.
Proof.
  unfold validateGraph, MapSet.map, endpointsKnownOrBlank.
  set (bad := filter _ (blankKnown (MapSet.keys (nodes g)) <$> MapSet.values (edges g))).
  destruct bad as [|b bad'] eqn:Hbad.
  - split; [|done]. intros _ e He.
    destruct (decide ((Edge.source e ∈ MapSet.keys (nodes g) ∨ Edge.source e = EmptyString)
                      ∧ (Edge.target e ∈ MapSet.keys (nodes g)
                         ∨ Edge.target e = EmptyString))) as [|Hno]; [done|].
    apply blankKnown_invalid_iff in Hno.
    assert (Hin : blankKnown (MapSet.keys (nodes g)) e ∈ bad).
    { subst bad. apply list_elem_of_filter. split; [done|].
      by apply list_elem_of_fmap_2. }
    rewrite Hbad in Hin. by apply elem_of_nil in Hin.
  - rewrite decide_False by (simpl; lia). split; [done|]. intros Hall.
    assert (Hb : b ∈ bad) by (rewrite Hbad; left).
    subst bad. apply list_elem_of_filter in Hb as [Hinv Hb].
    apply list_elem_of_fmap in Hb as (e & -> & He).
    apply blankKnown_invalid_iff in Hinv. by destruct Hinv; apply Hall.
Qed.

(** X26.  The graph that [mergeGraphs] returns is the union by id of the
    graphs: it holds every id once, the ids of its nodes are the ids of the
    nodes of the graphs, and every node that it holds is a node of one of
    the graphs, held under its own id; the same holds of the edges. *)
Theorem mergeGraphs_union graphs :
  (NoDup (MapSet.keys (nodes (mergeGraphs graphs)))
   ∧ (∀ k, k ∈ MapSet.keys (nodes (mergeGraphs graphs))
           ↔ k ∈ Neo4jComponentNode.elementId <$> allNodes graphs)
   ∧ ∀ k n, (k, n) ∈ nodes (mergeGraphs graphs) →
            Neo4jComponentNode.elementId n = k ∧ n ∈ allNodes graphs)
  ∧ (NoDup (MapSet.keys (edges (mergeGraphs graphs)))
     ∧ (∀ k, k ∈ MapSet.keys (edges (mergeGraphs graphs))
             ↔ k ∈ Edge.id <$> allEdges graphs)
     ∧ ∀ k e, (k, e) ∈ edges (mergeGraphs graphs) →
              Edge.id e = k ∧ e ∈ allEdges graphs).
Proof.
  unfold mergeGraphs. cbn [nodes edges]. split.
  - destruct (ofList_keys Neo4jComponentNode.elementId (allNodes graphs)) as [Hnd Hiff].
    split_and!; [done..|]. intros k n. apply ofList_elem.
  - destruct (ofList_keys Edge.id (allEdges graphs)) as [Hnd Hiff].
    split_and!; [done..|]. intros k e. apply ofList_elem.
Qed.

(** X27.  Several graphs, or none, that each pass the validation and hold
    their nodes under the ids of the nodes, are merged into a graph that
    passes the validation: the constructor returns the merged graph. *)
Theorem new_merged_valid graphs :
  length graphs ≠ 1%nat →
  Forall (λ g, keyedById g ∧ validateGraph g = Ok tt) graphs →
  new graphs = Ok (mergeGraphs graphs).
Proof.
  intros Hlen Hall.
  assert (Hvalid : validateGraph (mergeGraphs graphs) = Ok tt).
  { apply validateGraph_Ok_iff. intros e He.
    unfold MapSet.values in He. apply list_elem_of_fmap in He as ([k e'] & Heq & He).
    apply ofList_elem in He as [_ He]. cbn [snd] in Heq. subst e'.
    apply list_elem_of_join in He as (es & He & Hes).
    apply list_elem_of_fmap in Hes as (g & -> & Hg).
    rewrite Forall_forall in Hall. destruct (Hall g Hg) as [Hkeyed Hok].
    apply validateGraph_Ok_iff in Hok. destruct (Hok e He) as [Hs Ht].
    assert (Hknown : ∀ x, x ∈ MapSet.keys (nodes g) →
                          x ∈ MapSet.keys (nodes (mergeGraphs graphs))).
    { intros x Hx. rewrite Hkeyed in Hx.
      apply list_elem_of_fmap in Hx as (n & -> & Hn).
      apply ofList_keys, list_elem_of_fmap_2, list_elem_of_join.
      exists (MapSet.values (nodes g)). split; [done|].
      by apply (list_elem_of_fmap_2 (MapSet.values ∘ nodes)). }
    split; [destruct Hs|destruct Ht]; auto. }
  unfold new. destruct graphs as [|g [|g' graphs]]; [|done|]; by rewrite Hvalid.
Qed.

Lemma new_merged_valid_witness :
  new [Scenarios.scenarioD_G1; Scenarios.scenarioD_G2]
  = Ok (mergeGraphs [Scenarios.scenarioD_G1; Scenarios.scenarioD_G2]).
Proof.
  apply new_merged_valid; [done|].
  by repeat constructor.
Defined.
End merge_facts.

(** ** The dependencies of the domains *)

Section domain_facts.
Import GraphProcessingService GraphPropertiesService DomainFacts.

Implicit Types (ns : list Node.t) (es : list Edge.t).

Lemma foldl_weight (l : list Edge.t) (total : nat) :
  foldl (λ total e, (total + Edge.weight e)%nat) total l = (total + weights l)%nat.
Proof.
  unfold weights. revert total. induction l as [|e l IH]; intros total; cbn; [lia|].
  rewrite IH. lia.
Qed.

Lemma totalWeight_weights (P : Edge.t → Prop) `{!∀ e, Decision (P e)} es :
  totalWeight P es = weights (filter P es).
Proof. unfold totalWeight. by rewrite foldl_weight. Qed.

Lemma sum_list_with_eq {A} (f g : A → nat) (l : list A) :
  (∀ x, f x = g x) → sum_list_with f l = sum_list_with g l.
Proof. intros Heq. induction l as [|x l IH]; [done|]. cbn. by rewrite Heq, IH. Qed.

Lemma sum_list_with_map {A B} (f : B → nat) (g : A → B) (l : list A) :
  sum_list_with f (g <$> l) = sum_list_with (λ x, f (g x)) l.
Proof. induction l as [|x l IH]; [done|]. cbn. by rewrite IH. Qed.

(** The sum over the nodes of the weights of the edges that are related
    to each node, for a relation that holds between an edge and the node
    with the id [key e] when [Q e] holds, and between no others. *)
Lemma sum_by_node (P : Node.t → Edge.t → Prop) `{!∀ n e, Decision (P n e)}
    (key : Edge.t → string) (Q : Edge.t → Prop) `{!∀ e, Decision (Q e)} ns es :
  NoDup (Node.id <$> ns) →
  (∀ n e, P n e ↔ Node.id n = key e ∧ Q e) →
  sum_list_with (λ n, totalWeight (P n) es) ns
  = weights (filter (λ e, Q e ∧ key e ∈ Node.id <$> ns) es).
Proof.
  intros Hnd HP.
  rewrite (sum_list_with_eq _ (λ n, weights (filter (P n) es)))
    by (intros n; apply totalWeight_weights).
  induction es as [|e es IH].
  { cbn. induction ns as [|n ns IHn]; [done|]. cbn.
    apply NoDup_cons in Hnd as [_ Hnd]. by rewrite IHn. }
  rewrite filter_cons.
  assert (Hstep : sum_list_with (λ n, weights (filter (P n) (e :: es))) ns
                  = ((if decide (Q e ∧ key e ∈ Node.id <$> ns) then Edge.weight e else 0)
                     + sum_list_with (λ n, weights (filter (P n) es)) ns)%nat).
  { clear IH. induction ns as [|n ns IHn].
    { rewrite decide_False; [done|]. by intros [_ ?%elem_of_nil]. }
    rewrite fmap_cons in Hnd. apply NoDup_cons in Hnd as [Hn Hnd].
    cbn [sum_list_with]. rewrite (IHn Hnd), filter_cons, fmap_cons. clear IHn.
    destruct (decide (P n e)) as [Hp|Hp];
      destruct (decide (Q e ∧ key e ∈ Node.id <$> ns)) as [[Hq Hin]|Hno];
      destruct (decide (Q e ∧ key e ∈ Node.id n :: (Node.id <$> ns))) as [[Hq' Hin']|Hno'];
      try (unfold weights; cbn [sum_list_with]; lia).
    - apply HP in Hp as [Hid _]. destruct Hn. by rewrite Hid.
    - apply HP in Hp as [Hid _]. destruct Hn. by rewrite Hid.
    - apply HP in Hp as [Hid ?]. destruct Hno'. split; [done|]. rewrite Hid. left.
    - destruct Hno'. split; [done|by right].
    - apply elem_of_cons in Hin' as [Hid|Hin']; [|destruct Hno; by split].
      destruct Hp. apply HP. by split. }
  rewrite Hstep, IH. case_decide; [|done]. unfold weights. cbn. lia.
Qed.

Lemma filter_closed (key : Edge.t → string) (ids : list string)
    (P : Edge.t → Prop) `{!∀ e, Decision (P e)} es :
  (∀ e, e ∈ es → key e ∈ ids) →
  filter (λ e, key e ∈ ids) (filter P es) = filter P es.
Proof.
  intros Hkey. apply filter_all, Forall_forall.
  intros e [_ He]%list_elem_of_filter. by apply Hkey.
Qed.

(** X28.  When the ids of the nodes are different, the dependencies of
    all domains together weigh what the edges between different nodes
    that start in a node weigh, the dependents what such edges that end in
    a node weigh, and the internal dependencies what the self-edges of the
    nodes weigh; in a graph whose edges connect its nodes no weight is lost:
    the dependencies and the dependents are each the weight of the edges
    between different nodes. *)
Theorem formatDomains_weights (graph : Graph) :
  NoDup (Node.id <$> nodes graph) →
  node <$> formatDomains graph = nodes graph
  ∧ sum_list_with nrDependencies (formatDomains graph)
    = weights (filter (λ e, Edge.source e ∈ Node.id <$> nodes graph)
                 (crossEdges (edges graph)))
  ∧ sum_list_with nrDependents (formatDomains graph)
    = weights (filter (λ e, Edge.target e ∈ Node.id <$> nodes graph)
                 (crossEdges (edges graph)))
  ∧ sum_list_with nrInternalDependencies (formatDomains graph)
    = weights (filter (λ e, Edge.source e ∈ Node.id <$> nodes graph)
                 (selfEdges (edges graph)))
  ∧ (closed graph →
     sum_list_with nrDependencies (formatDomains graph) = weights (crossEdges (edges graph))
     ∧ sum_list_with nrDependents (formatDomains graph) = weights (crossEdges (edges graph))
     ∧ (sum_list_with nrDependencies (formatDomains graph)
        + sum_list_with nrInternalDependencies (formatDomains graph))%nat
       = weights (edges graph)).
Proof.
  intros Hnd. unfold formatDomains, crossEdges, selfEdges.
  set (gns := nodes graph) in *. set (ges := edges graph) in *.
  assert (Hdeps : sum_list_with nrDependencies
                    ((λ node, mkDomain node
                       (totalWeight (λ e, Edge.source e = Node.id node
                                          ∧ Edge.target e ≠ Node.id node) ges)
                       (totalWeight (λ e, Edge.source e ≠ Node.id node
                                          ∧ Edge.target e = Node.id node) ges)
                       (totalWeight (λ e, Edge.source e = Node.id node
                                          ∧ Edge.target e = Node.id node) ges)) <$> gns)
                  = weights (filter (λ e, Edge.source e ∈ Node.id <$> gns)
                               (filter (λ e, Edge.source e ≠ Edge.target e) ges))).
  { rewrite sum_list_with_map. cbn [nrDependencies]. rewrite list_filter_filter.
    rewrite (sum_by_node _ Edge.source (λ e, Edge.source e ≠ Edge.target e)); [|done|].
    - f_equal. apply list_filter_iff. intros e. tauto.
    - intros n e. split; intros [? ?]; split; congruence. }
  assert (Hdependents : sum_list_with nrDependents
                    ((λ node, mkDomain node
                       (totalWeight (λ e, Edge.source e = Node.id node
                                          ∧ Edge.target e ≠ Node.id node) ges)
                       (totalWeight (λ e, Edge.source e ≠ Node.id node
                                          ∧ Edge.target e = Node.id node) ges)
                       (totalWeight (λ e, Edge.source e = Node.id node
                                          ∧ Edge.target e = Node.id node) ges)) <$> gns)
                  = weights (filter (λ e, Edge.target e ∈ Node.id <$> gns)
                               (filter (λ e, Edge.source e ≠ Edge.target e) ges))).
  { rewrite sum_list_with_map. cbn [nrDependents]. rewrite list_filter_filter.
    rewrite (sum_by_node _ Edge.target (λ e, Edge.source e ≠ Edge.target e)); [|done|].
    - f_equal. apply list_filter_iff. intros e. tauto.
    - intros n e. split; intros [? ?]; split; congruence. }
  assert (Hinternal : sum_list_with nrInternalDependencies
                    ((λ node, mkDomain node
                       (totalWeight (λ e, Edge.source e = Node.id node
                                          ∧ Edge.target e ≠ Node.id node) ges)
                       (totalWeight (λ e, Edge.source e ≠ Node.id node
                                          ∧ Edge.target e = Node.id node) ges)
                       (totalWeight (λ e, Edge.source e = Node.id node
                                          ∧ Edge.target e = Node.id node) ges)) <$> gns)
                  = weights (filter (λ e, Edge.source e ∈ Node.id <$> gns)
                               (filter (λ e, Edge.source e = Edge.target e) ges))).
  { rewrite sum_list_with_map. cbn [nrInternalDependencies]. rewrite list_filter_filter.
    rewrite (sum_by_node _ Edge.source (λ e, Edge.source e = Edge.target e)); [|done|].
    - f_equal. apply list_filter_iff. intros e. tauto.
    - intros n e. split; intros [? ?]; split; congruence. }
  split_and!; [|done..|].
  - rewrite <- list_fmap_compose. apply list_fmap_id.
  - intros Hclosed. rewrite Hdeps, Hdependents, Hinternal.
    rewrite !filter_closed by (intros e He; by destruct (Hclosed e He)).
    split_and!; [done..|].
    unfold weights. clear. induction ges as [|e ges IH]; [done|].
    rewrite !filter_cons. cbn [sum_list_with]. rewrite <- IH.
    destruct (decide (Edge.source e = Edge.target e)).
    + rewrite decide_False by tauto. cbn. lia.
    + rewrite decide_True by done. cbn. lia.
Qed.

Lemma formatDomains_weights_witness :
  sum_list_with nrDependencies (formatDomains twoDomains) = 3%nat
  ∧ sum_list_with nrDependents (formatDomains twoDomains) = 3%nat.
Proof.
  destruct (formatDomains_weights twoDomains) as (_ & _ & _ & _ & Hclosed).
  - vm_compute. repeat (constructor; [set_solver|]). constructor.
  - destruct Hclosed as (-> & -> & _); [|done].
    intros e He. vm_compute in He. elem_cases He; subst; vm_compute; split;
      first [left | right; left].
Defined.
End domain_facts.

(** ** The cycles of the legacy service *)

Section legacy_violation_facts.
Import ViolationCyclicalDependenciesService LegacyViolationFacts.
Import GraphProcessingService.

Implicit Types (replaceMaps : gmap string string) (graph : Graph)
  (ds : list LegacyViolations.DependencyCycleRender).

Lemma keepFirst_filter (l : list ExtendedSimpleEdgeData) :
  filteri (λ e index,
             if decide (index = 0%nat) then true else bool_decide (source e ≠ target e)) l
  = match l with
    | [] => []
    | first :: rest => first :: filter (λ e, source e ≠ target e) rest
    end.
Proof.
  destruct l as [|first rest]; [done|]. unfold filteri. cbn [filterFrom].
  rewrite decide_True by done. f_equal.
  rewrite (filterFrom_ext _ (λ e _, bool_decide (source e ≠ target e))).
  - rewrite filterFrom_filter. apply list_filter_iff. intros e.
    apply bool_decide_eq_true.
  - intros e j _ Hj. rewrite decide_False; [done|lia].
Qed.

Lemma formatCycle_path replaceMaps graph dep i e :
  LegacyViolations.path (LegacyViolations.formatCycle replaceMaps graph dep) !! S i = Some e →
  source e ≠ target e.
Proof.
  unfold LegacyViolations.formatCycle. cbn [LegacyViolations.path].
  rewrite keepFirst_filter.
  destruct (_ <$> (_ <$> path dep)) as [|first rest]; [done|]. cbn.
  by intros [? _]%list_elem_of_lookup_2%list_elem_of_filter.
Qed.

Lemma mergeViolations_snoc ds d :
  LegacyViolations.mergeViolations (ds ++ [d]) =
  match list_find (λ d1, index d1 = index d) (LegacyViolations.mergeViolations ds) with
  | Some (i, d1) =>
      <[i := LegacyViolations.mkRender (LegacyViolations.node d1)
               (LegacyViolations.path d1) (LegacyViolations.length d1)
               (LegacyViolations.actualCycles d1 ++ LegacyViolations.actualCycles d)]>
        (LegacyViolations.mergeViolations ds)
  | None => LegacyViolations.mergeViolations ds ++ [d]
  end.
Proof. unfold LegacyViolations.mergeViolations. by rewrite foldl_snoc. Qed.

Lemma mergeViolations_NoDup ds :
  NoDup (index <$> LegacyViolations.mergeViolations ds).
Proof.
  induction ds as [|d ds IH] using rev_ind; [constructor|].
  rewrite mergeViolations_snoc.
  destruct (list_find _ (LegacyViolations.mergeViolations ds)) as [[i d1]|] eqn:Hfind.
  - apply list_find_Some in Hfind as (Hi & _ & _).
    rewrite list_fmap_insert. rewrite list_insert_id; [done|].
    by rewrite list_lookup_fmap, Hi.
  - rewrite fmap_app. apply NoDup_app. split_and!; [done| |apply NoDup_singleton].
    intros x Hx Hd%list_elem_of_singleton.
    apply list_elem_of_fmap in Hx as (d' & Hid & Hd').
    rewrite list_find_None, Forall_forall in Hfind.
    apply (Hfind d' Hd'). by rewrite <- Hid.
Qed.

Lemma mergeViolations_actualCycles ds :
  mjoin (LegacyViolations.actualCycles <$> LegacyViolations.mergeViolations ds)
  ≡ₚ mjoin (LegacyViolations.actualCycles <$> ds).
Proof.
  induction ds as [|d ds IH] using rev_ind; [done|].
  rewrite mergeViolations_snoc, (fmap_app _ ds), join_app.
  cbn [fmap list_fmap mjoin list_join]. rewrite app_nil_r, <- IH.
  destruct (list_find _ (LegacyViolations.mergeViolations ds)) as [[i d1]|] eqn:Hfind.
  - apply list_find_Some in Hfind as (Hi & _ & _).
    by apply (join_insert_app _ _ _ d1).
  - rewrite fmap_app, join_app. cbn. by rewrite app_nil_r.
Qed.

Lemma mergeViolations_elem ds d :
  d ∈ LegacyViolations.mergeViolations ds →
  ∃ d0 more,
    d0 ∈ ds
    ∧ d = LegacyViolations.mkRender (LegacyViolations.node d0) (LegacyViolations.path d0)
            (LegacyViolations.length d0) (LegacyViolations.actualCycles d0 ++ more)
    ∧ ∀ dep, dep ∈ more →
        ∃ d1, d1 ∈ ds ∧ index d1 = index d0 ∧ dep ∈ LegacyViolations.actualCycles d1.
Proof.
  revert d. induction ds as [|x ds IH] using rev_ind; intros d.
  { by intros ?%elem_of_nil. }
  assert (Hweaken : ∀ d', d' ∈ LegacyViolations.mergeViolations ds →
    ∃ d0 more,
      d0 ∈ ds ++ [x]
      ∧ d' = LegacyViolations.mkRender (LegacyViolations.node d0)
               (LegacyViolations.path d0) (LegacyViolations.length d0)
               (LegacyViolations.actualCycles d0 ++ more)
      ∧ ∀ dep, dep ∈ more →
          ∃ d1, d1 ∈ ds ++ [x] ∧ index d1 = index d0
                ∧ dep ∈ LegacyViolations.actualCycles d1).
  { intros d' Hd'. destruct (IH d' Hd') as (d0 & more & Hd0 & Heq & Hmore).
    exists d0, more. split_and!; [apply elem_of_app; by left|done|].
    intros dep Hdep. destruct (Hmore dep Hdep) as (d1 & Hd1 & Hid & Hin).
    exists d1. split_and!; [apply elem_of_app; by left|done..]. }
  rewrite mergeViolations_snoc.
  destruct (list_find _ (LegacyViolations.mergeViolations ds)) as [[i d1]|] eqn:Hfind.
  - apply list_find_Some in Hfind as (Hi & Hid & _).
    intros (j & Hj)%list_elem_of_lookup.
    apply list_lookup_insert_Some in Hj as [(<- & <- & _)|(Hne & Hj)].
    + destruct (IH d1) as (d0 & more & Hd0 & Heq & Hmore);
        [by eapply list_elem_of_lookup_2|].
      exists d0, (more ++ LegacyViolations.actualCycles x).
      split_and!; [apply elem_of_app; by left| |].
      * rewrite Heq. cbn. by rewrite app_assoc.
      * intros dep [Hdep|Hdep]%elem_of_app.
        -- destruct (Hmore dep Hdep) as (d2 & Hd2 & Hid2 & Hin).
           exists d2. split_and!; [apply elem_of_app; by left|done..].
        -- exists x. split_and!; [apply elem_of_app; right; left| |done].
           rewrite <- Hid, Heq. done.
    + apply Hweaken. by eapply list_elem_of_lookup_2.
  - intros [Hd|Hd%list_elem_of_singleton]%elem_of_app; [by apply Hweaken|].
    exists x, []. split_and!; [apply elem_of_app; right; left| |].
    + rewrite Hd, app_nil_r. by destruct x.
    + by intros dep ?%elem_of_nil.
Qed.

Lemma is_Some_find_node graph (x : string) :
  is_Some (list_find (λ n, Node.id n = x) (nodes graph)) ↔ x ∈ Node.id <$> nodes graph.
Proof.
  split.
  - intros [[i n] (Hi & <- & _)%list_find_Some].
    apply list_elem_of_fmap_2. by eapply list_elem_of_lookup_2.
  - intros (n & -> & Hn)%list_elem_of_fmap.
    by eapply (list_find_elem_of (λ n', Node.id n' = Node.id n)).
Qed.

(** X29.  The cycles that the legacy service renders have different
    indices; the node of each is a node of the graph, and no step of its
    path but the first is a self-edge; each shows the first of its actual
    cycles, all its actual cycles are given cycles that are formatted to
    its index, and the actual cycles of all rendered cycles together are
    the given cycles whose formatted node is a node of the graph. *)
Theorem formatCyclicalDependencies_merged replaceMaps graph
    (cycles : list DependencyCycle) :
  let out := LegacyViolations.formatCyclicalDependencies replaceMaps graph cycles in
  NoDup (index <$> out)
  ∧ mjoin (LegacyViolations.actualCycles <$> out)
    ≡ₚ filter (rendered replaceMaps graph) cycles
  ∧ ∀ d, d ∈ out →
      Node.id (LegacyViolations.node d) ∈ Node.id <$> nodes graph
      ∧ (∀ i e, LegacyViolations.path d !! S i = Some e → source e ≠ target e)
      ∧ (∃ dep rest,
           LegacyViolations.actualCycles d = dep :: rest
           ∧ LegacyViolations.node d
             = LegacyViolations.node (LegacyViolations.formatCycle replaceMaps graph dep)
           ∧ LegacyViolations.path d
             = LegacyViolations.path (LegacyViolations.formatCycle replaceMaps graph dep)
           ∧ LegacyViolations.length d = length dep)
      ∧ ∀ dep, dep ∈ LegacyViolations.actualCycles d →
          dep ∈ cycles
          ∧ index (LegacyViolations.formatCycle replaceMaps graph dep) = index d.
Proof.
  cbn zeta. unfold LegacyViolations.formatCyclicalDependencies.
  set (inGraph := filter _ (LegacyViolations.formatCycle replaceMaps graph <$> cycles)).
  assert (Hin : ∀ d0, d0 ∈ inGraph →
            ∃ dep, dep ∈ cycles ∧ d0 = LegacyViolations.formatCycle replaceMaps graph dep
                   ∧ rendered replaceMaps graph dep).
  { intros d0 [Hsome (dep & -> & Hdep)%list_elem_of_fmap]%list_elem_of_filter.
    exists dep. split_and!; [done..|]. by apply is_Some_find_node. }
  split_and!.
  - apply mergeViolations_NoDup.
  - rewrite mergeViolations_actualCycles. subst inGraph. clear Hin.
    induction cycles as [|dep cycles IH]; [done|].
    rewrite fmap_cons, !filter_cons.
    destruct (decide (rendered replaceMaps graph dep)) as [Hr|Hr].
    + rewrite decide_True by (by apply is_Some_find_node). cbn. by rewrite IH.
    + rewrite decide_False; [done|]. intros Hs. by apply Hr, is_Some_find_node.
  - intros d (d0 & more & Hd0 & -> & Hmore)%mergeViolations_elem. cbn.
    destruct (Hin d0 Hd0) as (dep0 & Hdep0 & -> & Hr0).
    split_and!; [done| | |].
    + intros i e. apply formatCycle_path.
    + by exists dep0, more.
    + intros dep Hdep. change (dep ∈ dep0 :: more) in Hdep.
      apply elem_of_cons in Hdep as [->|Hdep]; [done|].
      destruct (Hmore dep Hdep) as (d1 & Hd1 & Hid1 & Hin1).
      destruct (Hin d1 Hd1) as (dep1 & Hdep1 & -> & _).
      change (dep ∈ [dep1]) in Hin1. apply list_elem_of_singleton in Hin1 as ->.
      split; [done|exact Hid1].
Qed.
End legacy_violation_facts.

(** ** The pre-processor and the engine together *)

Section pipeline_facts.
Import GraphProcessingService GraphPreProcessingService PreProcessingFacts EngineFacts.

(** X30.  For a pre-processor whose nodes are those of [getAllNodes],
    the nodes that [formatToLPG] returns have different ids; each has the id
    of a source or a target of the records and is marked as selected exactly
    when that is the selected id; and each node in which a containment edge
    ends has the source of such an edge as its parent. *)
Theorem formatToLPG_preprocessed (records : list Neo4jComponentPath)
    (selectedId : option string) (chunked : list Path.t) name options :
  let original := mkPre (getAllNodes records selectedId) (onlyKeepLongestPaths chunked) in
  let merged := mergedEdges original (maxDepth options) in
  NoDup (Node.id <$> nodes (formatToLPG original name options))
  ∧ (∀ n, n ∈ nodes (formatToLPG original name options) →
       Node.id n ∈ Neo4jComponentNode.elementId <$> endpointNodes records
       ∧ (Node.selected n = "true" ↔ selectedId = Some (Node.id n)))
  ∧ ∀ n e, n ∈ nodes (formatToLPG original name options) →
      e ∈ containmentEdges merged → Edge.target e = Node.id n →
      ∃ e', e' ∈ containmentEdges merged ∧ Edge.target e' = Node.id n
            ∧ Node.parent n = Some (Edge.source e').
Proof.
  intros original merged.
  assert (Hnd : NoDup (Node.id <$> filterNodesByEdges (original_nodes original) merged)).
  { eapply sublist_NoDup; [apply (getAllNodes_map_NoDup selectedId [])|].
    apply fmap_sublist. unfold filterNodesByEdges. apply sublist_filter. }
  split_and!.
  - by rewrite formatToLPG_nodes.
  - intros n (i & Hi)%list_elem_of_lookup.
    pose proof (addParentRelationship_parentFrom
                  (filterNodesByEdges (original_nodes original) merged)
                  (containmentEdges merged)) as Hall.
    destruct (Forall2_lookup_r _ _ _ _ _ Hall Hi) as (n0 & Hn0 & Hfrom).
    apply list_elem_of_lookup_2, list_elem_of_filter in Hn0 as [_ Hn0].
    apply getAllNodes_map_sound in Hn0 as (_ & j & field & Hfind & ->).
    apply list_find_Some in Hfind as (Hj & Hid & _).
    assert (Hsel : ∀ n1, Node.id n1 = Neo4jComponentNode.elementId field →
              Node.selected n1 = Node.selected (formatNeo4jNodeToNodeData field selectedId) →
              Node.id n1 ∈ Neo4jComponentNode.elementId <$> endpointNodes records
              ∧ (Node.selected n1 = "true" ↔ selectedId = Some (Node.id n1))).
    { intros n1 Hid1 Hsel1. split.
      - rewrite Hid1. apply list_elem_of_fmap_2. by eapply list_elem_of_lookup_2.
      - rewrite Hsel1, Hid1. cbn.
        destruct (decide (Some (Neo4jComponentNode.elementId field) = selectedId))
          as [<-|Hne]; split; try done; congruence. }
    destruct Hfrom as [->|(e & _ & _ & ->)]; by apply Hsel.
  - intros n e. by apply addParentRelationship_parent_set.
Qed.
End pipeline_facts.
